(** * langx: lexer, grammar, AST and visitor engine

    A shallow embedding of the [parser] package: the lexical rules of [lex],
    the grammar carried by the struct tags of the AST types, the [accept]
    methods and the two traversals [VisitFunc] and [Visit], and the entry
    points [Parse] and [ParseString].

    The model comes first: the lexer (a backtracking matcher for the regular
    expressions of [lex] and the token loop), the AST types, the visitor
    engine (nodes as interface values, walks as functions of the visitor's
    state that return or panic), the grammar (sequence, ordered choice and
    repetition over a token stream, one rule per AST type) and the entry
    points. The properties follow, grouped by component.

    Three parts of the program are not in the source and are marked where
    they are modelled: the types of the expression tree with their [accept]
    methods and grammar rules, the type [Modifiers], and the token filter
    [fixupLexerDefinition]. The parser library is modelled by the three
    primitives that the specification describes. *)

From Stdlib Require Import String Ascii List Arith Bool Lia.
From Stdlib Require Import ZArith DecimalString DecimalZ DecimalPos.
Import ListNotations.

Local Open Scope string_scope.
Local Open Scope list_scope.

(** ** Source positions *)

(** [lexer.Position]: byte offset, line and column (the file name is not
    modelled). *)
Record Position : Type := mkPosition {
  Offset : nat;
  Line : nat;
  Column : nat
}.

Definition start_position : Position := mkPosition 0 1 1.

(* ------------------------------------------------------------------ *)
(** ** Lexer *)

Module Lexer.

(** Regular expressions, as far as the rules of [lex] use them. *)
Inductive regex : Type :=
| Lit (s : string)                              (* a literal run of characters *)
| Class (negated : bool) (members : list ascii) (* [...] and [^...] *)
| Range (lo hi : ascii)                         (* one range of a class *)
| Dot                                           (* . : any character but newline *)
| DotAll                                        (* . under the flag (?s) *)
| WordBoundary                                  (* \b *)
| Cat (r1 r2 : regex)
| Alt (r1 r2 : regex)
| Star (r : regex)                              (* r*  greedy *)
| LazyStar (r : regex)                          (* r*? *)
| Plus (r : regex)                              (* r+ *)
| Opt (r : regex).                              (* r?  *)

Definition newline : ascii := ascii_of_nat 10.
Definition tab : ascii := ascii_of_nat 9.
Definition carriage_return : ascii := ascii_of_nat 13.

Definition in_range (lo hi c : ascii) : bool :=
  Nat.leb (nat_of_ascii lo) (nat_of_ascii c) && Nat.leb (nat_of_ascii c) (nat_of_ascii hi).

Definition is_digit (c : ascii) : bool := in_range "0" "9" c.
Definition is_alpha (c : ascii) : bool := in_range "a" "z" c || in_range "A" "Z" c.
(** [\w] *)
Definition is_word (c : ascii) : bool := is_digit c || is_alpha c || Ascii.eqb c "_".

Definition is_word_opt (c : option ascii) : bool :=
  match c with Some c => is_word c | None => false end.

Definition head (s : string) : option ascii :=
  match s with EmptyString => None | String c _ => Some c end.

Fixpoint mem (c : ascii) (l : list ascii) : bool :=
  match l with
  | [] => false
  | x :: l' => Ascii.eqb c x || mem c l'
  end.

(** [strip_prefix p s] is the rest of [s] after the literal [p]. *)
Fixpoint strip_prefix (p s : string) : option string :=
  match p, s with
  | EmptyString, _ => Some s
  | String a p', String b s' => if Ascii.eqb a b then strip_prefix p' s' else None
  | String _ _, EmptyString => None
  end.

Fixpoint last_char (prev : option ascii) (s : string) : option ascii :=
  match s with
  | EmptyString => prev
  | String c s' => last_char (Some c) s'
  end.

(** The continuation of a match: the character before the cursor and the
    text after it. *)
Definition cont : Type := option ascii -> string -> option string.

(** The loop of a greedy star over the matcher [m] of its body: one more
    iteration is preferred, and an iteration that consumes nothing ends the
    loop. *)
Fixpoint star_loop (m : option ascii -> string -> cont -> option string) (k : cont)
    (n : nat) (prev : option ascii) (s : string) : option string :=
  match n with
  | 0 => k prev s
  | S n' =>
      match m prev s (fun p' s' =>
              if Nat.ltb (String.length s') (String.length s) then star_loop m k n' p' s'
              else None) with
      | Some r => Some r
      | None => k prev s
      end
  end.

(** The loop of a lazy star: stopping is preferred. *)
Fixpoint lazy_loop (m : option ascii -> string -> cont -> option string) (k : cont)
    (n : nat) (prev : option ascii) (s : string) : option string :=
  match k prev s with
  | Some r => Some r
  | None =>
      match n with
      | 0 => None
      | S n' =>
          m prev s (fun p' s' =>
            if Nat.ltb (String.length s') (String.length s) then lazy_loop m k n' p' s'
            else None)
      end
  end.

(** Backtracking, leftmost-first matching at the head of [s]: the first
    way of matching [r] (alternatives left to right, greedy operators
    longest first) whose continuation [k] succeeds. *)
Fixpoint run (r : regex) (prev : option ascii) (s : string) (k : cont) : option string :=
  match r with
  | Lit p =>
      match strip_prefix p s with
      | Some s' => k (last_char prev p) s'
      | None => None
      end
  | Class negated members =>
      match s with
      | String c s' => if xorb negated (mem c members) then k (Some c) s' else None
      | EmptyString => None
      end
  | Range lo hi =>
      match s with
      | String c s' => if in_range lo hi c then k (Some c) s' else None
      | EmptyString => None
      end
  | Dot =>
      match s with
      | String c s' => if Ascii.eqb c newline then None else k (Some c) s'
      | EmptyString => None
      end
  | DotAll =>
      match s with
      | String c s' => k (Some c) s'
      | EmptyString => None
      end
  | WordBoundary =>
      if xorb (is_word_opt prev) (is_word_opt (head s)) then k prev s else None
  | Cat r1 r2 => run r1 prev s (fun p' s' => run r2 p' s' k)
  | Alt r1 r2 =>
      match run r1 prev s k with
      | Some x => Some x
      | None => run r2 prev s k
      end
  | Star r' => star_loop (run r') k (String.length s) prev s
  | LazyStar r' => lazy_loop (run r') k (String.length s) prev s
  | Plus r' => run r' prev s (fun p' s' => star_loop (run r') k (String.length s') p' s')
  | Opt r' =>
      match run r' prev s k with
      | Some x => Some x
      | None => k prev s
      end
  end.

(** [alts [r1; ...; rn]] is [r1|...|rn]. *)
Fixpoint alts (rs : list regex) : regex :=
  match rs with
  | [] => Class false []
  | [r] => r
  | r :: rs' => Alt r (alts rs')
  end.

Definition cats (rs : list regex) : regex := fold_right Cat (Lit "") rs.

(** The token kinds, in the order of the rules of [lex]. *)
Inductive TokenKind : Type :=
| comment | backslash | whitespace
| Modifier | Keyword | Ident | Number | String_ | Newline | Operator | Punct.

Definition TokenKind_eqb (a b : TokenKind) : bool :=
  match a, b with
  | comment, comment | backslash, backslash | whitespace, whitespace
  | Modifier, Modifier | Keyword, Keyword | Ident, Ident | Number, Number
  | String_, String_ | Newline, Newline | Operator, Operator | Punct, Punct => true
  | _, _ => false
  end.

(** [\w] and [\d] as classes. *)
Definition word_class : regex := alts [Range "0" "9"; Range "A" "Z"; Range "a" "z"; Lit "_"].
Definition digit_class : regex := Range "0" "9".
(** [[[:alpha:]_]] *)
Definition alpha_underscore : regex := alts [Range "A" "Z"; Range "a" "z"; Lit "_"].

Definition quote : ascii := ascii_of_nat 34.
Definition apostrophe : ascii := ascii_of_nat 39.
Definition backslash_char : ascii := ascii_of_nat 92.
Definition backquote : ascii := ascii_of_nat 96.

Definition lit1 (c : ascii) : regex := Lit (String c EmptyString).

(** The rules of [lex], one per line of the definition, in its order. *)
Definition comment_rule : regex :=
  Alt (Cat (Lit "//") (Star Dot))
      (cats [Lit "/*"; LazyStar DotAll; Lit "*/"]).
Definition backslash_rule : regex := lit1 backslash_char.
Definition whitespace_rule : regex := Plus (Class false [carriage_return; tab; " "%char]).
Definition Modifier_rule : regex :=
  cats [WordBoundary; alts [Lit "pub"; Lit "override"; Lit "static"]; WordBoundary].
Definition Keyword_rule : regex :=
  cats [WordBoundary;
        alts [Lit "in"; Lit "switch"; Lit "case"; Lit "default"; Lit "if"; Lit "enum";
              Lit "alias"; Lit "let"; Lit "fn"; Lit "break"; Lit "continue"; Lit "for";
              Lit "throws"; Lit "import"; Lit "new"];
        WordBoundary].
Definition Ident_rule : regex :=
  cats [WordBoundary; Cat alpha_underscore (Star word_class); WordBoundary].
Definition Number_rule : regex :=
  cats [WordBoundary;
        Cat (Plus digit_class) (Opt (Cat (Lit ".") (Plus digit_class)));
        WordBoundary].
(** The body of a double-quoted literal: an escaped character, or any
    character but the double quote. *)
Definition string_body : regex :=
  Alt (Cat (lit1 backslash_char) Dot) (Class true [quote]).
Definition String_rule : regex :=
  Alt (cats [lit1 quote; Star string_body; lit1 quote])
      (cats [lit1 apostrophe; Star (Class true [apostrophe]); lit1 apostrophe]).
Definition Newline_rule : regex := lit1 newline.
Definition Operator_rule : regex :=
  alts [Lit "->"; Lit "%="; Lit ">="; Lit "<="; Lit "^="; Lit "&&"; Lit "||"; Lit "==";
        Lit "!="; Lit "+="; Lit "-="; Lit "*="; Lit "/=";
        Class false ["-"; "="; "+"; "*"; "/"; "<"; ">"; "%"; "^"; "!"]%char].
Definition Punct_rule : regex :=
  Class false ["]"; backquote; "~"; "["; "("; ")"; "@"; "#"; "$"; "{"; "}"; ":"; ";";
               "?"; "."; ","]%char.

Definition rules : list (TokenKind * regex) :=
  [ (comment, comment_rule);
    (backslash, backslash_rule);
    (whitespace, whitespace_rule);
    (Modifier, Modifier_rule);
    (Keyword, Keyword_rule);
    (Ident, Ident_rule);
    (Number, Number_rule);
    (String_, String_rule);
    (Newline, Newline_rule);
    (Operator, Operator_rule);
    (Punct, Punct_rule) ].

(** A rule matches at the cursor with nothing visible before it: the lexer
    matches against the text that remains. *)
Definition match_rule (r : regex) (s : string) : option string :=
  run r None s (fun _ s' => Some s').

(** The first rule, in order, that matches at the cursor. *)
Fixpoint first_match (rs : list (TokenKind * regex)) (s : string)
    : option (TokenKind * string) :=
  match rs with
  | [] => None
  | (kind, r) :: rs' =>
      match match_rule r s with
      | Some rest => Some (kind, rest)
      | None => first_match rs' s
      end
  end.

Record Token : Type := mkToken {
  Type_ : TokenKind;
  Value : string;
  Pos : Position
}.

Fixpoint take (n : nat) (s : string) : string :=
  match n, s with
  | S n', String c s' => String c (take n' s')
  | _, _ => EmptyString
  end.

(** The position after the text [m]: the offset grows by its length, a
    newline starts a line, and the column counts from the last newline. *)
Fixpoint advance (pos : Position) (m : string) : Position :=
  match m with
  | EmptyString => pos
  | String c m' =>
      if Ascii.eqb c newline
      then advance (mkPosition (S (Offset pos)) (S (Line pos)) 1) m'
      else advance (mkPosition (S (Offset pos)) (Line pos) (S (Column pos))) m'
  end.

Inductive LexResult : Type :=
| Tokens (ts : list Token)
| LexError (pos : Position) (c : ascii).

Definition cons_token (t : Token) (r : LexResult) : LexResult :=
  match r with
  | Tokens ts => Tokens (t :: ts)
  | LexError pos c => LexError pos c
  end.

(** The token loop: at each position the first matching rule gives the next
    token; a character that no rule matches is a lexical error at its
    position. [fuel] bounds the number of tokens. *)
Fixpoint lex_from (fuel : nat) (pos : Position) (s : string) : LexResult :=
  match s with
  | EmptyString => Tokens []
  | String c _ =>
      match first_match rules s with
      | None => LexError pos c
      | Some (kind, rest) =>
          let text := take (String.length s - String.length rest) s in
          match fuel with
          | 0 => LexError pos c
          | S fuel' =>
              if Nat.ltb (String.length rest) (String.length s)
              then cons_token (mkToken kind text pos) (lex_from fuel' (advance pos text) rest)
              else LexError pos c
          end
      end
  end.

(** Every token takes at least one character, so the length of the input
    bounds the number of tokens. *)
Definition lex_all (s : string) : LexResult := lex_from (String.length s) start_position s.

(** Modelled from the spec: the token filter between [lex] and the grammar
    ([fixupLexerDefinition]) is not in the source. Comments and whitespace
    are elided before the grammar sees the stream, and so is the newline
    kind, which no grammar rule mentions. *)
Definition elided (k : TokenKind) : bool :=
  match k with
  | comment | whitespace | Newline => true
  | _ => false
  end.

Definition elide (ts : list Token) : list Token :=
  filter (fun t => negb (elided (Type_ t))) ts.

Definition lex (s : string) : LexResult :=
  match lex_all s with
  | Tokens ts => Tokens (elide ts)
  | LexError pos c => LexError pos c
  end.

(** The kinds and texts of a token stream. *)
Definition shape (ts : list Token) : list (TokenKind * string) :=
  map (fun t => (Type_ t, Value t)) ts.



(** A match ends where its continuation is called, which is not before
    where it began. *)
Definition ends_in (strict : bool) (s : string) (k : cont) (x : string) : Prop :=
  exists p' s', k p' s' = Some x /\
                (if strict then String.length s' < String.length s
                 else String.length s' <= String.length s).


(** [reaches pos s pos' s']: from the position [pos], where the text [s]
    remains, the token loop arrives, token after token, at the position
    [pos'], where the text [s'] remains. *)
Inductive reaches : Position -> string -> Position -> string -> Prop :=
| reaches_here : forall pos s, reaches pos s pos s
| reaches_token : forall pos s kind rest pos' s',
    first_match rules s = Some (kind, rest) ->
    String.length rest < String.length s ->
    reaches (advance pos (take (String.length s - String.length rest) s)) rest pos' s' ->
    reaches pos s pos' s'.

End Lexer.

(* ------------------------------------------------------------------ *)
(** ** AST model *)

(** Induction over the nodes goes through the lists and optional fields
    that hold their children. *)
Scheme All for list.
Scheme All for option.

(** Modelled from the spec: the type [Modifiers] is not in the source; it
    holds zero or more of the modifiers [pub], [override] and [static],
    duplicates permitted. *)
Definition Modifiers : Type := list string.

(** Modelled from the spec: the expression-tree node types ([Expr], [Unary],
    [Literal], [Reference], [ReferenceNext], [Call], [ArrayLiteral],
    [DictOrSetLiteral], [DictOrSetEntryLiteral], [Terminal]) and their
    [accept] methods are not in the source. A node of the expression tree is
    modelled by its kind, which is the kind the typed visitor dispatches on,
    its position, its text and its present children in declared order. *)
Inductive ExprKind : Type :=
| Expr | Unary | Literal | Reference | ReferenceNext
| Call | ArrayLiteral | DictOrSetLiteral | DictOrSetEntryLiteral | Terminal.

Inductive ExprNode : Type :=
| mkExprNode (kind : ExprKind) (pos : Position) (text : string) (children : list ExprNode).

Definition ExprNode_kind (x : ExprNode) : ExprKind :=
  match x with mkExprNode k _ _ _ => k end.
Definition ExprNode_children (x : ExprNode) : list ExprNode :=
  match x with mkExprNode _ _ _ cs => cs end.

(** A pointer field is an [option]: [None] is the nil pointer. A slice of
    pointers is the list of the nodes pointed to (the parser appends only
    freshly built nodes, so no element is nil). *)

Record ImportDecl : Type := mkImportDecl {
  ImportDecl_Pos : Position;
  ImportDecl_Alias : string;
  ImportDecl_Import : string
}.

Record TypeParamDecl : Type := mkTypeParamDecl {
  TypeParamDecl_Pos : Position;
  TypeParamDecl_Name : string;
  TypeParamDecl_Constraints : list ExprNode
}.

Record TypeDecl : Type := mkTypeDecl {
  TypeDecl_Pos : Position;
  TypeDecl_Type : string;
  TypeDecl_TypeParameter : list TypeParamDecl
}.

Record CaseDecl : Type := mkCaseDecl {
  CaseDecl_Pos : Position;
  CaseDecl_Name : string;
  CaseDecl_Type : option TypeDecl
}.

Record Parameters : Type := mkParameters {
  Parameters_Pos : Position;
  Parameters_Names : list string;
  Parameters_Type : option ExprNode
}.

Record VarDeclAsgn : Type := mkVarDeclAsgn {
  VarDeclAsgn_Pos : Position;
  VarDeclAsgn_Name : string;
  VarDeclAsgn_Type : option ExprNode;
  VarDeclAsgn_Default : option ExprNode
}.

Record VarDecl : Type := mkVarDecl {
  VarDecl_Pos : Position;
  VarDecl_Vars : list VarDeclAsgn
}.

Record EnumCase : Type := mkEnumCase {
  EnumCase_Pos : Position;
  EnumCase_Case : string;
  EnumCase_Var : string
}.

Record CaseSelect : Type := mkCaseSelect {
  CaseSelect_Pos : Position;
  CaseSelect_EnumCase : option EnumCase;
  CaseSelect_ExprCase : option ExprNode
}.

Record ReturnStmt : Type := mkReturnStmt {
  ReturnStmt_Pos : Position;
  ReturnStmt_Value : option ExprNode
}.

(** The node types that refer to each other. The arguments of each
    constructor are the fields of the struct, in its order. *)
Inductive Stmt : Type :=
| mkStmt (Pos : Position)
    (Return : option ReturnStmt) (If : option IfStmt) (For : option ForStmt)
    (Switch : option SwitchStmt) (Block_ : option Block) (VarDecl_ : option VarDecl)
    (FuncDecl_ : option FuncDecl) (ClassDecl_ : option ClassDecl)
    (EnumDecl_ : option EnumDecl) (Expression : option ExprNode)
with Block : Type :=
| mkBlock (Pos : Position) (Statements : list Stmt)
with ForStmt : Type :=
| mkForStmt (Pos : Position) (Target : option ExprNode) (Source : option ExprNode)
    (Body : option Block)
with IfStmt : Type :=
| mkIfStmt (Pos : Position) (Condition : option ExprNode) (Main : option Block)
    (Else : option Block)
with SwitchStmt : Type :=
| mkSwitchStmt (Pos : Position) (Target : option ExprNode) (Cases : list CaseStmt)
with CaseStmt : Type :=
| mkCaseStmt (Pos : Position) (Default : bool) (Case : option CaseSelect) (Body : list Stmt)
with FuncDecl : Type :=
| mkFuncDecl (Pos : Position) (Name : string) (Parameters_ : list Parameters)
    (Throws : bool) (Return : option ExprNode) (Body : option Block)
with InitialiserDecl : Type :=
| mkInitialiserDecl (Pos : Position) (Parameters_ : list Parameters) (Throws : bool)
    (Body : option Block)
with ClassDecl : Type :=
| mkClassDecl (Pos : Position) (Type_ : option TypeDecl) (Members : list ClassMember)
with ClassMember : Type :=
| mkClassMember (Pos : Position) (Modifiers_ : Modifiers)
    (VarDecl_ : option VarDecl) (FuncDecl_ : option FuncDecl)
    (ClassDecl_ : option ClassDecl) (EnumDecl_ : option EnumDecl)
    (InitialiserDecl_ : option InitialiserDecl)
with EnumDecl : Type :=
| mkEnumDecl (Pos : Position) (Type_ : option TypeDecl) (Members : list EnumMember)
with EnumMember : Type :=
| mkEnumMember (Pos : Position) (Modifiers_ : Modifiers)
    (CaseDecl_ : option CaseDecl) (VarDecl_ : option VarDecl)
    (FuncDecl_ : option FuncDecl) (ClassDecl_ : option ClassDecl)
    (EnumDecl_ : option EnumDecl) (InitialiserDecl_ : option InitialiserDecl).

Record RootDecl : Type := mkRootDecl {
  RootDecl_Pos : Position;
  RootDecl_Modifiers : Modifiers;
  RootDecl_Class : option ClassDecl;
  RootDecl_Import : option ImportDecl;
  RootDecl_Enum : option EnumDecl;
  RootDecl_Var : option VarDecl;
  RootDecl_Func : option FuncDecl
}.

Record AST : Type := mkAST {
  AST_Pos : Position;
  AST_Declarations : list RootDecl
}.

(** Field access on the mutually defined nodes. *)
Definition Stmt_Expression (s : Stmt) : option ExprNode :=
  match s with mkStmt _ _ _ _ _ _ _ _ _ _ e => e end.
Definition EnumDecl_Members (e : EnumDecl) : list EnumMember :=
  match e with mkEnumDecl _ _ ms => ms end.
Definition ClassDecl_Members (c : ClassDecl) : list ClassMember :=
  match c with mkClassDecl _ _ ms => ms end.

(** *** The Decl capability *)

(** A [Decl] is a non-nil pointer to one of the declaration node types. *)
Inductive Decl : Type :=
| Decl_Class (d : ClassDecl)
| Decl_Import (d : ImportDecl)
| Decl_Enum (d : EnumDecl)
| Decl_Var (d : VarDecl)
| Decl_Func (d : FuncDecl)
| Decl_Case (d : CaseDecl)
| Decl_Initialiser (d : InitialiserDecl).

(** The result of a call that may panic. *)
Inductive result (A : Type) : Type :=
| Returns (a : A)
| Panics (msg : string).
Arguments Returns {A} a.
Arguments Panics {A} msg.

Definition RootDecl_Decl (r : RootDecl) : result Decl :=
  match RootDecl_Class r, RootDecl_Import r, RootDecl_Enum r, RootDecl_Var r,
        RootDecl_Func r with
  | Some c, _, _, _, _ => Returns (Decl_Class c)
  | None, Some i, _, _, _ => Returns (Decl_Import i)
  | None, None, Some e, _, _ => Returns (Decl_Enum e)
  | None, None, None, Some v, _ => Returns (Decl_Var v)
  | None, None, None, None, Some f => Returns (Decl_Func f)
  | None, None, None, None, None => Panics "?"
  end.

(** The switch of [EnumMember.Decl] has the cases [CaseDecl], [VarDecl],
    [FuncDecl], [ClassDecl] and [InitialiserDecl], and no case for
    [EnumDecl]. *)
Definition EnumMember_Decl (e : EnumMember) : result Decl :=
  match e with
  | mkEnumMember _ _ CaseDecl_ VarDecl_ FuncDecl_ ClassDecl_ EnumDecl_ InitialiserDecl_ =>
      match CaseDecl_, VarDecl_, FuncDecl_, ClassDecl_, InitialiserDecl_ with
      | Some c, _, _, _, _ => Returns (Decl_Case c)
      | None, Some v, _, _, _ => Returns (Decl_Var v)
      | None, None, Some f, _, _ => Returns (Decl_Func f)
      | None, None, None, Some c, _ => Returns (Decl_Class c)
      | None, None, None, None, Some i => Returns (Decl_Initialiser i)
      | None, None, None, None, None => Panics "??"
      end
  end.

Definition ClassMember_Decl (c : ClassMember) : result Decl :=
  match c with
  | mkClassMember _ _ VarDecl_ FuncDecl_ ClassDecl_ EnumDecl_ InitialiserDecl_ =>
      match VarDecl_, FuncDecl_, ClassDecl_, EnumDecl_, InitialiserDecl_ with
      | Some v, _, _, _, _ => Returns (Decl_Var v)
      | None, Some f, _, _, _ => Returns (Decl_Func f)
      | None, None, Some c, _, _ => Returns (Decl_Class c)
      | None, None, None, Some e, _ => Returns (Decl_Enum e)
      | None, None, None, None, Some i => Returns (Decl_Initialiser i)
      | None, None, None, None, None => Panics "??"
      end
  end.

(** The loop of the three [Decls] methods:
    [decls := []Decl{}; for _, d := range l { decls = append(decls, d.Decl()) };
    return decls]. A resolver that panics ends the loop. *)
Fixpoint append_Decls {A : Type} (resolve : A -> result Decl) (decls : list Decl)
    (l : list A) : result (list Decl) :=
  match l with
  | [] => Returns decls
  | d :: l' =>
      match resolve d with
      | Returns x => append_Decls resolve (decls ++ [x]) l'
      | Panics msg => Panics msg
      end
  end.


Definition EnumDecl_Decls (e : EnumDecl) : result (list Decl) :=
  append_Decls EnumMember_Decl [] (EnumDecl_Members e).

Definition ClassDecl_Decls (c : ClassDecl) : result (list Decl) :=
  append_Decls ClassMember_Decl [] (ClassDecl_Members c).

(** The number of populated arms of an [EnumMember]. *)
Definition populated {A : Type} (o : option A) : nat :=
  match o with Some _ => 1 | None => 0 end.

Definition EnumMember_arms (e : EnumMember) : nat :=
  match e with
  | mkEnumMember _ _ c v f cl en i =>
      populated c + populated v + populated f + populated cl + populated en + populated i
  end.

Definition Stmt_arms (s : Stmt) : nat :=
  match s with
  | mkStmt _ r i f sw b v fd c e x =>
      populated r + populated i + populated f + populated sw + populated b
      + populated v + populated fd + populated c + populated e + populated x
  end.

Scheme Stmt_mind := Induction for Stmt Sort Prop
  with Block_mind := Induction for Block Sort Prop
  with ForStmt_mind := Induction for ForStmt Sort Prop
  with IfStmt_mind := Induction for IfStmt Sort Prop
  with SwitchStmt_mind := Induction for SwitchStmt Sort Prop
  with CaseStmt_mind := Induction for CaseStmt Sort Prop
  with FuncDecl_mind := Induction for FuncDecl Sort Prop
  with InitialiserDecl_mind := Induction for InitialiserDecl Sort Prop
  with ClassDecl_mind := Induction for ClassDecl Sort Prop
  with ClassMember_mind := Induction for ClassMember Sort Prop
  with EnumDecl_mind := Induction for EnumDecl Sort Prop
  with EnumMember_mind := Induction for EnumMember Sort Prop.

Combined Scheme nodes_mutind from Stmt_mind, Block_mind, ForStmt_mind, IfStmt_mind,
  SwitchStmt_mind, CaseStmt_mind, FuncDecl_mind, InitialiserDecl_mind, ClassDecl_mind,
  ClassMember_mind, EnumDecl_mind, EnumMember_mind.

(* ------------------------------------------------------------------ *)
(** ** Operators *)

Module OpString.

(** The type [Op] is declared outside the source at hand; [String] compares
    a value of it with zero and converts it to [int64], so it is a signed
    integer type. The constants are numbered as the generated check of
    [op_string.go] requires. *)
Definition Op : Type := Z.

Definition OpNone : Op := 0%Z.
Definition OpModAsgn : Op := 1%Z.
Definition OpGe : Op := 2%Z.
Definition OpLe : Op := 3%Z.
Definition OpAnd : Op := 4%Z.
Definition OpOr : Op := 5%Z.
Definition OpEq : Op := 6%Z.
Definition OpNe : Op := 7%Z.
Definition OpAddAsgn : Op := 8%Z.
Definition OpSubAsgn : Op := 9%Z.
Definition OpMulAsgn : Op := 10%Z.
Definition OpDivAsgn : Op := 11%Z.
Definition OpPowAsgn : Op := 12%Z.
Definition OpSub : Op := 13%Z.
Definition OpAsgn : Op := 14%Z.
Definition OpAdd : Op := 15%Z.
Definition OpMul : Op := 16%Z.
Definition OpDiv : Op := 17%Z.
Definition OpLt : Op := 18%Z.
Definition OpGt : Op := 19%Z.
Definition OpMod : Op := 20%Z.
Definition OpPow : Op := 21%Z.
Definition OpNot : Op := 22%Z.
Definition OpSend : Op := 23%Z.

Definition _Op_name : string := "%=>=<=&&||==!=+=-=*=/=^=-=+*/<>%^!->".

Definition _Op_index : list nat :=
  [0; 0; 2; 4; 6; 8; 10; 12; 14; 16; 18; 20; 22; 24; 25; 26; 27; 28; 29; 30; 31; 32; 33;
   34; 36].

(** [a[i]] on an array: an index out of range panics. *)
Definition index (a : list nat) (i : Z) : result nat :=
  if (i <? 0)%Z then Panics "index out of range"
  else match nth_error a (Z.to_nat i) with
       | Some x => Returns x
       | None => Panics "index out of range"
       end.

(** [s[lo:hi]] on a string: bounds out of range panic. *)
Definition slice (s : string) (lo hi : nat) : result string :=
  if Nat.leb lo hi && Nat.leb hi (String.length s)
  then Returns (substring lo (hi - lo) s)
  else Panics "slice bounds out of range".

(** [strconv.FormatInt(n, 10)] *)
Definition FormatInt (n : Z) : string := NilZero.string_of_int (Z.to_int n).

(** [func (i Op) String() string] *)
Definition Op_String (i : Op) : result string :=
  if (i <? 0)%Z || (Z.of_nat (List.length _Op_index - 1) <=? i)%Z
  then Returns ("Op(" ++ FormatInt i ++ ")")%string
  else
    match index _Op_index i, index _Op_index (i + 1) with
    | Returns lo, Returns hi => slice _Op_name lo hi
    | Panics msg, _ => Panics msg
    | _, Panics msg => Panics msg
    end.

End OpString.

(* ------------------------------------------------------------------ *)
(** ** Visitor engine *)

(** *** Nodes as interface values *)

(** A struct value of one of the node types. *)
Inductive Struct : Type :=
| S_AST (n : AST)
| S_Block (n : Block)
| S_CaseDecl (n : CaseDecl)
| S_CaseSelect (n : CaseSelect)
| S_CaseStmt (n : CaseStmt)
| S_ClassDecl (n : ClassDecl)
| S_ClassMember (n : ClassMember)
| S_EnumCase (n : EnumCase)
| S_EnumDecl (n : EnumDecl)
| S_EnumMember (n : EnumMember)
| S_ForStmt (n : ForStmt)
| S_FuncDecl (n : FuncDecl)
| S_IfStmt (n : IfStmt)
| S_ImportDecl (n : ImportDecl)
| S_InitialiserDecl (n : InitialiserDecl)
| S_Parameters (n : Parameters)
| S_ReturnStmt (n : ReturnStmt)
| S_RootDecl (n : RootDecl)
| S_Stmt (n : Stmt)
| S_SwitchStmt (n : SwitchStmt)
| S_TypeDecl (n : TypeDecl)
| S_TypeParamDecl (n : TypeParamDecl)
| S_VarDecl (n : VarDecl)
| S_VarDeclAsgn (n : VarDeclAsgn)
| S_ExprNode (n : ExprNode).

(** The names of the node types, for the dynamic type of a nil pointer. *)
Inductive TypeName : Type :=
| T_AST | T_Block | T_CaseDecl | T_CaseSelect | T_CaseStmt | T_ClassDecl
| T_ClassMember | T_EnumCase | T_EnumDecl | T_EnumMember | T_ForStmt | T_FuncDecl
| T_IfStmt | T_ImportDecl | T_InitialiserDecl | T_Parameters | T_ReturnStmt
| T_RootDecl | T_Stmt | T_SwitchStmt | T_TypeDecl | T_TypeParamDecl | T_VarDecl
| T_VarDeclAsgn
| T_ExprNode (k : ExprKind).

(** A value of the interface [Node]: the nil interface, or a dynamic type
    with its value. The dynamic type is [T] ([by_value]) or [*T]; a [*T] is
    a pointer to a struct ([pointer_to]) or nil ([nil_pointer]). A pointer
    stored in a [Node], nil or not, is not the nil interface. *)
Inductive Node : Type :=
| nil_interface
| by_value (v : Struct)
| pointer_to (v : Struct)
| nil_pointer (t : TypeName).

(** Modelled from the spec: the kinds of expression node that the typed
    visitor takes by pointer; it takes the others by value. *)
Definition pointer_kind (k : ExprKind) : bool :=
  match k with
  | Expr | Literal | Reference | ReferenceNext | Unary => true
  | Call | ArrayLiteral | DictOrSetLiteral | DictOrSetEntryLiteral | Terminal => false
  end.

(** The receiver of [accept]: the node types of the source whose method has
    a value receiver. The others have a pointer receiver. *)
Definition value_receiver (t : TypeName) : bool :=
  match t with
  | T_TypeDecl | T_TypeParamDecl | T_Parameters | T_VarDeclAsgn | T_Stmt | T_Block
  | T_ForStmt | T_IfStmt | T_SwitchStmt | T_CaseStmt | T_CaseSelect | T_EnumCase
  | T_ReturnStmt => true
  | T_ExprNode k => negb (pointer_kind k)
  | _ => false
  end.

(** *** Errors and effects *)

(** An [error] value: the sentinel [TerminateRecursion] or any other error.
    The nil error is [None]. *)
Inductive error : Type :=
| TerminateRecursion
| Failure (msg : string).

Definition nil_receiver_panic : string := "value method called using nil pointer".
Definition nil_dereference_panic : string := "nil pointer dereference".

Section Effects.

(** The state a visitor reads and writes while it runs. *)
Context {St : Type}.

(** How a call ends: it returns, or it panics. *)
Inductive outcome (A : Type) : Type :=
| Done (a : A) (s : St)
| Panic (msg : string) (s : St).

Definition M (A : Type) : Type := St -> outcome A.

Definition ret {A : Type} (a : A) : M A := fun s => Done A a s.
Definition panic {A : Type} (msg : string) : M A := fun s => Panic A msg s.
Definition bind {A B : Type} (m : M A) (k : A -> M B) : M B :=
  fun s =>
    match m s with
    | Done _ a s' => k a s'
    | Panic _ msg s' => Panic B msg s'
    end.

(** [if err = m; err != nil { return err }] followed by [k]. *)
Definition and_then (m : M (option error)) (k : M (option error)) : M (option error) :=
  bind m (fun err => match err with Some e => ret (Some e) | None => k end).

(** [for _, x := range l { if err = f x; err != nil { return err } }; return nil] *)
Fixpoint each {A : Type} (f : A -> M (option error)) (l : list A) : M (option error) :=
  match l with
  | [] => ret None
  | x :: l' => and_then (f x) (each f l')
  end.

(** [Next] and [VisitorFunc]. *)
Definition Next : Type := option error -> M (option error).
Definition VisitorFunc : Type := Node -> Next -> M (option error).

End Effects.

Arguments outcome St A : clear implicits.
Arguments M St A : clear implicits.
Arguments Done {St A} a s.
Arguments Panic {St A} msg s.
Arguments Next St : clear implicits.
Arguments VisitorFunc St : clear implicits.

Declare Scope visit_scope.
Delimit Scope visit_scope with visit.
Notation "m ;; k" := (and_then m k) (at level 61, right associativity) : visit_scope.
Local Open Scope visit_scope.

(** *** The raw layer: [accept] and [VisitFunc] *)

Definition TypeName_of (v : Struct) : TypeName :=
  match v with
  | S_AST _ => T_AST | S_Block _ => T_Block | S_CaseDecl _ => T_CaseDecl
  | S_CaseSelect _ => T_CaseSelect | S_CaseStmt _ => T_CaseStmt
  | S_ClassDecl _ => T_ClassDecl | S_ClassMember _ => T_ClassMember
  | S_EnumCase _ => T_EnumCase | S_EnumDecl _ => T_EnumDecl
  | S_EnumMember _ => T_EnumMember | S_ForStmt _ => T_ForStmt
  | S_FuncDecl _ => T_FuncDecl | S_IfStmt _ => T_IfStmt
  | S_ImportDecl _ => T_ImportDecl | S_InitialiserDecl _ => T_InitialiserDecl
  | S_Parameters _ => T_Parameters | S_ReturnStmt _ => T_ReturnStmt
  | S_RootDecl _ => T_RootDecl | S_Stmt _ => T_Stmt | S_SwitchStmt _ => T_SwitchStmt
  | S_TypeDecl _ => T_TypeDecl | S_TypeParamDecl _ => T_TypeParamDecl
  | S_VarDecl _ => T_VarDecl | S_VarDeclAsgn _ => T_VarDeclAsgn
  | S_ExprNode x => T_ExprNode (ExprNode_kind x)
  end.

(** The node an expression node passes to the visitor. *)
Definition ExprNode_node (x : ExprNode) : Node :=
  if pointer_kind (ExprNode_kind x) then pointer_to (S_ExprNode x)
  else by_value (S_ExprNode x).

(** A pointer field seen as a [Node]. *)
Definition ptr {T : Type} (t : TypeName) (wrap : T -> Struct) (p : option T) : Node :=
  match p with
  | Some v => pointer_to (wrap v)
  | None => nil_pointer t
  end.

Section Accept.

Context {St : Type}.
Variable visitor : VisitorFunc St.

Local Abbreviation walk := (M St (option error)).

(** The continuation that every [accept] hands to the visitor:
    [func(err error) error { if err != nil { return err }; body }]. *)
Definition proceed (body : walk) : Next St :=
  fun err => match err with Some e => ret (Some e) | None => body end.

(** [VisitFunc(p, visitor)] for a pointer [p] to a node type whose [accept]
    has a value receiver: the pointer is not the nil interface, so [accept]
    is called through it, and a nil pointer cannot be dereferenced to give the
    receiver. *)
Definition VisitFunc_value_receiver {T : Type} (accept : T -> walk) (p : option T) : walk :=
  match p with
  | Some v => accept v
  | None => panic nil_receiver_panic
  end.

(** Modelled from the spec: [accept] on a node of the expression tree, which
    is not in the source. The visitor gets the node, and its continuation
    visits the children in order. *)
Fixpoint ExprNode_accept (x : ExprNode) : walk :=
  visitor (ExprNode_node x)
    (proceed (match x with mkExprNode _ _ _ children => each ExprNode_accept children end)).

(** Modelled from the spec: [VisitFunc(p, visitor)] for a pointer [p] into
    the expression tree; an absent child is silently skipped. *)
Definition VisitFunc_expr (p : option ExprNode) : walk :=
  match p with
  | Some x => ExprNode_accept x
  | None => ret None
  end.

Definition ImportDecl_accept (i : ImportDecl) : walk :=
  visitor (pointer_to (S_ImportDecl i)) (fun err => ret err).

Definition TypeParamDecl_accept (t : TypeParamDecl) : walk :=
  visitor (by_value (S_TypeParamDecl t))
    (proceed (each ExprNode_accept (TypeParamDecl_Constraints t))).

Definition TypeDecl_accept (t : TypeDecl) : walk :=
  visitor (by_value (S_TypeDecl t))
    (proceed (each TypeParamDecl_accept (TypeDecl_TypeParameter t))).

Definition CaseDecl_accept (c : CaseDecl) : walk :=
  visitor (pointer_to (S_CaseDecl c))
    (proceed (VisitFunc_value_receiver TypeDecl_accept (CaseDecl_Type c))).

Definition Parameters_accept (p : Parameters) : walk :=
  visitor (by_value (S_Parameters p))
    (proceed (VisitFunc_expr (Parameters_Type p))).

Definition VarDeclAsgn_accept (v : VarDeclAsgn) : walk :=
  visitor (by_value (S_VarDeclAsgn v))
    (proceed (VisitFunc_expr (VarDeclAsgn_Type v) ;;
              VisitFunc_expr (VarDeclAsgn_Default v))).

Definition VarDecl_accept (v : VarDecl) : walk :=
  visitor (pointer_to (S_VarDecl v))
    (proceed (each VarDeclAsgn_accept (VarDecl_Vars v))).

Definition EnumCase_accept (e : EnumCase) : walk :=
  visitor (by_value (S_EnumCase e)) (fun err => ret err).

Definition CaseSelect_accept (c : CaseSelect) : walk :=
  visitor (by_value (S_CaseSelect c))
    (proceed (VisitFunc_value_receiver EnumCase_accept (CaseSelect_EnumCase c) ;;
              VisitFunc_expr (CaseSelect_ExprCase c))).

Definition ReturnStmt_accept (r : ReturnStmt) : walk :=
  visitor (by_value (S_ReturnStmt r))
    (proceed (VisitFunc_expr (ReturnStmt_Value r))).

Fixpoint Stmt_accept (s : Stmt) : walk :=
  visitor (by_value (S_Stmt s))
    (proceed
       match s with
       | mkStmt _ Return If For Switch Block_ VarDecl_ FuncDecl_ ClassDecl_ EnumDecl_
                Expression =>
           match Return with Some r => ReturnStmt_accept r | None =>
           match If with Some i => IfStmt_accept i | None =>
           match For with Some f => ForStmt_accept f | None =>
           match Switch with Some sw => SwitchStmt_accept sw | None =>
           match Block_ with Some b => Block_accept b | None =>
           match VarDecl_ with Some v => VarDecl_accept v | None =>
           match FuncDecl_ with Some f => FuncDecl_accept f | None =>
           match ClassDecl_ with Some c => ClassDecl_accept c | None =>
           match EnumDecl_ with Some e => EnumDecl_accept e | None =>
           match Expression with Some x => ExprNode_accept x | None =>
           panic "??"
           end end end end end end end end end end
       end)

with Block_accept (b : Block) : walk :=
  visitor (by_value (S_Block b))
    (proceed match b with mkBlock _ Statements => each Stmt_accept Statements end)

with ForStmt_accept (i : ForStmt) : walk :=
  visitor (by_value (S_ForStmt i))
    (proceed
       match i with
       | mkForStmt _ Target Source Body =>
           VisitFunc_expr Target ;;
           VisitFunc_expr Source ;;
           VisitFunc_value_receiver Block_accept Body ;;
           ret None
       end)

with IfStmt_accept (i : IfStmt) : walk :=
  visitor (by_value (S_IfStmt i))
    (proceed
       match i with
       | mkIfStmt _ Condition Main Else =>
           VisitFunc_expr Condition ;;
           VisitFunc_value_receiver Block_accept Main ;;
           VisitFunc_value_receiver Block_accept Else ;;
           ret None
       end)

with SwitchStmt_accept (s : SwitchStmt) : walk :=
  visitor (by_value (S_SwitchStmt s))
    (proceed
       match s with
       | mkSwitchStmt _ Target Cases =>
           VisitFunc_expr Target ;;
           each CaseStmt_accept Cases
       end)

with CaseStmt_accept (c : CaseStmt) : walk :=
  visitor (by_value (S_CaseStmt c))
    (proceed
       match c with
       | mkCaseStmt _ _ Case Body =>
           VisitFunc_value_receiver CaseSelect_accept Case ;;
           each Stmt_accept Body
       end)

with FuncDecl_accept (f : FuncDecl) : walk :=
  visitor (pointer_to (S_FuncDecl f))
    (proceed
       match f with
       | mkFuncDecl _ _ Parameters_ _ Return Body =>
           each Parameters_accept Parameters_ ;;
           VisitFunc_expr Return ;;
           VisitFunc_value_receiver Block_accept Body
       end)

with InitialiserDecl_accept (i : InitialiserDecl) : walk :=
  visitor (pointer_to (S_InitialiserDecl i))
    (proceed
       match i with
       | mkInitialiserDecl _ Parameters_ _ Body =>
           each Parameters_accept Parameters_ ;;
           VisitFunc_value_receiver Block_accept Body
       end)

with ClassDecl_accept (c : ClassDecl) : walk :=
  visitor (pointer_to (S_ClassDecl c))
    (proceed
       match c with
       | mkClassDecl _ Type_ Members =>
           VisitFunc_value_receiver TypeDecl_accept Type_ ;;
           each ClassMember_accept Members
       end)

(** The continuation visits [c.Decl()]: the switch of [ClassMember.Decl] is
    written out here. *)
with ClassMember_accept (c : ClassMember) : walk :=
  visitor (pointer_to (S_ClassMember c))
    (proceed
       match c with
       | mkClassMember _ _ VarDecl_ FuncDecl_ ClassDecl_ EnumDecl_ InitialiserDecl_ =>
           match VarDecl_ with Some v => VarDecl_accept v | None =>
           match FuncDecl_ with Some f => FuncDecl_accept f | None =>
           match ClassDecl_ with Some c' => ClassDecl_accept c' | None =>
           match EnumDecl_ with Some e => EnumDecl_accept e | None =>
           match InitialiserDecl_ with Some i => InitialiserDecl_accept i | None =>
           panic "??"
           end end end end end
       end)

with EnumDecl_accept (e : EnumDecl) : walk :=
  visitor (pointer_to (S_EnumDecl e))
    (proceed
       match e with
       | mkEnumDecl _ Type_ Members =>
           VisitFunc_value_receiver TypeDecl_accept Type_ ;;
           each EnumMember_accept Members
       end)

(** The continuation visits [e.Decl()]: the switch of [EnumMember.Decl] is
    written out here, without a case for [EnumDecl]. *)
with EnumMember_accept (e : EnumMember) : walk :=
  visitor (pointer_to (S_EnumMember e))
    (proceed
       match e with
       | mkEnumMember _ _ CaseDecl_ VarDecl_ FuncDecl_ ClassDecl_ _ InitialiserDecl_ =>
           match CaseDecl_ with Some c => CaseDecl_accept c | None =>
           match VarDecl_ with Some v => VarDecl_accept v | None =>
           match FuncDecl_ with Some f => FuncDecl_accept f | None =>
           match ClassDecl_ with Some c => ClassDecl_accept c | None =>
           match InitialiserDecl_ with Some i => InitialiserDecl_accept i | None =>
           panic "??"
           end end end end end
       end).

(** [VisitFunc(d, visitor)] for a [Decl] that a resolver returned. *)
Definition Decl_accept (d : Decl) : walk :=
  match d with
  | Decl_Class c => ClassDecl_accept c
  | Decl_Import i => ImportDecl_accept i
  | Decl_Enum e => EnumDecl_accept e
  | Decl_Var v => VarDecl_accept v
  | Decl_Func f => FuncDecl_accept f
  | Decl_Case c => CaseDecl_accept c
  | Decl_Initialiser i => InitialiserDecl_accept i
  end.

Definition visit_resolved (r : result Decl) : walk :=
  match r with
  | Returns d => Decl_accept d
  | Panics msg => panic msg
  end.

Definition RootDecl_accept (r : RootDecl) : walk :=
  visitor (pointer_to (S_RootDecl r)) (proceed (visit_resolved (RootDecl_Decl r))).

Definition AST_accept (a : AST) : walk :=
  visitor (pointer_to (S_AST a)) (proceed (each RootDecl_accept (AST_Declarations a))).

(** [accept] through a pointer or on a value, by the type of the struct. *)
Definition Struct_accept (v : Struct) : walk :=
  match v with
  | S_AST n => AST_accept n
  | S_Block n => Block_accept n
  | S_CaseDecl n => CaseDecl_accept n
  | S_CaseSelect n => CaseSelect_accept n
  | S_CaseStmt n => CaseStmt_accept n
  | S_ClassDecl n => ClassDecl_accept n
  | S_ClassMember n => ClassMember_accept n
  | S_EnumCase n => EnumCase_accept n
  | S_EnumDecl n => EnumDecl_accept n
  | S_EnumMember n => EnumMember_accept n
  | S_ForStmt n => ForStmt_accept n
  | S_FuncDecl n => FuncDecl_accept n
  | S_IfStmt n => IfStmt_accept n
  | S_ImportDecl n => ImportDecl_accept n
  | S_InitialiserDecl n => InitialiserDecl_accept n
  | S_Parameters n => Parameters_accept n
  | S_ReturnStmt n => ReturnStmt_accept n
  | S_RootDecl n => RootDecl_accept n
  | S_Stmt n => Stmt_accept n
  | S_SwitchStmt n => SwitchStmt_accept n
  | S_TypeDecl n => TypeDecl_accept n
  | S_TypeParamDecl n => TypeParamDecl_accept n
  | S_VarDecl n => VarDecl_accept n
  | S_VarDeclAsgn n => VarDeclAsgn_accept n
  | S_ExprNode n => ExprNode_accept n
  end.

(** [accept] with a pointer receiver that is nil: the visitor gets the nil
    pointer; the continuation of [ImportDecl.accept] reads no field, every
    other one dereferences its receiver. *)
Definition nil_receiver_accept (t : TypeName) : walk :=
  visitor (nil_pointer t)
    (match t with
     | T_ImportDecl => fun err => ret err
     | _ => proceed (panic nil_dereference_panic)
     end).

(** [node.accept(visitor)] on an interface value. A struct with a pointer
    receiver does not implement [Node] by value. *)
Definition accept (node : Node) : walk :=
  match node with
  | nil_interface => panic nil_dereference_panic
  | by_value v =>
      if value_receiver (TypeName_of v) then Struct_accept v else panic "not a Node"
  | pointer_to v => Struct_accept v
  | nil_pointer (T_ExprNode _) => ret None
  | nil_pointer t =>
      if value_receiver t then panic nil_receiver_panic else nil_receiver_accept t
  end.

(** [VisitFunc]: only the nil interface is skipped. *)
Definition VisitFunc_ (node : Node) : walk :=
  match node with
  | nil_interface => ret None
  | _ => accept node
  end.

End Accept.

Definition VisitFunc {St : Type} (node : Node) (visit : VisitorFunc St) : M St (option error) :=
  VisitFunc_ visit node.

(** *** The typed layer: [Visitor] and [Visit] *)

(** The interface [Visitor]: one method per node type. A method gets the
    node (for a pointer type, the struct it points to: [Visit] filters nil
    pointers out before it calls one) and may use the visitor's state. *)
Record Visitor (St : Type) : Type := mkVisitor {
  VisitAST : AST -> M St (option error);
  VisitArrayLiteral : ExprNode -> M St (option error);
  VisitBlock : Block -> M St (option error);
  VisitCall : ExprNode -> M St (option error);
  VisitCaseDecl : CaseDecl -> M St (option error);
  VisitCaseSelect : CaseSelect -> M St (option error);
  VisitCaseStmt : CaseStmt -> M St (option error);
  VisitClassDecl : ClassDecl -> M St (option error);
  VisitClassMember : ClassMember -> M St (option error);
  VisitDictOrSetEntryLiteral : ExprNode -> M St (option error);
  VisitDictOrSetLiteral : ExprNode -> M St (option error);
  VisitEnumCase : EnumCase -> M St (option error);
  VisitEnumDecl : EnumDecl -> M St (option error);
  VisitEnumMember : EnumMember -> M St (option error);
  VisitExpr : ExprNode -> M St (option error);
  VisitForStmt : ForStmt -> M St (option error);
  VisitFuncDecl : FuncDecl -> M St (option error);
  VisitIfStmt : IfStmt -> M St (option error);
  VisitImportDecl : ImportDecl -> M St (option error);
  VisitInitialiserDecl : InitialiserDecl -> M St (option error);
  VisitLiteral : ExprNode -> M St (option error);
  VisitParameters : Parameters -> M St (option error);
  VisitReference : ExprNode -> M St (option error);
  VisitReferenceNext : ExprNode -> M St (option error);
  VisitReturnStmt : ReturnStmt -> M St (option error);
  VisitRootDecl : RootDecl -> M St (option error);
  VisitStmt : Stmt -> M St (option error);
  VisitSwitchStmt : SwitchStmt -> M St (option error);
  VisitTerminal : ExprNode -> M St (option error);
  VisitTypeDecl : TypeDecl -> M St (option error);
  VisitTypeParamDecl : TypeParamDecl -> M St (option error);
  VisitUnary : ExprNode -> M St (option error);
  VisitVarDecl : VarDecl -> M St (option error);
  VisitVarDeclAsgn : VarDeclAsgn -> M St (option error)
}.

Arguments mkVisitor {St}.
Arguments VisitAST {St}.
Arguments VisitArrayLiteral {St}.
Arguments VisitBlock {St}.
Arguments VisitCall {St}.
Arguments VisitCaseDecl {St}.
Arguments VisitCaseSelect {St}.
Arguments VisitCaseStmt {St}.
Arguments VisitClassDecl {St}.
Arguments VisitClassMember {St}.
Arguments VisitDictOrSetEntryLiteral {St}.
Arguments VisitDictOrSetLiteral {St}.
Arguments VisitEnumCase {St}.
Arguments VisitEnumDecl {St}.
Arguments VisitEnumMember {St}.
Arguments VisitExpr {St}.
Arguments VisitForStmt {St}.
Arguments VisitFuncDecl {St}.
Arguments VisitIfStmt {St}.
Arguments VisitImportDecl {St}.
Arguments VisitInitialiserDecl {St}.
Arguments VisitLiteral {St}.
Arguments VisitParameters {St}.
Arguments VisitReference {St}.
Arguments VisitReferenceNext {St}.
Arguments VisitReturnStmt {St}.
Arguments VisitRootDecl {St}.
Arguments VisitStmt {St}.
Arguments VisitSwitchStmt {St}.
Arguments VisitTerminal {St}.
Arguments VisitTypeDecl {St}.
Arguments VisitTypeParamDecl {St}.
Arguments VisitUnary {St}.
Arguments VisitVarDecl {St}.
Arguments VisitVarDeclAsgn {St}.

(** [DefaultVisitor]: every method returns nil. *)
Definition DefaultVisitor (St : Type) : Visitor St :=
  let nop (T : Type) : T -> M St (option error) := fun _ => ret None in
  mkVisitor (nop _) (nop _) (nop _) (nop _) (nop _) (nop _) (nop _) (nop _) (nop _)
    (nop _) (nop _) (nop _) (nop _) (nop _) (nop _) (nop _) (nop _) (nop _) (nop _)
    (nop _) (nop _) (nop _) (nop _) (nop _) (nop _) (nop _) (nop _) (nop _) (nop _)
    (nop _) (nop _) (nop _) (nop _) (nop _).

(** [node == nil], or [node] holds a nil pointer. *)
Definition is_nil (node : Node) : bool :=
  match node with
  | nil_interface | nil_pointer _ => true
  | by_value _ | pointer_to _ => false
  end.

(** The type switch of [Visit]: the method call of the case that the dynamic
    type of [node] selects, or [None] when the switch falls to [default]. *)
Definition type_switch {St : Type} (visitor : Visitor St) (node : Node)
    : option (M St (option error)) :=
  match node with
  | pointer_to (S_AST n) => Some (VisitAST visitor n)
  | by_value (S_Block n) => Some (VisitBlock visitor n)
  | pointer_to (S_CaseDecl n) => Some (VisitCaseDecl visitor n)
  | by_value (S_CaseSelect n) => Some (VisitCaseSelect visitor n)
  | by_value (S_CaseStmt n) => Some (VisitCaseStmt visitor n)
  | pointer_to (S_ClassDecl n) => Some (VisitClassDecl visitor n)
  | pointer_to (S_ClassMember n) => Some (VisitClassMember visitor n)
  | by_value (S_EnumCase n) => Some (VisitEnumCase visitor n)
  | pointer_to (S_EnumDecl n) => Some (VisitEnumDecl visitor n)
  | pointer_to (S_EnumMember n) => Some (VisitEnumMember visitor n)
  | by_value (S_ForStmt n) => Some (VisitForStmt visitor n)
  | pointer_to (S_FuncDecl n) => Some (VisitFuncDecl visitor n)
  | by_value (S_IfStmt n) => Some (VisitIfStmt visitor n)
  | pointer_to (S_ImportDecl n) => Some (VisitImportDecl visitor n)
  | pointer_to (S_InitialiserDecl n) => Some (VisitInitialiserDecl visitor n)
  | by_value (S_Parameters n) => Some (VisitParameters visitor n)
  | pointer_to (S_RootDecl n) => Some (VisitRootDecl visitor n)
  | by_value (S_SwitchStmt n) => Some (VisitSwitchStmt visitor n)
  | by_value (S_TypeDecl n) => Some (VisitTypeDecl visitor n)
  | by_value (S_VarDeclAsgn n) => Some (VisitVarDeclAsgn visitor n)
  | by_value (S_ReturnStmt n) => Some (VisitReturnStmt visitor n)
  | by_value (S_Stmt n) => Some (VisitStmt visitor n)
  | by_value (S_TypeParamDecl n) => Some (VisitTypeParamDecl visitor n)
  | pointer_to (S_VarDecl n) => Some (VisitVarDecl visitor n)
  | pointer_to (S_ExprNode n) =>
      match ExprNode_kind n with
      | Expr => Some (VisitExpr visitor n)
      | Literal => Some (VisitLiteral visitor n)
      | Reference => Some (VisitReference visitor n)
      | ReferenceNext => Some (VisitReferenceNext visitor n)
      | Unary => Some (VisitUnary visitor n)
      | _ => None
      end
  | by_value (S_ExprNode n) =>
      match ExprNode_kind n with
      | ArrayLiteral => Some (VisitArrayLiteral visitor n)
      | Call => Some (VisitCall visitor n)
      | DictOrSetEntryLiteral => Some (VisitDictOrSetEntryLiteral visitor n)
      | DictOrSetLiteral => Some (VisitDictOrSetLiteral visitor n)
      | Terminal => Some (VisitTerminal visitor n)
      | _ => None
      end
  | _ => None
  end.

(** [maybeNext]: the sentinel ends the visit of this node with nil, anything
    else goes to [next]. *)
Definition maybeNext {St : Type} (next : Next St) : Next St :=
  fun err =>
    match err with
    | Some TerminateRecursion => ret None
    | _ => next err
    end.

(** The visitor function that [Visit] hands to [VisitFunc]. *)
Definition typed_visit {St : Type} (visitor : Visitor St) : VisitorFunc St :=
  fun node next =>
    if is_nil node then ret None
    else
      match type_switch visitor node with
      | Some call => bind call (maybeNext next)
      | None => panic "??"
      end.

Definition Visit {St : Type} (node : Node) (visitor : Visitor St) : M St (option error) :=
  VisitFunc node (typed_visit visitor).

(* ------------------------------------------------------------------ *)
(** ** Grammar *)

Module Grammar.

Import Lexer.

(** The result of a rule on a token stream: the value and the tokens that
    remain, or a failure at the tokens where it was found, or the end of
    the fuel that bounds the nesting of rules. *)
Inductive presult (A : Type) : Type :=
| Ok (a : A) (rest : list Token)
| Fail (at_ : list Token)
| OutOfFuel.
Arguments Ok {A} a rest.
Arguments Fail {A} at_.
Arguments OutOfFuel {A}.

Definition P (A : Type) : Type := list Token -> presult A.

Definition is_ok {A : Type} (r : presult A) : bool :=
  match r with Ok _ _ => true | _ => false end.
Definition is_fail {A : Type} (r : presult A) : bool :=
  match r with Fail _ => true | _ => false end.

(** *** The primitives: sequence, ordered choice, repetition *)

Definition pret {A : Type} (a : A) : P A := fun ts => Ok a ts.

(** Sequence: both rules must match, in order. *)
Definition pbind {A B : Type} (p : P A) (k : A -> P B) : P B :=
  fun ts =>
    match p ts with
    | Ok a rest => k a rest
    | Fail d => Fail d
    | OutOfFuel => OutOfFuel
    end.

(** The failure that got further into the input. *)
Definition deepest (d1 d2 : list Token) : list Token :=
  if Nat.ltb (List.length d2) (List.length d1) then d2 else d1.

(** Ordered choice: the alternatives are tried in order from the same
    point; the first success wins. *)
Definition palt {A : Type} (p q : P A) : P A :=
  fun ts =>
    match p ts with
    | Ok a rest => Ok a rest
    | OutOfFuel => OutOfFuel
    | Fail d1 =>
        match q ts with
        | Ok a rest => Ok a rest
        | OutOfFuel => OutOfFuel
        | Fail d2 => Fail (deepest d1 d2)
        end
    end.

(** An optional group: a failure inside it rewinds to its start. *)
Definition opt {A : Type} (p : P A) : P (option A) :=
  fun ts =>
    match p ts with
    | Ok a rest => Ok (Some a) rest
    | Fail _ => Ok None ts
    | OutOfFuel => OutOfFuel
    end.

(** Greedy repetition, at most [n] times: it ends at the first iteration
    that fails (rewinding to the start of that iteration) or consumes
    nothing. *)
Fixpoint many_loop {A : Type} (p : P A) (n : nat) (ts : list Token) : presult (list A) :=
  match n with
  | 0 => Ok [] ts
  | S n' =>
      match p ts with
      | Ok a rest =>
          if Nat.ltb (List.length rest) (List.length ts)
          then match many_loop p n' rest with
               | Ok l rest' => Ok (a :: l) rest'
               | Fail d => Fail d
               | OutOfFuel => OutOfFuel
               end
          else Ok [] ts
      | Fail _ => Ok [] ts
      | OutOfFuel => OutOfFuel
      end
  end.

(** Zero or more: every iteration consumes a token, so the length of the
    stream bounds the iterations. *)
Definition many {A : Type} (p : P A) : P (list A) :=
  fun ts => many_loop p (List.length ts) ts.

Declare Scope parse_scope.
Delimit Scope parse_scope with parse.
Notation "x <- p ;; k" := (pbind p (fun x => k))
  (at level 61, p at next level, right associativity) : parse_scope.
Notation "p ;; k" := (pbind p (fun _ => k))
  (at level 61, right associativity) : parse_scope.
Local Open Scope parse_scope.

(** A quoted literal of the grammar matches the next token by its text. *)
Definition lit (v : string) : P string :=
  fun ts =>
    match ts with
    | t :: rest => if String.eqb (Value t) v then Ok (Value t) rest else Fail ts
    | [] => Fail ts
    end.

(** [@Kind] matches the next token by its kind and captures its text. *)
Definition tok (k : TokenKind) : P string :=
  fun ts =>
    match ts with
    | t :: rest => if TokenKind_eqb (Type_ t) k then Ok (Value t) rest else Fail ts
    | [] => Fail ts
    end.

(** A captured optional literal as a [bool] field. *)
Definition flag (v : string) : P bool :=
  o <- opt (lit v) ;;
  pret (match o with Some _ => true | None => false end).

Definition flatten {A : Type} (o : option (list A)) : list A :=
  match o with Some l => l | None => [] end.

(** [( @@ ( sep @@ )* )?] *)
Definition separated {A : Type} (sep : string) (p : P A) : P (list A) :=
  o <- opt (x <- p ;; xs <- many (lit sep ;; p) ;; pret (x :: xs)) ;;
  pret (flatten o).

(** [( @@ ( ";" @@ )* ";"? )?]: the body of a class, an enum, a block or a
    case. *)
Definition terminated {A : Type} (p : P A) : P (list A) :=
  o <- opt (x <- p ;; xs <- many (lit ";" ;; p) ;; opt (lit ";") ;; pret (x :: xs)) ;;
  pret (flatten o).

Section Rules.

(** The rules of the expression tree ([Expr] and [Reference]) are not in the
    source: they are parameters of the grammar. *)
Variable parse_Expr : P ExprNode.
Variable parse_Reference : P ExprNode.

(** The position of the end of the input. *)
Variable eof : Position.

(** The position a node gets: that of the next token. *)
Definition next_position (ts : list Token) : Position :=
  match ts with
  | t :: _ => Pos t
  | [] => eof
  end.

Definition here : P Position := fun ts => Ok (next_position ts) ts.

Definition parse_ImportDecl : P ImportDecl :=
  pos <- here ;;
  lit "import" ;;
  alias <- opt (tok Ident) ;;
  import <- tok String_ ;;
  pret (mkImportDecl pos (match alias with Some a => a | None => "" end) import).

Definition parse_TypeParamDecl : P TypeParamDecl :=
  pos <- here ;;
  name <- tok Ident ;;
  constraints <- opt (lit ":" ;;
                      c <- parse_Reference ;;
                      cs <- many (lit "," ;; parse_Reference) ;;
                      pret (c :: cs)) ;;
  pret (mkTypeParamDecl pos name (flatten constraints)).

Definition parse_TypeDecl : P TypeDecl :=
  pos <- here ;;
  type <- tok Ident ;;
  params <- opt (lit "<" ;;
                 p <- parse_TypeParamDecl ;;
                 ps <- many (lit "," ;; parse_TypeParamDecl) ;;
                 opt (lit ",") ;;
                 lit ">" ;;
                 pret (p :: ps)) ;;
  pret (mkTypeDecl pos type (flatten params)).

Definition parse_CaseDecl : P CaseDecl :=
  pos <- here ;;
  lit "case" ;;
  name <- tok Ident ;;
  type <- opt (lit "(" ;; t <- parse_TypeDecl ;; lit ")" ;; pret t) ;;
  pret (mkCaseDecl pos name type).

Definition parse_Parameters : P Parameters :=
  pos <- here ;;
  name <- tok Ident ;;
  names <- many (lit "," ;; tok Ident) ;;
  lit ":" ;;
  type <- parse_Reference ;;
  pret (mkParameters pos (name :: names) (Some type)).

Definition parse_VarDeclAsgn : P VarDeclAsgn :=
  pos <- here ;;
  name <- tok Ident ;;
  type <- opt (lit ":" ;; parse_Reference) ;;
  default <- opt (lit "=" ;; parse_Expr) ;;
  pret (mkVarDeclAsgn pos name type default).

Definition parse_VarDecl : P VarDecl :=
  pos <- here ;;
  lit "let" ;;
  v <- parse_VarDeclAsgn ;;
  vs <- many (lit "," ;; parse_VarDeclAsgn) ;;
  pret (mkVarDecl pos (v :: vs)).

Definition parse_EnumCase : P EnumCase :=
  pos <- here ;;
  lit "." ;;
  case <- tok Ident ;;
  var <- opt (lit "(" ;; v <- tok Ident ;; lit ")" ;; pret v) ;;
  pret (mkEnumCase pos case (match var with Some v => v | None => "" end)).

Definition parse_CaseSelect : P CaseSelect :=
  pos <- here ;;
  palt (e <- parse_EnumCase ;; pret (mkCaseSelect pos (Some e) None))
       (x <- parse_Expr ;; pret (mkCaseSelect pos None (Some x))).

Definition parse_ReturnStmt : P ReturnStmt :=
  pos <- here ;;
  lit "return" ;;
  value <- opt parse_Expr ;;
  pret (mkReturnStmt pos value).

(** [( @@ ( "," @@ )* )? ","? ")"]: the parameter list after its ["("]. *)
Definition parse_parameter_list : P (list Parameters) :=
  params <- separated "," parse_Parameters ;;
  opt (lit ",") ;;
  lit ")" ;;
  pret params.

(** The rules that refer to each other, each over the rules it mentions. *)

Definition Stmt_rule (parse_IfStmt : P IfStmt) (parse_ForStmt : P ForStmt)
    (parse_SwitchStmt : P SwitchStmt) (parse_Block : P Block)
    (parse_FuncDecl : P FuncDecl) (parse_ClassDecl : P ClassDecl)
    (parse_EnumDecl : P EnumDecl) : P Stmt :=
  pos <- here ;;
  palt (r <- parse_ReturnStmt ;;
        pret (mkStmt pos (Some r) None None None None None None None None None))
 (palt (i <- parse_IfStmt ;;
        pret (mkStmt pos None (Some i) None None None None None None None None))
 (palt (f <- parse_ForStmt ;;
        pret (mkStmt pos None None (Some f) None None None None None None None))
 (palt (s <- parse_SwitchStmt ;;
        pret (mkStmt pos None None None (Some s) None None None None None None))
 (palt (b <- parse_Block ;;
        pret (mkStmt pos None None None None (Some b) None None None None None))
 (palt (v <- parse_VarDecl ;;
        pret (mkStmt pos None None None None None (Some v) None None None None))
 (palt (f <- parse_FuncDecl ;;
        pret (mkStmt pos None None None None None None (Some f) None None None))
 (palt (c <- parse_ClassDecl ;;
        pret (mkStmt pos None None None None None None None (Some c) None None))
 (palt (e <- parse_EnumDecl ;;
        pret (mkStmt pos None None None None None None None None (Some e) None))
       (* Must be last alternative. *)
       (x <- parse_Expr ;;
        pret (mkStmt pos None None None None None None None None None (Some x))
 ))))))))).

Definition Block_rule (parse_Stmt : P Stmt) : P Block :=
  pos <- here ;;
  lit "{" ;;
  statements <- terminated parse_Stmt ;;
  lit "}" ;;
  pret (mkBlock pos statements).

Definition ForStmt_rule (parse_Block : P Block) : P ForStmt :=
  pos <- here ;;
  lit "for" ;;
  target <- parse_Reference ;;
  lit "in" ;;
  source <- parse_Expr ;;
  body <- parse_Block ;;
  pret (mkForStmt pos (Some target) (Some source) (Some body)).

Definition IfStmt_rule (parse_Block : P Block) : P IfStmt :=
  pos <- here ;;
  lit "if" ;;
  condition <- parse_Expr ;;
  main <- parse_Block ;;
  else_ <- opt (lit "else" ;; parse_Block) ;;
  pret (mkIfStmt pos (Some condition) (Some main) else_).

Definition SwitchStmt_rule (parse_CaseStmt : P CaseStmt) : P SwitchStmt :=
  pos <- here ;;
  lit "switch" ;;
  target <- parse_Expr ;;
  lit "{" ;;
  cases <- many parse_CaseStmt ;;
  lit "}" ;;
  pret (mkSwitchStmt pos (Some target) cases).

Definition CaseStmt_rule (parse_Stmt : P Stmt) : P CaseStmt :=
  pos <- here ;;
  sel <- palt (lit "default" ;; pret (true, None))
              (lit "case" ;; c <- parse_CaseSelect ;; pret (false, Some c)) ;;
  lit ":" ;;
  body <- terminated parse_Stmt ;;
  pret (mkCaseStmt pos (fst sel) (snd sel) body).

Definition FuncDecl_rule (parse_Block : P Block) : P FuncDecl :=
  pos <- here ;;
  lit "fn" ;;
  name <- tok Ident ;;
  lit "(" ;;
  params <- parse_parameter_list ;;
  throws <- flag "throws" ;;
  return_ <- opt (lit ":" ;; parse_Reference) ;;
  body <- parse_Block ;;
  pret (mkFuncDecl pos name params throws return_ (Some body)).

Definition InitialiserDecl_rule (parse_Block : P Block) : P InitialiserDecl :=
  pos <- here ;;
  lit "init" ;;
  lit "(" ;;
  params <- parse_parameter_list ;;
  throws <- flag "throws" ;;
  body <- parse_Block ;;
  pret (mkInitialiserDecl pos params throws (Some body)).

Definition ClassDecl_rule (parse_ClassMember : P ClassMember) : P ClassDecl :=
  pos <- here ;;
  lit "class" ;;
  type <- parse_TypeDecl ;;
  lit "{" ;;
  members <- terminated parse_ClassMember ;;
  lit "}" ;;
  pret (mkClassDecl pos (Some type) members).

Definition ClassMember_rule (parse_FuncDecl : P FuncDecl) (parse_ClassDecl : P ClassDecl)
    (parse_EnumDecl : P EnumDecl) (parse_InitialiserDecl : P InitialiserDecl)
    : P ClassMember :=
  pos <- here ;;
  modifiers <- many (tok Modifier) ;;
  palt (v <- parse_VarDecl ;;
        pret (mkClassMember pos modifiers (Some v) None None None None))
 (palt (f <- parse_FuncDecl ;;
        pret (mkClassMember pos modifiers None (Some f) None None None))
 (palt (c <- parse_ClassDecl ;;
        pret (mkClassMember pos modifiers None None (Some c) None None))
 (palt (e <- parse_EnumDecl ;;
        pret (mkClassMember pos modifiers None None None (Some e) None))
       (i <- parse_InitialiserDecl ;;
        pret (mkClassMember pos modifiers None None None None (Some i)))))).

Definition EnumDecl_rule (parse_EnumMember : P EnumMember) : P EnumDecl :=
  pos <- here ;;
  lit "enum" ;;
  type <- parse_TypeDecl ;;
  lit "{" ;;
  members <- terminated parse_EnumMember ;;
  lit "}" ;;
  pret (mkEnumDecl pos (Some type) members).

Definition EnumMember_rule (parse_FuncDecl : P FuncDecl) (parse_ClassDecl : P ClassDecl)
    (parse_EnumDecl : P EnumDecl) (parse_InitialiserDecl : P InitialiserDecl)
    : P EnumMember :=
  pos <- here ;;
  modifiers <- many (tok Modifier) ;;
  palt (c <- parse_CaseDecl ;;
        pret (mkEnumMember pos modifiers (Some c) None None None None None))
 (palt (v <- parse_VarDecl ;;
        pret (mkEnumMember pos modifiers None (Some v) None None None None))
 (palt (f <- parse_FuncDecl ;;
        pret (mkEnumMember pos modifiers None None (Some f) None None None))
 (palt (c <- parse_ClassDecl ;;
        pret (mkEnumMember pos modifiers None None None (Some c) None None))
 (palt (e <- parse_EnumDecl ;;
        pret (mkEnumMember pos modifiers None None None None (Some e) None))
       (i <- parse_InitialiserDecl ;;
        pret (mkEnumMember pos modifiers None None None None None (Some i))))))).

(** The recursion of the rules: a rule that another one calls gets one unit
    of [fuel] less. *)
Fixpoint parse_Stmt (fuel : nat) (ts : list Token) {struct fuel} : presult Stmt :=
  match fuel with
  | 0 => OutOfFuel
  | S fuel =>
      Stmt_rule (parse_IfStmt fuel) (parse_ForStmt fuel) (parse_SwitchStmt fuel)
        (parse_Block fuel) (parse_FuncDecl fuel) (parse_ClassDecl fuel)
        (parse_EnumDecl fuel) ts
  end
with parse_Block (fuel : nat) (ts : list Token) {struct fuel} : presult Block :=
  match fuel with
  | 0 => OutOfFuel
  | S fuel => Block_rule (parse_Stmt fuel) ts
  end
with parse_ForStmt (fuel : nat) (ts : list Token) {struct fuel} : presult ForStmt :=
  match fuel with
  | 0 => OutOfFuel
  | S fuel => ForStmt_rule (parse_Block fuel) ts
  end
with parse_IfStmt (fuel : nat) (ts : list Token) {struct fuel} : presult IfStmt :=
  match fuel with
  | 0 => OutOfFuel
  | S fuel => IfStmt_rule (parse_Block fuel) ts
  end
with parse_SwitchStmt (fuel : nat) (ts : list Token) {struct fuel} : presult SwitchStmt :=
  match fuel with
  | 0 => OutOfFuel
  | S fuel => SwitchStmt_rule (parse_CaseStmt fuel) ts
  end
with parse_CaseStmt (fuel : nat) (ts : list Token) {struct fuel} : presult CaseStmt :=
  match fuel with
  | 0 => OutOfFuel
  | S fuel => CaseStmt_rule (parse_Stmt fuel) ts
  end
with parse_FuncDecl (fuel : nat) (ts : list Token) {struct fuel} : presult FuncDecl :=
  match fuel with
  | 0 => OutOfFuel
  | S fuel => FuncDecl_rule (parse_Block fuel) ts
  end
with parse_InitialiserDecl (fuel : nat) (ts : list Token) {struct fuel} : presult InitialiserDecl :=
  match fuel with
  | 0 => OutOfFuel
  | S fuel => InitialiserDecl_rule (parse_Block fuel) ts
  end
with parse_ClassDecl (fuel : nat) (ts : list Token) {struct fuel} : presult ClassDecl :=
  match fuel with
  | 0 => OutOfFuel
  | S fuel => ClassDecl_rule (parse_ClassMember fuel) ts
  end
with parse_ClassMember (fuel : nat) (ts : list Token) {struct fuel} : presult ClassMember :=
  match fuel with
  | 0 => OutOfFuel
  | S fuel =>
      ClassMember_rule (parse_FuncDecl fuel) (parse_ClassDecl fuel) (parse_EnumDecl fuel)
        (parse_InitialiserDecl fuel) ts
  end
with parse_EnumDecl (fuel : nat) (ts : list Token) {struct fuel} : presult EnumDecl :=
  match fuel with
  | 0 => OutOfFuel
  | S fuel => EnumDecl_rule (parse_EnumMember fuel) ts
  end
with parse_EnumMember (fuel : nat) (ts : list Token) {struct fuel} : presult EnumMember :=
  match fuel with
  | 0 => OutOfFuel
  | S fuel =>
      EnumMember_rule (parse_FuncDecl fuel) (parse_ClassDecl fuel) (parse_EnumDecl fuel)
        (parse_InitialiserDecl fuel) ts
  end.

(** The arms of [RootDecl], after its modifiers: each declaration with its
    terminator, optional for all but [Var]. *)
Definition parse_RootDecl_arms (fuel : nat) (pos : Position) (modifiers : Modifiers)
    : P RootDecl :=
  palt (c <- parse_ClassDecl fuel ;; opt (lit ";") ;;
        pret (mkRootDecl pos modifiers (Some c) None None None None))
 (palt (i <- parse_ImportDecl ;; opt (lit ";") ;;
        pret (mkRootDecl pos modifiers None (Some i) None None None))
 (palt (e <- parse_EnumDecl fuel ;; opt (lit ";") ;;
        pret (mkRootDecl pos modifiers None None (Some e) None None))
 (palt (v <- parse_VarDecl ;; lit ";" ;;
        pret (mkRootDecl pos modifiers None None None (Some v) None))
       (f <- parse_FuncDecl fuel ;; opt (lit ";") ;;
        pret (mkRootDecl pos modifiers None None None None (Some f)))))).

Definition parse_RootDecl (fuel : nat) : P RootDecl :=
  pos <- here ;;
  modifiers <- many (tok Modifier) ;;
  parse_RootDecl_arms fuel pos modifiers.

Definition parse_AST (fuel : nat) : P AST :=
  pos <- here ;;
  declarations <- many (parse_RootDecl fuel) ;;
  pret (mkAST pos declarations).

End Rules.

End Grammar.

(* ------------------------------------------------------------------ *)
(** ** Entry points *)

Section EntryPoints.

Import Lexer Grammar.

(** The rules of the expression tree, which are not in the source. *)
Variable parse_Expr : P ExprNode.
Variable parse_Reference : P ExprNode.

(** [participle.Unquote()]: the library function that turns the text of a
    [String] token into its value, or rejects it. *)
Variable Unquote : string -> option string.

Inductive Error : Type :=
| ReadError (msg : string)
| LexicalError (pos : Position) (c : ascii)
| UnquoteError (pos : Position) (text : string)
| ParseError (unexpected : list Token)
| NestingTooDeep.

Fixpoint unquote_tokens (ts : list Token) : Error + list Token :=
  match ts with
  | [] => inr []
  | t :: ts' =>
      match Type_ t with
      | String_ =>
          match Unquote (Value t) with
          | None => inl (UnquoteError (Pos t) (Value t))
          | Some v =>
              match unquote_tokens ts' with
              | inl e => inl e
              | inr l => inr (mkToken String_ v (Pos t) :: l)
              end
          end
      | _ =>
          match unquote_tokens ts' with
          | inl e => inl e
          | inr l => inr (t :: l)
          end
      end
  end.

(** The nesting of rules that a stream of tokens can need: a rule that
    calls another one has consumed a token first, except a statement that
    is a block. *)
Definition nesting_bound (ts : list Token) : nat := 2 * List.length ts + 4.

(** [parser.ParseString(s, ast)]: the tokens of [s] are parsed as the root
    rule up to the end of the input, and the result is stored in [*ast].
    Declarations that were parsed before a syntax error are stored too. *)
Definition parser_ParseString (s : string) (ast : AST) : AST * option Error :=
  match lex s with
  | LexError pos c => (ast, Some (LexicalError pos c))
  | Tokens ts =>
      match unquote_tokens ts with
      | inl e => (ast, Some e)
      | inr ts' =>
          match parse_AST parse_Expr parse_Reference (advance start_position s)
                  (nesting_bound ts') ts' with
          | Ok a [] => (a, None)
          | Ok a (t :: rest) => (a, Some (ParseError (t :: rest)))
          | Fail d => (ast, Some (ParseError d))
          | OutOfFuel => (ast, Some NestingTooDeep)
          end
      end
  end.

(** An [io.Reader]: the text it yields, or the error of its first read. *)
Inductive Reader : Type :=
| reader_of (contents : string)
| failing_reader (msg : string).

Definition parser_Parse (r : Reader) (ast : AST) : AST * option Error :=
  match r with
  | reader_of s => parser_ParseString s ast
  | failing_reader msg => (ast, Some (ReadError msg))
  end.

(** [&AST{}] *)
Definition empty_AST : AST := mkAST (mkPosition 0 0 0) [].

(** [Parse] and [ParseString] return the pointer [ast] ([Some]: it is not
    nil) and the error of the parser. *)
Definition Parse (r : Reader) : option AST * option Error :=
  let ast := empty_AST in
  let (ast', err) := parser_Parse r ast in
  (Some ast', err).

Definition ParseString (s : string) : option AST * option Error :=
  let ast := empty_AST in
  let (ast', err) := parser_ParseString s ast in
  (Some ast', err).

End EntryPoints.


(* ------------------------------------------------------------------ *)
(** ** Vocabulary of the properties *)

(** The node that [accept] on a struct hands to the visitor: the struct
    itself under a value receiver, a pointer to it under a pointer
    receiver. *)
Definition node_of (v : Struct) : Node :=
  if value_receiver (TypeName_of v) then by_value v else pointer_to v.

(** The nodes of an expression tree in the order of its walk. *)
Fixpoint expr_nodes (x : ExprNode) : list Node :=
  ExprNode_node x ::
  match x with mkExprNode _ _ _ children => flat_map expr_nodes children end.

(** A visitor with a journal: every method call is recorded, in order, with
    the node it got and the error it returned. *)
Definition journal : Type := list (Node * option error).

Definition logging {St A : Type} (wrap : A -> Struct) (method : A -> M St (option error))
    : A -> M (St * journal) (option error) :=
  fun n st =>
    match method n (fst st) with
    | Done r s' => Done r (s', snd st ++ [(node_of (wrap n), r)])
    | Panic msg s' => Panic msg (s', snd st)
    end.

Definition logged {St : Type} (v : Visitor St) : Visitor (St * journal) :=
  mkVisitor
    (logging S_AST (VisitAST v))
    (logging S_ExprNode (VisitArrayLiteral v))
    (logging S_Block (VisitBlock v))
    (logging S_ExprNode (VisitCall v))
    (logging S_CaseDecl (VisitCaseDecl v))
    (logging S_CaseSelect (VisitCaseSelect v))
    (logging S_CaseStmt (VisitCaseStmt v))
    (logging S_ClassDecl (VisitClassDecl v))
    (logging S_ClassMember (VisitClassMember v))
    (logging S_ExprNode (VisitDictOrSetEntryLiteral v))
    (logging S_ExprNode (VisitDictOrSetLiteral v))
    (logging S_EnumCase (VisitEnumCase v))
    (logging S_EnumDecl (VisitEnumDecl v))
    (logging S_EnumMember (VisitEnumMember v))
    (logging S_ExprNode (VisitExpr v))
    (logging S_ForStmt (VisitForStmt v))
    (logging S_FuncDecl (VisitFuncDecl v))
    (logging S_IfStmt (VisitIfStmt v))
    (logging S_ImportDecl (VisitImportDecl v))
    (logging S_InitialiserDecl (VisitInitialiserDecl v))
    (logging S_ExprNode (VisitLiteral v))
    (logging S_Parameters (VisitParameters v))
    (logging S_ExprNode (VisitReference v))
    (logging S_ExprNode (VisitReferenceNext v))
    (logging S_ReturnStmt (VisitReturnStmt v))
    (logging S_RootDecl (VisitRootDecl v))
    (logging S_Stmt (VisitStmt v))
    (logging S_SwitchStmt (VisitSwitchStmt v))
    (logging S_ExprNode (VisitTerminal v))
    (logging S_TypeDecl (VisitTypeDecl v))
    (logging S_TypeParamDecl (VisitTypeParamDecl v))
    (logging S_ExprNode (VisitUnary v))
    (logging S_VarDecl (VisitVarDecl v))
    (logging S_VarDeclAsgn (VisitVarDeclAsgn v)).

(** The journal at the end of a walk, and the walk without its journal. *)
Definition journal_of {St A : Type} (o : outcome (St * journal) A) : journal :=
  match o with
  | Done _ st => snd st
  | Panic _ st => snd st
  end.

(** An entry after which the walk goes on: the method returned nil or the
    sentinel. *)
Definition goes_on (entry : Node * option error) : Prop :=
  snd entry = None \/ snd entry = Some TerminateRecursion.

(** The raw visitor that always proceeds. *)
Definition always_next {St : Type} : VisitorFunc St := fun _ next => next None.

(** The statement [x], an expression. *)
Definition expression_stmt (pos : Position) (x : ExprNode) : Stmt :=
  mkStmt pos None None None None None None None None None (Some x).

(** [if cond { a } else { b }] *)
Definition if_else (pos p1 p2 p3 p4 : Position) (cond a b : ExprNode) : IfStmt :=
  mkIfStmt pos (Some cond)
    (Some (mkBlock p1 [expression_stmt p2 a]))
    (Some (mkBlock p3 [expression_stmt p4 b])).

(** [if cond { }], without else. *)
Definition if_without_else (pos p1 : Position) (cond : ExprNode) : IfStmt :=
  mkIfStmt pos (Some cond) (Some (mkBlock p1 [])) None.

(** An [EnumMember] whose populated arm is a nested enum. *)
Definition nested_enum_member (pos : Position) (modifiers : Modifiers) (e : EnumDecl)
    : EnumMember :=
  mkEnumMember pos modifiers None None None None (Some e) None.

(** The token stream after an optional [";"]. *)
Definition after_optional_semicolon (ts : list Lexer.Token) : list Lexer.Token :=
  match ts with
  | t :: rest => if String.eqb (Lexer.Value t) ";" then rest else ts
  | [] => ts
  end.

Definition starts_with_semicolon (ts : list Lexer.Token) : bool :=
  match ts with
  | t :: _ => String.eqb (Lexer.Value t) ";"
  | [] => false
  end.

Definition starts_with_modifier (ts : list Lexer.Token) : bool :=
  match ts with
  | t :: _ => Lexer.TokenKind_eqb (Lexer.Type_ t) Lexer.Modifier
  | [] => false
  end.

(** The position of a token in the first line of a text. *)
Definition at_ (offset : nat) : Position := mkPosition offset 1 (S offset).

(** The tree of [enum E { case A; case B }]. *)
Definition enum_E_A_B : AST :=
  mkAST (at_ 0)
    [mkRootDecl (at_ 0) [] None None
       (Some (mkEnumDecl (at_ 0) (Some (mkTypeDecl (at_ 5) "E" []))
          [mkEnumMember (at_ 9) [] (Some (mkCaseDecl (at_ 9) "A" None))
             None None None None None;
           mkEnumMember (at_ 17) [] (Some (mkCaseDecl (at_ 17) "B" None))
             None None None None None]))
       None None].

(** A journal in which every method returned nil or the sentinel. *)
Definition quiet (j : journal) : Prop := Forall goes_on j.

(** A journal that ends with the method call that returned the error [e],
    which is not the sentinel, and is quiet before it. *)
Definition aborted_with (e : error) (j : journal) : Prop :=
  e <> TerminateRecursion /\
  exists (pre : journal) (n : Node), j = pre ++ [(n, Some e)] /\ quiet pre.

(** The journal of a walk agrees with how the walk ended. *)
Definition faithful {St : Type} (o : outcome (St * journal) (option error)) : Prop :=
  match o with
  | Done None st => quiet (snd st)
  | Done (Some e) st => aborted_with e (snd st)
  | Panic _ st => quiet (snd st)
  end.

(** The end of a walk without its journal. *)
Definition erase {St A : Type} (o : outcome (St * journal) A) : outcome St A :=
  match o with
  | Done a st => Done a (fst st)
  | Panic msg st => Panic msg (fst st)
  end.

(** A walk with a journal that is the walk [w'] but for its journal, and
    keeps the journal faithful. *)
Definition well_behaved (St : Type) (w : M (St * journal) (option error))
    (w' : M St (option error)) : Prop :=
  forall st, erase (w st) = w' (fst st) /\ (quiet (snd st) -> faithful (w st)).

(** A walk that completes with nil or panics, and changes no state. *)
Definition unobstructed {St : Type} (w : M St (option error)) : Prop :=
  forall s, w s = Done None s \/ exists msg, w s = Panic msg s.

(** The journal of a walk in which every method returned nil. *)
Definition entries (nodes : list Node) : journal := map (fun n => (n, None)) nodes.

(** A visitor that counts its calls, prunes at every class and fails at
    every import. *)
Definition count_and {A : Type} (r : option error) : A -> M nat (option error) :=
  fun _ s => Done r (S s).

Definition picky_visitor : Visitor nat :=
  mkVisitor
    (count_and None) (count_and None) (count_and None) (count_and None)
    (count_and None) (count_and None) (count_and None)
    (count_and (Some TerminateRecursion))            (* VisitClassDecl *)
    (count_and None) (count_and None) (count_and None) (count_and None)
    (count_and None) (count_and None) (count_and None) (count_and None)
    (count_and None) (count_and None)
    (count_and (Some (Failure "no imports")))        (* VisitImportDecl *)
    (count_and None) (count_and None) (count_and None) (count_and None)
    (count_and None) (count_and None) (count_and None) (count_and None)
    (count_and None) (count_and None) (count_and None) (count_and None)
    (count_and None) (count_and None) (count_and None).

(** [class C { let x }], [enum E { }] and [import m] as root declarations,
    and a program of four declarations. *)
Definition class_C : ClassDecl :=
  mkClassDecl (at_ 0) (Some (mkTypeDecl (at_ 6) "C" []))
    [mkClassMember (at_ 10) []
       (Some (mkVarDecl (at_ 10) [mkVarDeclAsgn (at_ 14) "x" None None]))
       None None None None].
Definition enum_E : EnumDecl := mkEnumDecl (at_ 0) (Some (mkTypeDecl (at_ 5) "E" [])) [].
Definition import_m : ImportDecl := mkImportDecl (at_ 0) "" "m".
Definition root_class : RootDecl := mkRootDecl (at_ 0) [] (Some class_C) None None None None.
Definition root_enum : RootDecl := mkRootDecl (at_ 0) [] None None (Some enum_E) None None.
Definition root_import : RootDecl :=
  mkRootDecl (at_ 0) [] None (Some import_m) None None None.
Definition four_declarations : AST :=
  mkAST (at_ 0) [root_class; root_enum; root_import; root_class].

Section GrammarVocabulary.

Import Lexer Grammar.

(** The text of the next token. *)
Definition first_value (ts : list Token) : option string :=
  match ts with
  | t :: _ => Some (Value t)
  | [] => None
  end.

(** Every token is a modifier. *)
Definition all_modifiers (ts : list Token) : bool :=
  forallb (fun t => TokenKind_eqb (Type_ t) Modifier) ts.

(** Two rules for the expression tree to run the grammar with: one that
    matches nothing, and one that matches an identifier. *)
Definition no_expressions : P ExprNode := fun ts => Fail ts.

Definition ident_expression : P ExprNode :=
  fun ts =>
    match ts with
    | t :: rest =>
        if TokenKind_eqb (Type_ t) Ident
        then Ok (mkExprNode Terminal (Pos t) (Value t) []) rest
        else Fail ts
    | [] => Fail ts
    end.

(** The tokens that the grammar sees for a text. *)
Definition tokens_of (s : string) : list Token :=
  match lex s with
  | Tokens ts => ts
  | LexError _ _ => []
  end.

(** A rule that, on a stream of at most [n] tokens, does not run out of
    fuel and does not return more tokens than it got. *)
Definition tame {A : Type} (n : nat) (p : P A) : Prop :=
  forall ts, List.length ts <= n ->
    p ts <> OutOfFuel /\
    forall a rest, p ts = Ok a rest -> List.length rest <= List.length ts.

(** A rule that takes at least one token when it matches. *)
Definition advancing {A : Type} (p : P A) : Prop :=
  forall ts a rest, p ts = Ok a rest -> List.length rest < List.length ts.

End GrammarVocabulary.

(* ------------------------------------------------------------------ *)
(** ** Vocabulary of the further properties *)

Section TokenVocabulary.

Import Lexer.

(** The text of a token stream: the texts of its tokens, one after the
    other. *)
Fixpoint text_of (ts : list Token) : string :=
  match ts with
  | [] => ""
  | t :: ts' => Value t ++ text_of ts'
  end.

(** Every token carries the position at which its text begins, when the
    first one begins at [pos]. *)
Fixpoint positioned (pos : Position) (ts : list Token) : Prop :=
  match ts with
  | [] => True
  | t :: ts' => Pos t = pos /\ positioned (advance pos (Value t)) ts'
  end.

(** A match of [s] ends where its continuation [k] is called, at a suffix
    of [s]. *)
Definition ends_at (s : string) (k : cont) (x : string) : Prop :=
  exists p' s' pre, k p' s' = Some x /\ s = (pre ++ s')%string.

(** A token is what the first matching rule took at the head of some text. *)
Inductive token_at : Token -> Prop :=
| token_at_intro : forall kind s rest pos,
    first_match rules s = Some (kind, rest) ->
    token_at (mkToken kind (take (String.length s - String.length rest) s) pos).


(** Every character of [s] satisfies [P]. *)
Fixpoint all_chars (P : ascii -> bool) (s : string) : bool :=
  match s with
  | EmptyString => true
  | String c s' => P c && all_chars P s'
  end.

(** [s] begins with a character that satisfies [P]. *)
Definition head_is (P : ascii -> bool) (s : string) : bool :=
  match s with
  | String c _ => P c
  | EmptyString => false
  end.

(** The words of the rules [Modifier] and [Keyword]. *)
Definition modifiers : list string := ["pub"; "override"; "static"].
Definition keywords : list string :=
  ["in"; "switch"; "case"; "default"; "if"; "enum"; "alias"; "let"; "fn"; "break";
   "continue"; "for"; "throws"; "import"; "new"].

(** A letter or an underscore, then letters, digits and underscores. *)
Definition identifier_shaped (w : string) : bool :=
  match w with
  | String c w' => (is_alpha c || Ascii.eqb c "_") && all_chars is_word w'
  | EmptyString => false
  end.

(** The kind of the token of a word. *)
Definition word_kind (w : string) : TokenKind :=
  if existsb (String.eqb w) modifiers then Modifier
  else if existsb (String.eqb w) keywords then Keyword
  else Ident.

(** [\b(p1|...|pn)\b] *)
Definition bounded_alts (ps : list string) : regex :=
  cats [WordBoundary; alts (map Lit ps); WordBoundary].

(** The continuation at the end of a rule: the text that remains. *)
Definition final : cont := fun _ s' => Some s'.

Definition not_newline (c : ascii) : bool := negb (Ascii.eqb c newline).
Definition not_apostrophe (c : ascii) : bool := negb (Ascii.eqb c apostrophe).
Definition plain_char (c : ascii) : bool :=
  negb (Ascii.eqb c quote) && negb (Ascii.eqb c backslash_char).

(** [s] begins with the end of a block comment, and [s] contains one. *)
Definition closes_here (s : string) : bool :=
  match s with
  | String a (String b _) => Ascii.eqb a "*" && Ascii.eqb b "/"
  | _ => false
  end.

Fixpoint has_close (s : string) : bool :=
  match s with
  | EmptyString => false
  | String _ s' => closes_here s || has_close s'
  end.

(** The end of a block comment, then [k]. *)
Definition close_then (k : cont) : cont :=
  fun p s => run (Cat (Lit "*/") (Lit "")) p s k.

(** The text between the quotes of a double-quoted literal: characters other
    than the double quote and the backslash, and escapes, each a backslash
    followed by any character but a newline. *)
Fixpoint escaped_text (t : string) : bool :=
  match t with
  | EmptyString => true
  | String c t' =>
      if Ascii.eqb c backslash_char
      then match t' with
           | String d t'' => negb (Ascii.eqb d newline) && escaped_text t''
           | EmptyString => false
           end
      else negb (Ascii.eqb c quote) && escaped_text t'
  end.

(** The end of the rule [Number], its optional fraction, and a text that
    begins with a fraction. *)
Definition after_number : cont := fun p s => run (Cat WordBoundary (Lit "")) p s final.

Definition fraction : regex := Opt (Cat (Lit ".") (Plus digit_class)).

Definition starts_fraction (t : string) : bool :=
  match t with
  | String a (String b _) => Ascii.eqb a "." && is_digit b
  | _ => false
  end.

(** The spellings of the operators, in the order of the constants of [Op]. *)
Definition spellings : list string :=
  [""; "%="; ">="; "<="; "&&"; "||"; "=="; "!="; "+="; "-="; "*="; "/="; "^=";
   "-"; "="; "+"; "*"; "/"; "<"; ">"; "%"; "^"; "!"; "->"].

(** The tokens of [a >= b]. *)
Definition a_ge_b_tokens : list Token :=
  [mkToken Ident "a" (at_ 0); mkToken whitespace " " (at_ 1); mkToken Operator ">=" (at_ 2);
   mkToken whitespace " " (at_ 4); mkToken Ident "b" (at_ 5)].

End TokenVocabulary.

(** The member is a nested enum. *)
Definition is_nested_enum (e : EnumMember) : bool :=
  match e with
  | mkEnumMember _ _ None None None None (Some _) None => true
  | _ => false
  end.







(** The trees of [enum E { case A }] and [enum E { enum F { } }]. *)
Definition enum_E_A : EnumDecl :=
  mkEnumDecl (at_ 0) (Some (mkTypeDecl (at_ 5) "E" []))
    [mkEnumMember (at_ 9) [] (Some (mkCaseDecl (at_ 9) "A" None)) None None None None None].

Definition enum_E_F : EnumDecl :=
  mkEnumDecl (at_ 0) (Some (mkTypeDecl (at_ 5) "E" []))
    [nested_enum_member (at_ 9) []
       (mkEnumDecl (at_ 9) (Some (mkTypeDecl (at_ 14) "F" [])) [])].

(** [x] is a value that the rule [p] produces. *)
Definition produced_by {A : Type} (p : Grammar.P A) (x : A) : Prop :=
  exists ts rest, p ts = Grammar.Ok x rest.

(** The node types whose declaration is in the source. *)
Definition declared_in_source (t : TypeName) : bool :=
  match t with
  | T_ExprNode _ => false
  | _ => true
  end.

(** *** The nodes of a tree in the order of its walk *)

Definition option_nodes {A : Type} (nodes : A -> list Node) (p : option A) : list Node :=
  match p with
  | Some x => nodes x
  | None => []
  end.

Definition TypeParamDecl_nodes (t : TypeParamDecl) : list Node :=
  by_value (S_TypeParamDecl t) :: flat_map expr_nodes (TypeParamDecl_Constraints t).

Definition TypeDecl_nodes (t : TypeDecl) : list Node :=
  by_value (S_TypeDecl t) :: flat_map TypeParamDecl_nodes (TypeDecl_TypeParameter t).

Definition CaseDecl_nodes (c : CaseDecl) : list Node :=
  pointer_to (S_CaseDecl c) :: option_nodes TypeDecl_nodes (CaseDecl_Type c).

Definition Parameters_nodes (p : Parameters) : list Node :=
  by_value (S_Parameters p) :: option_nodes expr_nodes (Parameters_Type p).

Definition VarDeclAsgn_nodes (v : VarDeclAsgn) : list Node :=
  by_value (S_VarDeclAsgn v)
  :: option_nodes expr_nodes (VarDeclAsgn_Type v)
  ++ option_nodes expr_nodes (VarDeclAsgn_Default v).

Definition VarDecl_nodes (v : VarDecl) : list Node :=
  pointer_to (S_VarDecl v) :: flat_map VarDeclAsgn_nodes (VarDecl_Vars v).

Definition EnumCase_nodes (e : EnumCase) : list Node := [by_value (S_EnumCase e)].

Definition CaseSelect_nodes (c : CaseSelect) : list Node :=
  by_value (S_CaseSelect c)
  :: option_nodes EnumCase_nodes (CaseSelect_EnumCase c)
  ++ option_nodes expr_nodes (CaseSelect_ExprCase c).

Definition ReturnStmt_nodes (r : ReturnStmt) : list Node :=
  by_value (S_ReturnStmt r) :: option_nodes expr_nodes (ReturnStmt_Value r).

Definition ImportDecl_nodes (i : ImportDecl) : list Node := [pointer_to (S_ImportDecl i)].

Fixpoint Stmt_nodes (s : Stmt) : list Node :=
  by_value (S_Stmt s) ::
  match s with
  | mkStmt _ Return If For Switch Block_ VarDecl_ FuncDecl_ ClassDecl_ EnumDecl_ Expression =>
      match Return with Some r => ReturnStmt_nodes r | None =>
      match If with Some i => IfStmt_nodes i | None =>
      match For with Some f => ForStmt_nodes f | None =>
      match Switch with Some sw => SwitchStmt_nodes sw | None =>
      match Block_ with Some b => Block_nodes b | None =>
      match VarDecl_ with Some v => VarDecl_nodes v | None =>
      match FuncDecl_ with Some f => FuncDecl_nodes f | None =>
      match ClassDecl_ with Some c => ClassDecl_nodes c | None =>
      match EnumDecl_ with Some e => EnumDecl_nodes e | None =>
      match Expression with Some x => expr_nodes x | None => []
      end end end end end end end end end end
  end

with Block_nodes (b : Block) : list Node :=
  by_value (S_Block b) ::
  match b with mkBlock _ Statements => flat_map Stmt_nodes Statements end

with ForStmt_nodes (i : ForStmt) : list Node :=
  by_value (S_ForStmt i) ::
  match i with
  | mkForStmt _ Target Source Body =>
      option_nodes expr_nodes Target ++ option_nodes expr_nodes Source
      ++ match Body with Some b => Block_nodes b | None => [] end
  end

with IfStmt_nodes (i : IfStmt) : list Node :=
  by_value (S_IfStmt i) ::
  match i with
  | mkIfStmt _ Condition Main Else =>
      option_nodes expr_nodes Condition
      ++ match Main with Some b => Block_nodes b | None => [] end
      ++ match Else with Some b => Block_nodes b | None => [] end
  end

with SwitchStmt_nodes (s : SwitchStmt) : list Node :=
  by_value (S_SwitchStmt s) ::
  match s with
  | mkSwitchStmt _ Target Cases =>
      option_nodes expr_nodes Target ++ flat_map CaseStmt_nodes Cases
  end

with CaseStmt_nodes (c : CaseStmt) : list Node :=
  by_value (S_CaseStmt c) ::
  match c with
  | mkCaseStmt _ _ Case Body =>
      option_nodes CaseSelect_nodes Case ++ flat_map Stmt_nodes Body
  end

with FuncDecl_nodes (f : FuncDecl) : list Node :=
  pointer_to (S_FuncDecl f) ::
  match f with
  | mkFuncDecl _ _ Parameters_ _ Return Body =>
      flat_map Parameters_nodes Parameters_ ++ option_nodes expr_nodes Return
      ++ match Body with Some b => Block_nodes b | None => [] end
  end

with InitialiserDecl_nodes (i : InitialiserDecl) : list Node :=
  pointer_to (S_InitialiserDecl i) ::
  match i with
  | mkInitialiserDecl _ Parameters_ _ Body =>
      flat_map Parameters_nodes Parameters_
      ++ match Body with Some b => Block_nodes b | None => [] end
  end

with ClassDecl_nodes (c : ClassDecl) : list Node :=
  pointer_to (S_ClassDecl c) ::
  match c with
  | mkClassDecl _ Type_ Members =>
      option_nodes TypeDecl_nodes Type_ ++ flat_map ClassMember_nodes Members
  end

with ClassMember_nodes (c : ClassMember) : list Node :=
  pointer_to (S_ClassMember c) ::
  match c with
  | mkClassMember _ _ VarDecl_ FuncDecl_ ClassDecl_ EnumDecl_ InitialiserDecl_ =>
      match VarDecl_ with Some v => VarDecl_nodes v | None =>
      match FuncDecl_ with Some f => FuncDecl_nodes f | None =>
      match ClassDecl_ with Some c' => ClassDecl_nodes c' | None =>
      match EnumDecl_ with Some e => EnumDecl_nodes e | None =>
      match InitialiserDecl_ with Some i => InitialiserDecl_nodes i | None => []
      end end end end end
  end

with EnumDecl_nodes (e : EnumDecl) : list Node :=
  pointer_to (S_EnumDecl e) ::
  match e with
  | mkEnumDecl _ Type_ Members =>
      option_nodes TypeDecl_nodes Type_ ++ flat_map EnumMember_nodes Members
  end

with EnumMember_nodes (e : EnumMember) : list Node :=
  pointer_to (S_EnumMember e) ::
  match e with
  | mkEnumMember _ _ CaseDecl_ VarDecl_ FuncDecl_ ClassDecl_ _ InitialiserDecl_ =>
      match CaseDecl_ with Some c => CaseDecl_nodes c | None =>
      match VarDecl_ with Some v => VarDecl_nodes v | None =>
      match FuncDecl_ with Some f => FuncDecl_nodes f | None =>
      match ClassDecl_ with Some c => ClassDecl_nodes c | None =>
      match InitialiserDecl_ with Some i => InitialiserDecl_nodes i | None => []
      end end end end end
  end.

Definition Decl_nodes (d : Decl) : list Node :=
  match d with
  | Decl_Class c => ClassDecl_nodes c
  | Decl_Import i => ImportDecl_nodes i
  | Decl_Enum e => EnumDecl_nodes e
  | Decl_Var v => VarDecl_nodes v
  | Decl_Func f => FuncDecl_nodes f
  | Decl_Case c => CaseDecl_nodes c
  | Decl_Initialiser i => InitialiserDecl_nodes i
  end.

Definition RootDecl_nodes (r : RootDecl) : list Node :=
  pointer_to (S_RootDecl r) ::
  match RootDecl_Decl r with
  | Returns d => Decl_nodes d
  | Panics _ => []
  end.

Definition AST_nodes (a : AST) : list Node :=
  pointer_to (S_AST a) :: flat_map RootDecl_nodes (AST_Declarations a).

Definition Struct_nodes (v : Struct) : list Node :=
  match v with
  | S_AST n => AST_nodes n
  | S_Block n => Block_nodes n
  | S_CaseDecl n => CaseDecl_nodes n
  | S_CaseSelect n => CaseSelect_nodes n
  | S_CaseStmt n => CaseStmt_nodes n
  | S_ClassDecl n => ClassDecl_nodes n
  | S_ClassMember n => ClassMember_nodes n
  | S_EnumCase n => EnumCase_nodes n
  | S_EnumDecl n => EnumDecl_nodes n
  | S_EnumMember n => EnumMember_nodes n
  | S_ForStmt n => ForStmt_nodes n
  | S_FuncDecl n => FuncDecl_nodes n
  | S_IfStmt n => IfStmt_nodes n
  | S_ImportDecl n => ImportDecl_nodes n
  | S_InitialiserDecl n => InitialiserDecl_nodes n
  | S_Parameters n => Parameters_nodes n
  | S_ReturnStmt n => ReturnStmt_nodes n
  | S_RootDecl n => RootDecl_nodes n
  | S_Stmt n => Stmt_nodes n
  | S_SwitchStmt n => SwitchStmt_nodes n
  | S_TypeDecl n => TypeDecl_nodes n
  | S_TypeParamDecl n => TypeParamDecl_nodes n
  | S_VarDecl n => VarDecl_nodes n
  | S_VarDeclAsgn n => VarDeclAsgn_nodes n
  | S_ExprNode n => expr_nodes n
  end.

(** *** Trees that a walk can cross *)

(** A pointer to a node whose [accept] has a value receiver: present, and
    its tree can be crossed. *)
Definition present {A : Type} (crossable : A -> bool) (p : option A) : bool :=
  match p with
  | Some x => crossable x
  | None => false
  end.

Definition CaseDecl_crossable (c : CaseDecl) : bool := present (fun _ => true) (CaseDecl_Type c).

Definition CaseSelect_crossable (c : CaseSelect) : bool :=
  present (fun _ => true) (CaseSelect_EnumCase c).

Fixpoint Stmt_crossable (s : Stmt) : bool :=
  match s with
  | mkStmt _ Return If For Switch Block_ VarDecl_ FuncDecl_ ClassDecl_ EnumDecl_ Expression =>
      match Return with Some _ => true | None =>
      match If with Some i => IfStmt_crossable i | None =>
      match For with Some f => ForStmt_crossable f | None =>
      match Switch with Some sw => SwitchStmt_crossable sw | None =>
      match Block_ with Some b => Block_crossable b | None =>
      match VarDecl_ with Some _ => true | None =>
      match FuncDecl_ with Some f => FuncDecl_crossable f | None =>
      match ClassDecl_ with Some c => ClassDecl_crossable c | None =>
      match EnumDecl_ with Some e => EnumDecl_crossable e | None =>
      match Expression with Some _ => true | None => false
      end end end end end end end end end end
  end

with Block_crossable (b : Block) : bool :=
  match b with mkBlock _ Statements => forallb Stmt_crossable Statements end

with ForStmt_crossable (i : ForStmt) : bool :=
  match i with
  | mkForStmt _ _ _ Body =>
      match Body with Some b => Block_crossable b | None => false end
  end

with IfStmt_crossable (i : IfStmt) : bool :=
  match i with
  | mkIfStmt _ _ Main Else =>
      match Main with Some b => Block_crossable b | None => false end
      && match Else with Some b => Block_crossable b | None => false end
  end

with SwitchStmt_crossable (s : SwitchStmt) : bool :=
  match s with mkSwitchStmt _ _ Cases => forallb CaseStmt_crossable Cases end

with CaseStmt_crossable (c : CaseStmt) : bool :=
  match c with
  | mkCaseStmt _ _ Case Body =>
      present CaseSelect_crossable Case && forallb Stmt_crossable Body
  end

with FuncDecl_crossable (f : FuncDecl) : bool :=
  match f with
  | mkFuncDecl _ _ _ _ _ Body =>
      match Body with Some b => Block_crossable b | None => false end
  end

with InitialiserDecl_crossable (i : InitialiserDecl) : bool :=
  match i with
  | mkInitialiserDecl _ _ _ Body =>
      match Body with Some b => Block_crossable b | None => false end
  end

with ClassDecl_crossable (c : ClassDecl) : bool :=
  match c with
  | mkClassDecl _ Type_ Members =>
      present (fun _ => true) Type_ && forallb ClassMember_crossable Members
  end

with ClassMember_crossable (c : ClassMember) : bool :=
  match c with
  | mkClassMember _ _ VarDecl_ FuncDecl_ ClassDecl_ EnumDecl_ InitialiserDecl_ =>
      match VarDecl_ with Some _ => true | None =>
      match FuncDecl_ with Some f => FuncDecl_crossable f | None =>
      match ClassDecl_ with Some c' => ClassDecl_crossable c' | None =>
      match EnumDecl_ with Some e => EnumDecl_crossable e | None =>
      match InitialiserDecl_ with Some i => InitialiserDecl_crossable i | None => false
      end end end end end
  end

with EnumDecl_crossable (e : EnumDecl) : bool :=
  match e with
  | mkEnumDecl _ Type_ Members =>
      present (fun _ => true) Type_ && forallb EnumMember_crossable Members
  end

with EnumMember_crossable (e : EnumMember) : bool :=
  match e with
  | mkEnumMember _ _ CaseDecl_ VarDecl_ FuncDecl_ ClassDecl_ _ InitialiserDecl_ =>
      match CaseDecl_ with Some c => CaseDecl_crossable c | None =>
      match VarDecl_ with Some _ => true | None =>
      match FuncDecl_ with Some f => FuncDecl_crossable f | None =>
      match ClassDecl_ with Some c => ClassDecl_crossable c | None =>
      match InitialiserDecl_ with Some i => InitialiserDecl_crossable i | None => false
      end end end end end
  end.

Definition Decl_crossable (d : Decl) : bool :=
  match d with
  | Decl_Class c => ClassDecl_crossable c
  | Decl_Import _ => true
  | Decl_Enum e => EnumDecl_crossable e
  | Decl_Var _ => true
  | Decl_Func f => FuncDecl_crossable f
  | Decl_Case c => CaseDecl_crossable c
  | Decl_Initialiser i => InitialiserDecl_crossable i
  end.

Definition RootDecl_crossable (r : RootDecl) : bool :=
  match RootDecl_Decl r with
  | Returns d => Decl_crossable d
  | Panics _ => false
  end.

Definition AST_crossable (a : AST) : bool := forallb RootDecl_crossable (AST_Declarations a).

Definition Struct_crossable (v : Struct) : bool :=
  match v with
  | S_AST n => AST_crossable n
  | S_Block n => Block_crossable n
  | S_CaseDecl n => CaseDecl_crossable n
  | S_CaseSelect n => CaseSelect_crossable n
  | S_CaseStmt n => CaseStmt_crossable n
  | S_ClassDecl n => ClassDecl_crossable n
  | S_ClassMember n => ClassMember_crossable n
  | S_EnumDecl n => EnumDecl_crossable n
  | S_EnumMember n => EnumMember_crossable n
  | S_ForStmt n => ForStmt_crossable n
  | S_FuncDecl n => FuncDecl_crossable n
  | S_IfStmt n => IfStmt_crossable n
  | S_InitialiserDecl n => InitialiserDecl_crossable n
  | S_RootDecl n => RootDecl_crossable n
  | S_Stmt n => Stmt_crossable n
  | S_SwitchStmt n => SwitchStmt_crossable n
  | S_EnumCase _ | S_ImportDecl _ | S_Parameters _ | S_ReturnStmt _ | S_TypeDecl _
  | S_TypeParamDecl _ | S_VarDecl _ | S_VarDeclAsgn _ | S_ExprNode _ => true
  end.

(** A walk that completes with nil and records the calls for [nodes]. *)
Definition records {St : Type} (w : M (St * journal) (option error)) (nodes : list Node)
    : Prop :=
  forall s j, w (s, j) = Done None (s, j ++ entries nodes).

(** A walk that completes with nil in an unchanged state, and one that
    panics. *)
Definition completes {St : Type} (w : M St (option error)) : Prop :=
  forall s, w s = Done None s.

Definition panics {St : Type} (w : M St (option error)) : Prop :=
  forall s, exists msg, w s = Panic msg s.

Definition decides {St : Type} (b : bool) (w : M St (option error)) : Prop :=
  if b then completes w else panics w.

(* ------------------------------------------------------------------ *)
(** ** Properties of the resolvers *)

(** For the five arms that the switch names, the resolver returns the
    populated arm. *)
Lemma EnumMember_Decl_named_arms (e : EnumMember) :
  EnumMember_arms e = 1 ->
  (match e with mkEnumMember _ _ _ _ _ _ en _ => en end) = None ->
  exists d, EnumMember_Decl e = Returns d.
Proof.
  destruct e as [pos mods c v f cl en i]; simpl.
  intros Harms Hen; subst en.
  destruct c, v, f, cl, i; simpl in *; try discriminate; eauto.
Qed.

(** C1: [EnumMember.Decl()] on a member whose single populated arm is a
    nested [EnumDecl]. The precondition of the claim holds (exactly one arm is
    populated), and the resolver reaches its [default] branch and panics: its
    switch has no case for [EnumDecl]. [ClassMember.Decl()] on the same arm
    returns it. *)
Theorem C1_EnumMember_Decl_panics_on_nested_enum :
  forall (pos : Position) (modifiers : Modifiers) (e : EnumDecl),
    EnumMember_arms (nested_enum_member pos modifiers e) = 1 /\
    EnumMember_Decl (nested_enum_member pos modifiers e) = Panics "??" /\
    ClassMember_Decl (mkClassMember pos modifiers None None None (Some e) None)
      = Returns (Decl_Enum e).
Proof.
  intros pos modifiers e. repeat split.
Qed.

(* ------------------------------------------------------------------ *)
(** ** Properties of the lexer *)

Module LexerFacts.

Import Lexer.

(** C4: the input [a >= b] lexes to [Ident(a)], [Operator(>=)], [Ident(b)]
    (with the whitespace between them before it is elided), and not to the
    sequence that splits the operator; at the operator, the rule [Operator]
    takes both characters, its two-character alternatives coming before the
    single-character class. *)
Theorem C4_ge_is_one_operator :
  (exists ts, lex "a >= b" = Tokens ts /\
     shape ts = [(Ident, "a"); (Operator, ">="); (Ident, "b")] /\
     shape ts <> [(Ident, "a"); (Operator, ">"); (Operator, "="); (Ident, "b")]) /\
  (exists ts, lex_all "a >= b" = Tokens ts /\
     shape ts = [(Ident, "a"); (whitespace, " "); (Operator, ">="); (whitespace, " ");
                 (Ident, "b")]) /\
  first_match rules ">= b" = Some (Operator, " b").
Proof.
  split; [|split].
  - eexists. split; [vm_compute; reflexivity|].
    split; [reflexivity | discriminate].
  - eexists. split; [vm_compute; reflexivity | reflexivity].
  - vm_compute. reflexivity.
Qed.

(** Where the single-character class comes first, it shadows the
    two-character operators. *)
Lemma single_character_class_first_splits :
  match_rule (alts [Class false ["-"; "="; "+"; "*"; "/"; "<"; ">"; "%"; "^"; "!"]%char;
                    Lit ">="]) ">= b" = Some "= b".
Proof. vm_compute. reflexivity. Qed.

(** *** Unterminated string literals *)

(** The equations of the matcher that the proofs below use. *)
Lemma run_lit1 (a : ascii) (prev : option ascii) (c : ascii) (s : string) (k : cont) :
  run (lit1 a) prev (String c s) k = if Ascii.eqb a c then k (Some a) s else None.
Proof. unfold lit1. simpl. destruct (Ascii.eqb a c); reflexivity. Qed.


Lemma run_Alt r1 r2 prev s k :
  run (Alt r1 r2) prev s k =
  match run r1 prev s k with Some x => Some x | None => run r2 prev s k end.
Proof. reflexivity. Qed.

Lemma run_Cat r1 r2 prev s k :
  run (Cat r1 r2) prev s k = run r1 prev s (fun p' s' => run r2 p' s' k).
Proof. reflexivity. Qed.

Lemma run_Star r prev s k :
  run (Star r) prev s k = star_loop (run r) k (String.length s) prev s.
Proof. reflexivity. Qed.


Lemma star_loop_S m k n prev s :
  star_loop m k (S n) prev s =
  match m prev s (fun p' s' =>
          if Nat.ltb (String.length s') (String.length s) then star_loop m k n p' s'
          else None) with
  | Some r => Some r
  | None => k prev s
  end.
Proof. reflexivity. Qed.










(** A backslash before the last double quote of the text does not keep that
    quote from closing the literal: the body of the rule may take the
    backslash as an ordinary character. *)
Lemma backslash_before_last_quote_closes :
  let text := String quote ("abc" ++ String backslash_char (String quote "")) in
  exists ts, lex text = Tokens ts /\ shape ts = [(String_, text)].
Proof. eexists. split; [vm_compute; reflexivity | reflexivity]. Qed.

(** *** Progress *)


Lemma ends_in_weaken s k x : ends_in true s k x -> ends_in false s k x.
Proof. intros (p' & s' & H & Hl). exists p', s'. split; [exact H | simpl in *; lia]. Qed.








Lemma reaches_trans pos s pos1 s1 pos2 s2 :
  reaches pos s pos1 s1 -> reaches pos1 s1 pos2 s2 -> reaches pos s pos2 s2.
Proof.
  induction 1 as [|pos s kind rest pos' s' Hm Hlt Hr IH]; intros H2; [exact H2|].
  eapply reaches_token; eauto.
Qed.


End LexerFacts.

(* ------------------------------------------------------------------ *)
(** ** Properties of the visitor engine *)

(** *** The shape of every walk *)

(** Every [accept] is built from four blocks: returning nil, panicking,
    sequencing with an early return on error, and calling the visitor with a
    continuation that returns a non-nil error as it is. A relation between
    the walks of two visitors that these blocks preserve holds between
    their walks of every node. *)
Create HintDb walk.

Section Structure.

Context {St St' : Type}.
Variable visitor : VisitorFunc St.
Variable visitor' : VisitorFunc St'.

(** A relation between the walks of two visitors that the building blocks of
    [accept] preserve. *)
Variable R : M St (option error) -> M St' (option error) -> Prop.
Hypothesis R_ret : R (ret None) (ret None).
Hypothesis R_panic : forall msg, R (panic msg) (panic msg).
Hypothesis R_and_then : forall a a' b b', R a a' -> R b b' -> R (a ;; b) (a' ;; b').
Hypothesis R_visit :
  forall node k k',
    (forall e, k (Some e) = ret (Some e)) ->
    (forall e, k' (Some e) = ret (Some e)) ->
    R (k None) (k' None) ->
    R (visitor node k) (visitor' node k').

Lemma R_proceed node body body' :
  R body body' -> R (visitor node (proceed body)) (visitor' node (proceed body')).
Proof. intros H. apply R_visit; [reflexivity | reflexivity | exact H]. Qed.

Lemma R_returns node :
  R (visitor node (fun err => ret err)) (visitor' node (fun err => ret err)).
Proof. apply R_visit; [reflexivity | reflexivity | apply R_ret]. Qed.

Lemma R_each (A : Type) (f : A -> M St (option error)) (f' : A -> M St' (option error))
    (l : list A) :
  list_all A (fun x => R (f x) (f' x)) l -> R (each f l) (each f' l).
Proof.
  induction 1; simpl; [apply R_ret | apply R_and_then; assumption].
Qed.

Lemma R_each_all (A : Type) (f : A -> M St (option error)) (f' : A -> M St' (option error))
    (l : list A) :
  (forall x, R (f x) (f' x)) -> R (each f l) (each f' l).
Proof.
  intros H. induction l; simpl; [apply R_ret | apply R_and_then; auto].
Qed.

Lemma R_option (A : Type) (f : A -> M St (option error)) (f' : A -> M St' (option error))
    (p : option A) (w : M St (option error)) (w' : M St' (option error)) :
  option_all A (fun x => R (f x) (f' x)) p -> R w w' ->
  R (match p with Some x => f x | None => w end)
    (match p with Some x => f' x | None => w' end).
Proof. destruct 1; auto. Qed.

Lemma R_option_all (A : Type) (f : A -> M St (option error)) (f' : A -> M St' (option error))
    (p : option A) (w : M St (option error)) (w' : M St' (option error)) :
  (forall x, R (f x) (f' x)) -> R w w' ->
  R (match p with Some x => f x | None => w end)
    (match p with Some x => f' x | None => w' end).
Proof. destruct p; auto. Qed.

Lemma R_value_receiver (A : Type) (f : A -> M St (option error))
    (f' : A -> M St' (option error)) (p : option A) :
  option_all A (fun x => R (f x) (f' x)) p ->
  R (VisitFunc_value_receiver f p) (VisitFunc_value_receiver f' p).
Proof. intros H. apply R_option; [exact H | apply R_panic]. Qed.

Lemma R_value_receiver_all (A : Type) (f : A -> M St (option error))
    (f' : A -> M St' (option error)) (p : option A) :
  (forall x, R (f x) (f' x)) ->
  R (VisitFunc_value_receiver f p) (VisitFunc_value_receiver f' p).
Proof. intros H. apply R_option_all; [exact H | apply R_panic]. Qed.

Lemma R_ExprNode (x : ExprNode) : R (ExprNode_accept visitor x) (ExprNode_accept visitor' x).
Proof.
  induction x as [kind pos text children IH].
  simpl. apply R_proceed. apply R_each. exact IH.
Qed.

Lemma R_expr (p : option ExprNode) : R (VisitFunc_expr visitor p) (VisitFunc_expr visitor' p).
Proof. destruct p; simpl; [apply R_ExprNode | apply R_ret]. Qed.

#[local] Hint Resolve R_ret R_panic R_and_then R_proceed R_returns R_each_all
  R_value_receiver_all R_ExprNode R_expr : walk.

Lemma R_ImportDecl n : R (ImportDecl_accept visitor n) (ImportDecl_accept visitor' n).
Proof. unfold ImportDecl_accept; auto with walk. Qed.

Lemma R_EnumCase n : R (EnumCase_accept visitor n) (EnumCase_accept visitor' n).
Proof. unfold EnumCase_accept; auto with walk. Qed.

Lemma R_TypeParamDecl n : R (TypeParamDecl_accept visitor n) (TypeParamDecl_accept visitor' n).
Proof. unfold TypeParamDecl_accept; auto with walk. Qed.

#[local] Hint Resolve R_ImportDecl R_EnumCase R_TypeParamDecl : walk.

Lemma R_TypeDecl n : R (TypeDecl_accept visitor n) (TypeDecl_accept visitor' n).
Proof. unfold TypeDecl_accept; auto with walk. Qed.

#[local] Hint Resolve R_TypeDecl : walk.

Lemma R_CaseDecl n : R (CaseDecl_accept visitor n) (CaseDecl_accept visitor' n).
Proof. unfold CaseDecl_accept; auto with walk. Qed.

Lemma R_Parameters n : R (Parameters_accept visitor n) (Parameters_accept visitor' n).
Proof. unfold Parameters_accept; auto with walk. Qed.

Lemma R_VarDeclAsgn n : R (VarDeclAsgn_accept visitor n) (VarDeclAsgn_accept visitor' n).
Proof. unfold VarDeclAsgn_accept; auto with walk. Qed.

#[local] Hint Resolve R_CaseDecl R_Parameters R_VarDeclAsgn : walk.

Lemma R_VarDecl n : R (VarDecl_accept visitor n) (VarDecl_accept visitor' n).
Proof. unfold VarDecl_accept; auto with walk. Qed.

Lemma R_CaseSelect n : R (CaseSelect_accept visitor n) (CaseSelect_accept visitor' n).
Proof. unfold CaseSelect_accept; auto with walk. Qed.

Lemma R_ReturnStmt n : R (ReturnStmt_accept visitor n) (ReturnStmt_accept visitor' n).
Proof. unfold ReturnStmt_accept; auto with walk. Qed.

#[local] Hint Resolve R_VarDecl R_CaseSelect R_ReturnStmt : walk.

(** The nodes that refer to each other, by induction on all of them at
    once. *)
Lemma R_nodes :
  (forall n, R (Stmt_accept visitor n) (Stmt_accept visitor' n)) /\
  (forall n, R (Block_accept visitor n) (Block_accept visitor' n)) /\
  (forall n, R (ForStmt_accept visitor n) (ForStmt_accept visitor' n)) /\
  (forall n, R (IfStmt_accept visitor n) (IfStmt_accept visitor' n)) /\
  (forall n, R (SwitchStmt_accept visitor n) (SwitchStmt_accept visitor' n)) /\
  (forall n, R (CaseStmt_accept visitor n) (CaseStmt_accept visitor' n)) /\
  (forall n, R (FuncDecl_accept visitor n) (FuncDecl_accept visitor' n)) /\
  (forall n, R (InitialiserDecl_accept visitor n) (InitialiserDecl_accept visitor' n)) /\
  (forall n, R (ClassDecl_accept visitor n) (ClassDecl_accept visitor' n)) /\
  (forall n, R (ClassMember_accept visitor n) (ClassMember_accept visitor' n)) /\
  (forall n, R (EnumDecl_accept visitor n) (EnumDecl_accept visitor' n)) /\
  (forall n, R (EnumMember_accept visitor n) (EnumMember_accept visitor' n)).
Proof.
  apply nodes_mutind; intros; simpl; apply R_proceed;
    repeat first
      [ apply R_and_then
      | apply R_each; assumption
      | apply R_value_receiver; assumption
      | apply R_option; [assumption|]
      | apply R_option_all; [auto with walk; fail|]
      | solve [auto with walk] ].
Qed.

Lemma R_Decl d : R (Decl_accept visitor d) (Decl_accept visitor' d).
Proof.
  destruct R_nodes as (_ & _ & _ & _ & _ & _ & Hf & Hi & Hc & _ & He & _).
  destruct d; simpl; auto with walk.
Qed.

Lemma R_RootDecl n : R (RootDecl_accept visitor n) (RootDecl_accept visitor' n).
Proof.
  unfold RootDecl_accept. apply R_proceed.
  destruct (RootDecl_Decl n); simpl; [apply R_Decl | apply R_panic].
Qed.

Lemma R_AST n : R (AST_accept visitor n) (AST_accept visitor' n).
Proof.
  unfold AST_accept. apply R_proceed. apply R_each_all. apply R_RootDecl.
Qed.

Lemma R_Struct v : R (Struct_accept visitor v) (Struct_accept visitor' v).
Proof.
  destruct R_nodes as (H1 & H2 & H3 & H4 & H5 & H6 & H7 & H8 & H9 & H10 & H11 & H12).
  destruct v; simpl; auto using R_AST, R_RootDecl with walk.
Qed.

Lemma R_accept node : R (accept visitor node) (accept visitor' node).
Proof.
  destruct node as [|v|v|t]; simpl.
  - apply R_panic.
  - destruct (value_receiver (TypeName_of v)); [apply R_Struct | apply R_panic].
  - apply R_Struct.
  - destruct t; simpl; try apply R_panic; try apply R_ret;
      unfold nil_receiver_accept; auto with walk.
Qed.

Lemma R_VisitFunc node : R (VisitFunc node visitor) (VisitFunc node visitor').
Proof.
  unfold VisitFunc. destruct node; simpl; try apply R_ret.
  - apply (R_accept (by_value v)).
  - apply (R_accept (pointer_to v)).
  - apply (R_accept (nil_pointer t)).
Qed.

End Structure.


(** *** The typed layer under a journal *)

Section Typed.

Context {St : Type}.
Variable v : Visitor St.

(** The methods of the visitor with a journal are those of the visitor,
    recorded. *)
Lemma type_switch_logged (node : Node) :
  match type_switch (logged v) node, type_switch v node with
  | Some call', Some call =>
      exists n, forall st,
        call' st = match call (fst st) with
                   | Done r s' => Done r (s', snd st ++ [(n, r)])
                   | Panic msg s' => Panic msg (s', snd st)
                   end
  | None, None => True
  | _, _ => False
  end.
Proof.
  destruct node as [|n|n|t]; simpl; auto;
    destruct n as [| | | | | | | | | | | | | | | | | | | | | | | |x]; simpl; auto;
    try (eexists; intros st; reflexivity);
    destruct x as [[] pos text children]; simpl; auto;
    eexists; intros st; reflexivity.
Qed.

Lemma quiet_snoc j n r :
  quiet j -> r = None \/ r = Some TerminateRecursion -> quiet (j ++ [(n, r)]).
Proof.
  intros Hj Hr. apply Forall_app. split; [exact Hj|].
  constructor; [exact Hr | constructor].
Qed.

Lemma well_behaved_ret : well_behaved St (ret None) (ret None).
Proof. intros st. split; [reflexivity | intros H; exact H]. Qed.

Lemma well_behaved_panic msg : well_behaved St (panic msg) (panic msg).
Proof. intros st. split; [reflexivity | intros H; exact H]. Qed.

Lemma well_behaved_and_then a a' b b' :
  well_behaved St a a' -> well_behaved St b b' -> well_behaved St (a ;; b) (a' ;; b').
Proof.
  intros Ha Hb st. destruct (Ha st) as [Hae Haf].
  unfold and_then, bind.
  destruct (a st) as [[e|] st1|msg st1]; simpl in Hae; rewrite <- Hae; simpl.
  - split; [reflexivity | exact Haf].
  - destruct (Hb st1) as [Hbe Hbf]. split; [exact Hbe|].
    intros Hq. apply Hbf. apply (Haf Hq).
  - split; [reflexivity | exact Haf].
Qed.

Lemma well_behaved_visit node k k' :
  (forall e, k (Some e) = ret (Some e)) ->
  (forall e, k' (Some e) = ret (Some e)) ->
  well_behaved St (k None) (k' None) ->
  well_behaved St (typed_visit (logged v) node k) (typed_visit v node k').
Proof.
  intros Hk Hk' Hnone st. unfold typed_visit.
  destruct (is_nil node); [apply well_behaved_ret|].
  pose proof (type_switch_logged node) as Hts.
  destruct (type_switch (logged v) node) as [call'|], (type_switch v node) as [call|];
    try contradiction; [|apply well_behaved_panic].
  destruct Hts as [n Hcall]. unfold bind. rewrite Hcall.
  destruct (call (fst st)) as [r s1|msg s1]; simpl.
  - destruct r as [[|msg]|]; simpl.
    + split; [reflexivity|]. intros Hq. simpl. apply quiet_snoc; auto.
    + rewrite Hk, Hk'. split; [reflexivity|]. intros Hq. simpl.
      split; [discriminate|]. exists (snd st), n. split; [reflexivity | exact Hq].
    + destruct (Hnone (s1, snd st ++ [(n, None)])) as [He Hf].
      split; [exact He|]. intros Hq. apply Hf. simpl. apply quiet_snoc; auto.
  - split; [reflexivity | intros Hq; exact Hq].
Qed.

(** The walk of [Visit] with the journal is the walk without it, and its
    journal is faithful. *)
Lemma Visit_well_behaved (node : Node) :
  well_behaved St (Visit node (logged v)) (Visit node v).
Proof.
  unfold Visit.
  apply (R_VisitFunc (typed_visit (logged v)) (typed_visit v) (well_behaved St)).
  - apply well_behaved_ret.
  - apply well_behaved_panic.
  - apply well_behaved_and_then.
  - apply well_behaved_visit.
Qed.

End Typed.

(** *** Pruning and aborting *)

Lemma node_of_not_nil (n : Struct) : is_nil (node_of n) = false.
Proof. unfold node_of. destruct (value_receiver _); reflexivity. Qed.

Lemma ExprNode_node_of (x : ExprNode) : ExprNode_node x = node_of (S_ExprNode x).
Proof. destruct x as [[] pos text children]; reflexivity. Qed.

(** [accept] hands its receiver to the visitor. *)
Lemma Struct_accept_hands_node {St : Type} (visitor : VisitorFunc St) (n : Struct) :
  exists k, Struct_accept visitor n = visitor (node_of n) k.
Proof.
  destruct n as [| n | | | n | n | n | | n | n | n | n | n | | n | | | | n | n | | | | | n];
    try (eexists; reflexivity);
    try (destruct n; eexists; reflexivity).
  destruct n as [[] pos text children]; eexists; reflexivity.
Qed.

(** [VisitFunc] on the node of a struct is its [accept]. *)
Lemma accept_node_of {St : Type} (visitor : VisitorFunc St) (n : Struct) :
  VisitFunc (node_of n) visitor = Struct_accept visitor n.
Proof.
  unfold VisitFunc, node_of.
  destruct (value_receiver (TypeName_of n)) eqn:E; simpl; [rewrite E|]; reflexivity.
Qed.

(** A loop over two runs of siblings. *)
Lemma each_app {St A : Type} (f : A -> M St (option error)) (l1 l2 : list A) (s : St) :
  each f (l1 ++ l2) s = (each f l1 ;; each f l2) s.
Proof.
  revert s. induction l1 as [|x l1 IH]; intros s; simpl.
  - reflexivity.
  - unfold and_then, bind in *. destruct (f x s) as [[e|] s'|msg s']; auto.
Qed.

(** The sentinel ends the visit of a node before its continuation runs. *)
Lemma typed_visit_prunes {St : Type} (v : Visitor St) (node : Node) (next : Next St)
    (call : M St (option error)) (s s1 : St) :
  is_nil node = false ->
  type_switch v node = Some call ->
  call s = Done (Some TerminateRecursion) s1 ->
  typed_visit v node next s = Done None s1.
Proof.
  intros Hnil Hts Hcall. unfold typed_visit. rewrite Hnil, Hts.
  unfold bind. rewrite Hcall. reflexivity.
Qed.

(** A method that returns nil lets the continuation run. *)
Lemma typed_visit_proceeds {St : Type} (v : Visitor St) (node : Node) (next : Next St)
    (call : M St (option error)) (s s1 : St) :
  is_nil node = false ->
  type_switch v node = Some call ->
  call s = Done None s1 ->
  typed_visit v node next s = next None s1.
Proof.
  intros Hnil Hts Hcall. unfold typed_visit. rewrite Hnil, Hts.
  unfold bind. rewrite Hcall. reflexivity.
Qed.

(** [Visit] on a node whose method returns the sentinel: the method is the
    only call, and the result is nil. *)
Lemma Visit_prunes {St : Type} (v : Visitor St) (n : Struct)
    (call : M St (option error)) (s s1 : St) :
  type_switch v (node_of n) = Some call ->
  call s = Done (Some TerminateRecursion) s1 ->
  Visit (node_of n) v s = Done None s1.
Proof.
  intros Hts Hcall. unfold Visit. rewrite accept_node_of.
  destruct (Struct_accept_hands_node (typed_visit v) n) as [k Hk]. rewrite Hk.
  apply (typed_visit_prunes v _ k call); auto using node_of_not_nil.
Qed.

(** A pruned class among the root declarations: the walk goes on with the
    declarations after it, from the state in which [VisitClassDecl] returned. *)
Lemma Visit_continues_after_pruned_class {St : Type} (v : Visitor St)
    (a : AST) (before after : list RootDecl) (r : RootDecl) (c : ClassDecl)
    (s0 s1 s2 s3 s4 : St) :
  AST_Declarations a = before ++ r :: after ->
  RootDecl_Class r = Some c ->
  VisitAST v a s0 = Done None s1 ->
  each (fun d => Visit (pointer_to (S_RootDecl d)) v) before s1 = Done None s2 ->
  VisitRootDecl v r s2 = Done None s3 ->
  VisitClassDecl v c s3 = Done (Some TerminateRecursion) s4 ->
  Visit (pointer_to (S_AST a)) v s0
  = each (fun d => Visit (pointer_to (S_RootDecl d)) v) after s4.
Proof.
  intros Hdecls Hclass HAST Hbefore Hroot Hprune.
  change (AST_accept (typed_visit v) a s0
          = each (RootDecl_accept (typed_visit v)) after s4).
  change (each (RootDecl_accept (typed_visit v)) before s1 = Done None s2) in Hbefore.
  unfold AST_accept.
  rewrite (typed_visit_proceeds v _ _ (VisitAST v a) s0 s1); auto.
  simpl proceed. rewrite Hdecls, each_app.
  unfold and_then at 1, bind. rewrite Hbefore.
  simpl each. unfold and_then at 1, bind.
  assert (Hr : RootDecl_accept (typed_visit v) r s2 = Done None s4).
  { unfold RootDecl_accept.
    rewrite (typed_visit_proceeds v _ _ (VisitRootDecl v r) s2 s3); auto.
    simpl proceed. unfold RootDecl_Decl. rewrite Hclass. simpl visit_resolved.
    destruct c as [pos ty members].
    apply (typed_visit_prunes v _ _ (VisitClassDecl v (mkClassDecl pos ty members)));
      auto. }
  rewrite Hr. reflexivity.
Qed.

(** An entry with an error other than the sentinel is the last one of a
    journal that is quiet before its last entry. *)
Lemma journal_tail (pre post pre' : journal) (n n' : Node) (e e' : error) :
  pre ++ (n, Some e) :: post = pre' ++ [(n', Some e')] ->
  quiet pre' ->
  e <> TerminateRecursion ->
  post = [] /\ (n, e) = (n', e').
Proof.
  intros Heq Hq He.
  destruct post as [|x post].
  - apply app_inj_tail in Heq. destruct Heq as [_ Heq].
    inversion Heq. auto.
  - exfalso.
    destruct (@exists_last _ (x :: post)) as [l' [y Hl]]; [discriminate|].
    rewrite Hl in Heq.
    change (pre ++ ((n, Some e) :: l') ++ [y] = pre' ++ [(n', Some e')]) in Heq.
    rewrite app_assoc in Heq.
    apply app_inj_tail in Heq. destruct Heq as [Heq _]. subst pre'.
    apply Forall_app in Hq. destruct Hq as [_ Hq].
    inversion Hq as [|? ? Hgo _]; subst.
    destruct Hgo as [Hgo|Hgo]; simpl in Hgo; [discriminate|].
    inversion Hgo. contradiction.
Qed.

Lemma quiet_no_failure (j pre post : journal) (n : Node) (e : error) :
  quiet j -> j = pre ++ (n, Some e) :: post -> e <> TerminateRecursion -> False.
Proof.
  intros Hq Heq He. subst j.
  apply Forall_app in Hq. destruct Hq as [_ Hq].
  inversion Hq as [|? ? Hgo _]; subst.
  destruct Hgo as [Hgo|Hgo]; simpl in Hgo; [discriminate|].
  inversion Hgo. contradiction.
Qed.

(** Any error but the sentinel aborts the walk and is what [Visit]
    returns. *)
Lemma Visit_aborts {St : Type} (v : Visitor St) (node : Node) (s : St) :
  erase (Visit node (logged v) (s, [])) = Visit node v s /\
  (forall e s', Visit node v s = Done (Some e) s' -> e <> TerminateRecursion) /\
  (forall pre n e post,
      journal_of (Visit node (logged v) (s, [])) = pre ++ (n, Some e) :: post ->
      e <> TerminateRecursion ->
      post = [] /\ exists s', Visit node v s = Done (Some e) s').
Proof.
  destruct (Visit_well_behaved v node (s, [])) as [Herase Hfaithful].
  simpl in Herase. specialize (Hfaithful (Forall_nil _)).
  split; [exact Herase|]. rewrite <- Herase.
  destruct (Visit node (logged v) (s, [])) as [[e|] st|msg st]; simpl in *.
  - destruct Hfaithful as [Hne (pre' & n' & Hj & Hq)]. split.
    + intros e0 s' H. inversion H; subst. exact Hne.
    + intros pre n e0 post Heq He0. rewrite Hj in Heq. symmetry in Heq.
      destruct (journal_tail _ _ _ _ _ _ _ Heq Hq He0) as [Hpost He].
      inversion He; subst. eauto.
  - split; [discriminate|].
    intros pre n e post Heq He. exfalso. eapply quiet_no_failure; eauto.
  - split; [discriminate|].
    intros pre n e post Heq He. exfalso. eapply quiet_no_failure; eauto.
Qed.

(** C2: for every typed visitor [v],
    - on a node whose method returns [TerminateRecursion], [Visit] makes that
      one call and returns nil: the children are not visited and the sentinel
      is not returned;
    - when the pruned node is a class among the root declarations, the walk
      of the tree goes on with the sibling declarations after it;
    - on every node, the walk of [v] is the walk of [v] with a journal, [Visit]
      never returns the sentinel, and a method call that returns any other
      non-nil error is the last call of the walk, [Visit] returning exactly
      that error. *)
Theorem C2_sentinel_prunes_and_errors_abort :
  forall (St : Type) (v : Visitor St),
    (forall (n : Struct) (call : M St (option error)) (s s1 : St),
        type_switch v (node_of n) = Some call ->
        call s = Done (Some TerminateRecursion) s1 ->
        Visit (node_of n) v s = Done None s1) /\
    (forall (a : AST) (before after : list RootDecl) (r : RootDecl) (c : ClassDecl)
            (s0 s1 s2 s3 s4 : St),
        AST_Declarations a = before ++ r :: after ->
        RootDecl_Class r = Some c ->
        VisitAST v a s0 = Done None s1 ->
        each (fun d => Visit (pointer_to (S_RootDecl d)) v) before s1 = Done None s2 ->
        VisitRootDecl v r s2 = Done None s3 ->
        VisitClassDecl v c s3 = Done (Some TerminateRecursion) s4 ->
        Visit (pointer_to (S_AST a)) v s0
        = each (fun d => Visit (pointer_to (S_RootDecl d)) v) after s4) /\
    (forall (node : Node) (s : St),
        erase (Visit node (logged v) (s, [])) = Visit node v s /\
        (forall e s', Visit node v s = Done (Some e) s' -> e <> TerminateRecursion) /\
        (forall pre n e post,
            journal_of (Visit node (logged v) (s, [])) = pre ++ (n, Some e) :: post ->
            e <> TerminateRecursion ->
            post = [] /\ exists s', Visit node v s = Done (Some e) s')).
Proof.
  intros St v. split; [|split].
  - apply Visit_prunes.
  - apply Visit_continues_after_pruned_class.
  - apply Visit_aborts.
Qed.

(** The picky visitor on a class, and on the program of four declarations:
    the class is pruned, its siblings are visited, and the import aborts the
    walk. *)
Lemma C2_witness :
  Visit (node_of (S_ClassDecl class_C)) picky_visitor 0 = Done None 1 /\
  Visit (pointer_to (S_AST four_declarations)) picky_visitor 0
  = each (fun d => Visit (pointer_to (S_RootDecl d)) picky_visitor)
      [root_enum; root_import; root_class] 3 /\
  exists s', Visit (pointer_to (S_AST four_declarations)) picky_visitor 0
             = Done (Some (Failure "no imports")) s'.
Proof.
  destruct (C2_sentinel_prunes_and_errors_abort nat picky_visitor) as (H1 & H2 & H3).
  split; [|split].
  - apply (H1 (S_ClassDecl class_C) (VisitClassDecl picky_visitor class_C) 0 1);
      reflexivity.
  - apply (H2 four_declarations [] [root_enum; root_import; root_class] root_class
              class_C 0 1 1 2 3); reflexivity.
  - destruct (H3 (pointer_to (S_AST four_declarations)) 0) as (_ & _ & H).
    apply (H (removelast
                (journal_of (Visit (pointer_to (S_AST four_declarations))
                               (logged picky_visitor) (0, []))))
             (pointer_to (S_ImportDecl import_m)) (Failure "no imports") []);
      [vm_compute; reflexivity | discriminate].
Defined.

(** *** Absent children *)

Section Unobstructed.

Context {St : Type}.

Lemma unobstructed_ret : unobstructed (St := St) (ret None).
Proof. intros s. left. reflexivity. Qed.

Lemma unobstructed_panic msg : unobstructed (St := St) (panic msg).
Proof. intros s. right. eexists. reflexivity. Qed.

Lemma unobstructed_and_then (a b : M St (option error)) :
  unobstructed a -> unobstructed b -> unobstructed (a ;; b).
Proof.
  intros Ha Hb s. unfold and_then, bind.
  destruct (Ha s) as [H|[msg H]]; rewrite H.
  - apply Hb.
  - right. eexists. reflexivity.
Qed.

(** The methods of the default visitor return nil. *)
Lemma type_switch_default (node : Node) (call : M St (option error)) :
  type_switch (DefaultVisitor St) node = Some call -> call = ret None.
Proof.
  destruct node as [|n|n|t]; simpl; try discriminate;
    destruct n as [| | | | | | | | | | | | | | | | | | | | | | | |x]; simpl;
    try discriminate; try (intros H; inversion H; reflexivity);
    destruct x as [[] pos text children]; simpl;
    try discriminate; intros H; inversion H; reflexivity.
Qed.

Lemma unobstructed_default (node : Node) (k : Next St) :
  unobstructed (k None) -> unobstructed (typed_visit (DefaultVisitor St) node k).
Proof.
  intros Hk. unfold typed_visit.
  destruct (is_nil node); [apply unobstructed_ret|].
  destruct (type_switch (DefaultVisitor St) node) as [call|] eqn:E;
    [|apply unobstructed_panic].
  rewrite (type_switch_default _ _ E). exact Hk.
Qed.

(** Under a visitor that always proceeds, a walk completes with nil or
    panics; it changes no state. *)
Lemma unobstructed_walk (visitor : VisitorFunc St) (node : Node) :
  (forall n k, unobstructed (k None) -> unobstructed (visitor n k)) ->
  unobstructed (VisitFunc node visitor).
Proof.
  intros Hv.
  apply (R_VisitFunc (St' := St) visitor visitor (fun w _ => unobstructed w)).
  - apply unobstructed_ret.
  - apply unobstructed_panic.
  - intros a _ b _. apply unobstructed_and_then.
  - intros n k _ _ _ Hk. apply Hv. exact Hk.
Qed.

(** After its condition and its block, the walk of an [IfStmt] without else
    arrives at the nil pointer and panics. *)
Lemma absent_else_panics (visitor : VisitorFunc St) (pos : Position)
    (cond : option ExprNode) (main : option Block) (s : St) :
  (forall n k, unobstructed (k None) -> unobstructed (visitor n k)) ->
  (forall i k, visitor (by_value (S_IfStmt i)) k = k None) ->
  exists msg,
    VisitFunc (by_value (S_IfStmt (mkIfStmt pos cond main None))) visitor s = Panic msg s.
Proof.
  intros Hv Hif.
  assert (Hun : forall node, unobstructed (VisitFunc node visitor)).
  { intros node. apply unobstructed_walk. exact Hv. }
  assert (Hc : unobstructed (VisitFunc_expr visitor cond)).
  { destruct cond as [x|]; [|apply unobstructed_ret].
    exact (Hun (pointer_to (S_ExprNode x))). }
  assert (Hm : unobstructed (VisitFunc_value_receiver (Block_accept visitor) main)).
  { destruct main as [b|]; [|apply unobstructed_panic].
    exact (Hun (by_value (S_Block b))). }
  unfold VisitFunc. simpl. rewrite Hif. simpl.
  unfold and_then, bind.
  destruct (Hc s) as [H|[msg H]]; rewrite H; [|eauto].
  destruct (Hm s) as [H'|[msg H']]; rewrite H'; [|eauto].
  simpl. eauto.
Qed.

(** A walk of an expression tree under a visitor that proceeds at every
    node completes. *)
Lemma ExprNode_accept_completes (visitor : VisitorFunc St) (x : ExprNode) :
  (forall y k, visitor (ExprNode_node y) k = k None) ->
  forall s, ExprNode_accept visitor x s = Done None s.
Proof.
  intros Hv. induction x as [kind pos text children IH]. intros s.
  simpl. rewrite Hv. simpl.
  induction IH as [|y Hy l Hl IHl]; simpl; [reflexivity|].
  unfold and_then, bind. rewrite Hy. exact IHl.
Qed.

Lemma default_visit_ExprNode (y : ExprNode) (k : Next St) :
  typed_visit (DefaultVisitor St) (ExprNode_node y) k = k None.
Proof. destruct y as [[] pos text children]; reflexivity. Qed.

End Unobstructed.

(** C3: an [IfStmt] whose [Else] block is absent. Whatever its condition and
    its block are, the raw traversal (under a visitor that always proceeds)
    and the typed traversal (under the default visitor) do not complete: the
    nil pointer in the [Else] slot is not the nil interface, [VisitFunc] calls
    [accept] through it, and the value receiver of [Block.accept] cannot be
    read from it. For [if c { }] the panic is that of the nil receiver. *)
Theorem C3_absent_else_panics :
  forall (St : Type) (pos p1 : Position) (cond : option ExprNode) (main : option Block)
         (c : ExprNode) (s : St),
    (exists msg,
       VisitFunc (by_value (S_IfStmt (mkIfStmt pos cond main None))) always_next s
       = Panic msg s) /\
    (exists msg,
       Visit (by_value (S_IfStmt (mkIfStmt pos cond main None))) (DefaultVisitor St) s
       = Panic msg s) /\
    VisitFunc (pointer_to (S_IfStmt (if_without_else pos p1 c))) always_next s
    = Panic nil_receiver_panic s /\
    Visit (pointer_to (S_IfStmt (if_without_else pos p1 c))) (DefaultVisitor St) s
    = Panic nil_receiver_panic s.
Proof.
  intros St pos p1 cond main c s. repeat split.
  - apply absent_else_panics.
    + intros n k Hk. exact Hk.
    + reflexivity.
  - apply absent_else_panics.
    + intros n k Hk. apply unobstructed_default. exact Hk.
    + reflexivity.
  - change (IfStmt_accept always_next (if_without_else pos p1 c) s
            = Panic nil_receiver_panic s).
    unfold if_without_else. cbn [IfStmt_accept]. unfold always_next at 1.
    cbn [proceed VisitFunc_expr]. unfold and_then, bind.
    rewrite (ExprNode_accept_completes always_next c) by reflexivity.
    reflexivity.
  - change (IfStmt_accept (typed_visit (DefaultVisitor St)) (if_without_else pos p1 c) s
            = Panic nil_receiver_panic s).
    unfold if_without_else. cbn [IfStmt_accept].
    change (typed_visit (DefaultVisitor St) (by_value (S_IfStmt ?i)) ?k) with (k None).
    cbn [proceed VisitFunc_expr]. unfold and_then, bind.
    rewrite (ExprNode_accept_completes (typed_visit (DefaultVisitor St)) c)
      by (intros; apply default_visit_ExprNode).
    reflexivity.
Qed.

(** *** The order of a walk *)

Section Order.

Context {St : Type}.

Local Abbreviation recorder := (logged (DefaultVisitor St)).

Lemma recorder_ExprNode (x : ExprNode) (k : Next (St * journal)) (s : St) (j : journal) :
  typed_visit recorder (ExprNode_node x) k (s, j)
  = k None (s, j ++ [(ExprNode_node x, None)]).
Proof. destruct x as [[] pos text children]; reflexivity. Qed.

(** The journal of the walk of an expression tree lists its nodes, each
    before its children, the children in order. *)
Lemma ExprNode_journal (x : ExprNode) :
  forall (s : St) (j : journal),
    ExprNode_accept (typed_visit recorder) x (s, j)
    = Done None (s, j ++ entries (expr_nodes x)).
Proof.
  induction x as [kind pos text children IH]. intros s j.
  cbn [ExprNode_accept]. rewrite recorder_ExprNode. cbn [proceed expr_nodes].
  unfold entries. cbn [map]. 
  change (j ++ (ExprNode_node (mkExprNode kind pos text children), None)
               :: map (fun n => (n, @None error)) (flat_map expr_nodes children))
    with (j ++ [(ExprNode_node (mkExprNode kind pos text children), None)]
            ++ entries (flat_map expr_nodes children)).
  rewrite app_assoc.
  generalize (j ++ [(ExprNode_node (mkExprNode kind pos text children), @None error)]).
  induction IH as [|y Hy l Hl IHl]; intros j'; simpl.
  - rewrite app_nil_r. reflexivity.
  - unfold and_then, bind. rewrite Hy, IHl.
    unfold entries. rewrite map_app, app_assoc. reflexivity.
Qed.

(** One step of [accept] on the nodes of a conditional. *)
Lemma IfStmt_accept_eq {T : Type} (visitor : VisitorFunc T) pos c m e :
  IfStmt_accept visitor (mkIfStmt pos c m e)
  = visitor (by_value (S_IfStmt (mkIfStmt pos c m e)))
      (proceed (VisitFunc_expr visitor c ;;
                VisitFunc_value_receiver (Block_accept visitor) m ;;
                VisitFunc_value_receiver (Block_accept visitor) e ;;
                ret None)).
Proof. reflexivity. Qed.

Lemma Block_accept_eq {T : Type} (visitor : VisitorFunc T) pos ss :
  Block_accept visitor (mkBlock pos ss)
  = visitor (by_value (S_Block (mkBlock pos ss))) (proceed (each (Stmt_accept visitor) ss)).
Proof. reflexivity. Qed.

Lemma Stmt_accept_expression {T : Type} (visitor : VisitorFunc T) pos x :
  Stmt_accept visitor (expression_stmt pos x)
  = visitor (by_value (S_Stmt (expression_stmt pos x))) (proceed (ExprNode_accept visitor x)).
Proof. reflexivity. Qed.

Lemma recorder_IfStmt (i : IfStmt) (k : Next (St * journal)) (s : St) (j : journal) :
  typed_visit recorder (by_value (S_IfStmt i)) k (s, j)
  = k None (s, j ++ [(by_value (S_IfStmt i), None)]).
Proof. reflexivity. Qed.

Lemma recorder_Block (b : Block) (k : Next (St * journal)) (s : St) (j : journal) :
  typed_visit recorder (by_value (S_Block b)) k (s, j)
  = k None (s, j ++ [(by_value (S_Block b), None)]).
Proof. reflexivity. Qed.

Lemma recorder_Stmt (n : Stmt) (k : Next (St * journal)) (s : St) (j : journal) :
  typed_visit recorder (by_value (S_Stmt n)) k (s, j)
  = k None (s, j ++ [(by_value (S_Stmt n), None)]).
Proof. reflexivity. Qed.

(** The walk of a block that holds one expression statement. *)
Lemma expression_block_journal pos p (x : ExprNode) (s : St) (j : journal) :
  Block_accept (typed_visit recorder) (mkBlock pos [expression_stmt p x]) (s, j)
  = Done None
      (s, j ++ entries ([by_value (S_Block (mkBlock pos [expression_stmt p x]));
                         by_value (S_Stmt (expression_stmt p x))] ++ expr_nodes x)).
Proof.
  rewrite Block_accept_eq, recorder_Block. cbn [proceed each].
  unfold and_then, bind.
  rewrite Stmt_accept_expression, recorder_Stmt. cbn [proceed].
  rewrite ExprNode_journal. unfold ret.
  unfold entries. cbn [map app]. rewrite <- !app_assoc. reflexivity.
Qed.

End Order.

(** C7: the typed visitor that records its calls, on the conditional
    [if cond { a } else { b }]: after the method for the [IfStmt] itself, the
    calls are those for the condition, then those for the then-block and its
    statement [a], then those for the else-block and its statement [b]. *)
Theorem C7_if_else_visit_order :
  forall (St : Type) (pos p1 p2 p3 p4 : Position) (cond a b : ExprNode) (s : St),
    let main := mkBlock p1 [expression_stmt p2 a] in
    let else_ := mkBlock p3 [expression_stmt p4 b] in
    Visit (by_value (S_IfStmt (if_else pos p1 p2 p3 p4 cond a b)))
      (logged (DefaultVisitor St)) (s, [])
    = Done None
        (s, entries
              ([by_value (S_IfStmt (if_else pos p1 p2 p3 p4 cond a b))]
               ++ expr_nodes cond
               ++ [by_value (S_Block main); by_value (S_Stmt (expression_stmt p2 a))]
               ++ expr_nodes a
               ++ [by_value (S_Block else_); by_value (S_Stmt (expression_stmt p4 b))]
               ++ expr_nodes b)).
Proof.
  intros St pos p1 p2 p3 p4 cond a b s main else_.
  change (IfStmt_accept (typed_visit (logged (DefaultVisitor St)))
            (if_else pos p1 p2 p3 p4 cond a b) (s, []) =
          Done None
        (s, entries
              ([by_value (S_IfStmt (if_else pos p1 p2 p3 p4 cond a b))]
               ++ expr_nodes cond
               ++ [by_value (S_Block main); by_value (S_Stmt (expression_stmt p2 a))]
               ++ expr_nodes a
               ++ [by_value (S_Block else_); by_value (S_Stmt (expression_stmt p4 b))]
               ++ expr_nodes b))).
  subst main else_. unfold if_else.
  rewrite IfStmt_accept_eq, recorder_IfStmt.
  cbn [proceed VisitFunc_expr VisitFunc_value_receiver]. unfold and_then, bind.
  rewrite ExprNode_journal, !expression_block_journal. unfold ret.
  unfold entries. rewrite !map_app. cbn [map app]. rewrite <- !app_assoc.
  reflexivity.
Qed.

(* ------------------------------------------------------------------ *)
(** ** Properties of the grammar *)

Module GrammarFacts.

Import Lexer Grammar.
Local Open Scope parse_scope.

(** *** The primitives *)

Section Combinators.

Context {A B : Type}.

Lemma palt_ok (p q : P A) ts a rest :
  palt p q ts = Ok a rest ->
  p ts = Ok a rest \/ (is_fail (p ts) = true /\ q ts = Ok a rest).
Proof.
  unfold palt. destruct (p ts) as [a' r'|d|]; try discriminate.
  - intros H; left; exact H.
  - destruct (q ts) as [a' r'|d'|]; try discriminate.
    intros H; right; split; [reflexivity | exact H].
Qed.

Lemma palt_first (p q : P A) ts a rest :
  p ts = Ok a rest -> palt p q ts = Ok a rest.
Proof. unfold palt. intros ->. reflexivity. Qed.

Lemma palt_fail (p q : P A) ts :
  is_fail (p ts) = true -> is_fail (q ts) = true -> is_fail (palt p q ts) = true.
Proof.
  unfold palt. destruct (p ts); try discriminate. destruct (q ts); try discriminate.
  reflexivity.
Qed.

Lemma palt_skip (p q : P A) ts a rest :
  is_fail (p ts) = true -> q ts = Ok a rest -> palt p q ts = Ok a rest.
Proof.
  unfold palt. destruct (p ts); try discriminate. intros _ ->. reflexivity.
Qed.

Lemma pbind_ok (p : P A) (k : A -> P B) ts b rest :
  pbind p k ts = Ok b rest -> exists a mid, p ts = Ok a mid /\ k a mid = Ok b rest.
Proof.
  unfold pbind. destruct (p ts) as [a mid|d|]; try discriminate. eauto.
Qed.

Lemma pbind_fail (p : P A) (k : A -> P B) ts :
  is_fail (p ts) = true -> is_fail (pbind p k ts) = true.
Proof. unfold pbind. destruct (p ts); try discriminate. reflexivity. Qed.

Lemma wrap_ok (p : P A) (f : A -> B) ts b rest :
  (x <- p ;; pret (f x)) ts = Ok b rest -> exists a, p ts = Ok a rest /\ b = f a.
Proof.
  intros H. apply pbind_ok in H. destruct H as (a & mid & Hp & Hk).
  inversion Hk; subst. eauto.
Qed.

Lemma wrap_is_fail (p : P A) (f : A -> B) ts :
  is_fail ((x <- p ;; pret (f x)) ts) = is_fail (p ts).
Proof. unfold pbind, pret. destruct (p ts); reflexivity. Qed.

End Combinators.

(** A repetition whose first iteration fails matches nothing. *)
Lemma many_loop_stops {A : Type} (p : P A) n ts :
  is_fail (p ts) = true -> many_loop p n ts = Ok [] ts.
Proof. destruct n; simpl; [reflexivity|]. destruct (p ts); try discriminate. reflexivity. Qed.

Lemma many_stops {A : Type} (p : P A) ts :
  is_fail (p ts) = true -> many p ts = Ok [] ts.
Proof. apply many_loop_stops. Qed.

Lemma tok_fails_off_kind k ts :
  match ts with t :: _ => TokenKind_eqb (Type_ t) k | [] => false end = false ->
  is_fail (tok k ts) = true.
Proof. destruct ts as [|t ts]; simpl; [reflexivity|]. intros ->. reflexivity. Qed.

(** The modifiers before a declaration are consumed, and nothing more. *)
Lemma many_modifiers (mods ts : list Token) :
  all_modifiers mods = true ->
  starts_with_modifier ts = false ->
  forall n, List.length mods <= n ->
  many_loop (tok Modifier) n (mods ++ ts) = Ok (map Value mods) ts.
Proof.
  intros Hm Hts. induction mods as [|m mods IH]; intros n Hn.
  - simpl. apply many_loop_stops. apply tok_fails_off_kind. exact Hts.
  - simpl in Hm. apply andb_true_iff in Hm. destruct Hm as [Hm Hms].
    destruct n as [|n]; [simpl in Hn; lia|].
    simpl. rewrite Hm.
    replace (Nat.ltb (List.length (mods ++ ts)) (S (List.length (mods ++ ts)))) with true
      by (symmetry; apply Nat.ltb_lt; lia).
    rewrite IH; [reflexivity | exact Hms | simpl in Hn; lia].
Qed.

Lemma many_modifiers_all (mods ts : list Token) :
  all_modifiers mods = true ->
  starts_with_modifier ts = false ->
  many (tok Modifier) (mods ++ ts) = Ok (map Value mods) ts.
Proof.
  intros Hm Hts. apply many_modifiers; auto. rewrite length_app. lia.
Qed.

(** A rule that begins with a literal. *)
Lemma keyword_rule_ok {A : Type} eof (v : string) (k : Position -> P A) ts a rest :
  (pos <- here eof ;; lit v ;; k pos) ts = Ok a rest -> first_value ts = Some v.
Proof.
  unfold pbind, here, lit. destruct ts as [|t ts]; [discriminate|].
  simpl. destruct (String.eqb (Value t) v) eqn:E; [|discriminate].
  apply String.eqb_eq in E. intros _. congruence.
Qed.

Lemma keyword_rule_fail {A : Type} eof (v : string) (k : Position -> P A) ts :
  first_value ts <> Some v -> is_fail ((pos <- here eof ;; lit v ;; k pos) ts) = true.
Proof.
  unfold pbind, here, lit. destruct ts as [|t ts]; [reflexivity|].
  simpl. destruct (String.eqb (Value t) v) eqn:E; [|reflexivity].
  apply String.eqb_eq in E. intros H. exfalso. apply H. congruence.
Qed.

Section RootDeclFacts.

Variable parse_Expr : P ExprNode.
Variable parse_Reference : P ExprNode.
Variable eof : Position.

Local Abbreviation p_Class := (parse_ClassDecl parse_Expr parse_Reference eof).
Local Abbreviation p_Enum := (parse_EnumDecl parse_Expr parse_Reference eof).
Local Abbreviation p_Func := (parse_FuncDecl parse_Expr parse_Reference eof).
Local Abbreviation p_Var := (parse_VarDecl parse_Expr parse_Reference eof).
Local Abbreviation p_Import := (parse_ImportDecl eof).

(** *** The leading keywords of the declarations *)


Lemma ClassDecl_other fuel ts :
  first_value ts <> Some "class" -> is_fail (p_Class (S fuel) ts) = true.
Proof. cbn [parse_ClassDecl]. unfold ClassDecl_rule. apply keyword_rule_fail. Qed.

Lemma EnumDecl_keyword fuel ts e rest :
  p_Enum fuel ts = Ok e rest -> first_value ts = Some "enum".
Proof.
  destruct fuel; [discriminate|]. cbn [parse_EnumDecl]. unfold EnumDecl_rule.
  apply keyword_rule_ok.
Qed.

Lemma EnumDecl_other fuel ts :
  first_value ts <> Some "enum" -> is_fail (p_Enum (S fuel) ts) = true.
Proof. cbn [parse_EnumDecl]. unfold EnumDecl_rule. apply keyword_rule_fail. Qed.

Lemma FuncDecl_keyword fuel ts f rest :
  p_Func fuel ts = Ok f rest -> first_value ts = Some "fn".
Proof.
  destruct fuel; [discriminate|]. cbn [parse_FuncDecl]. unfold FuncDecl_rule.
  apply keyword_rule_ok.
Qed.

Lemma FuncDecl_other fuel ts :
  first_value ts <> Some "fn" -> is_fail (p_Func (S fuel) ts) = true.
Proof. cbn [parse_FuncDecl]. unfold FuncDecl_rule. apply keyword_rule_fail. Qed.

Lemma VarDecl_keyword ts v rest :
  p_Var ts = Ok v rest -> first_value ts = Some "let".
Proof. unfold parse_VarDecl. apply keyword_rule_ok. Qed.

Lemma VarDecl_other ts :
  first_value ts <> Some "let" -> is_fail (p_Var ts) = true.
Proof. unfold parse_VarDecl. apply keyword_rule_fail. Qed.

Lemma ImportDecl_keyword ts i rest :
  p_Import ts = Ok i rest -> first_value ts = Some "import".
Proof. unfold parse_ImportDecl. apply keyword_rule_ok. Qed.

Lemma ImportDecl_other ts :
  first_value ts <> Some "import" -> is_fail (p_Import ts) = true.
Proof. unfold parse_ImportDecl. apply keyword_rule_fail. Qed.

(** An arm of [RootDecl] whose terminator is optional. *)
Lemma optional_terminator {A : Type} (p : P A) (f : A -> RootDecl) ts a rest :
  p ts = Ok a rest ->
  (x <- p ;; opt (lit ";") ;; pret (f x)) ts = Ok (f a) (after_optional_semicolon rest).
Proof.
  intros Hp. unfold pbind, opt, lit, pret. rewrite Hp.
  destruct rest as [|t rest]; [reflexivity|]. simpl.
  destruct (String.eqb (Value t) ";"); reflexivity.
Qed.

Lemma optional_terminator_fail {A : Type} (p : P A) (f : A -> RootDecl) ts :
  is_fail (p ts) = true ->
  is_fail ((x <- p ;; opt (lit ";") ;; pret (f x)) ts) = true.
Proof. apply pbind_fail. Qed.

(** The arm of [RootDecl] whose terminator is required. *)
Lemma required_terminator {A : Type} (p : P A) (f : A -> RootDecl) ts a rest :
  p ts = Ok a rest ->
  (x <- p ;; lit ";" ;; pret (f x)) ts
  = if starts_with_semicolon rest then Ok (f a) (tl rest) else Fail rest.
Proof.
  intros Hp. unfold pbind, lit, pret. rewrite Hp.
  destruct rest as [|t rest]; [reflexivity|]. simpl.
  destruct (String.eqb (Value t) ";"); reflexivity.
Qed.

(** [RootDecl] after its modifiers. *)
Lemma RootDecl_after_modifiers fuel mods ts :
  all_modifiers mods = true ->
  starts_with_modifier ts = false ->
  parse_RootDecl parse_Expr parse_Reference eof fuel (mods ++ ts)
  = parse_RootDecl_arms parse_Expr parse_Reference eof fuel
      (next_position eof (mods ++ ts)) (map Value mods) ts.
Proof.
  intros Hm Hts. unfold parse_RootDecl, pbind at 1, here.
  unfold pbind. rewrite many_modifiers_all by assumption. reflexivity.
Qed.

Ltac other_keyword H :=
  rewrite H; intros Heq; inversion Heq.

(** C6: a root declaration after its modifiers. When the rule [VarDecl]
    matches, the root declaration is the [let] declaration if a [;] follows,
    which it consumes, and otherwise it fails, and the program rule then stops
    before it, so that the entry points report a syntax error. When the rule
    of a class, an import, an enum or a function matches, the root
    declaration is that declaration, with or without a [;] after it: one that
    follows is consumed. *)
Theorem C6_root_terminators :
  forall (fuel : nat) (mods ts : list Token),
    all_modifiers mods = true ->
    starts_with_modifier ts = false ->
    let root := parse_RootDecl parse_Expr parse_Reference eof (S fuel) (mods ++ ts) in
    let pos := next_position eof (mods ++ ts) in
    let modifiers := map Value mods in
    (forall v rest,
        p_Var ts = Ok v rest ->
        (starts_with_semicolon rest = true ->
         root = Ok (mkRootDecl pos modifiers None None None (Some v) None) (tl rest)) /\
        (starts_with_semicolon rest = false ->
         is_fail root = true /\
         parse_AST parse_Expr parse_Reference eof (S fuel) (mods ++ ts)
         = Ok (mkAST pos []) (mods ++ ts))) /\
    (forall c rest,
        p_Class (S fuel) ts = Ok c rest ->
        root = Ok (mkRootDecl pos modifiers (Some c) None None None None)
                 (after_optional_semicolon rest)) /\
    (forall i rest,
        p_Import ts = Ok i rest ->
        root = Ok (mkRootDecl pos modifiers None (Some i) None None None)
                 (after_optional_semicolon rest)) /\
    (forall e rest,
        p_Enum (S fuel) ts = Ok e rest ->
        root = Ok (mkRootDecl pos modifiers None None (Some e) None None)
                 (after_optional_semicolon rest)) /\
    (forall f rest,
        p_Func (S fuel) ts = Ok f rest ->
        root = Ok (mkRootDecl pos modifiers None None None None (Some f))
                 (after_optional_semicolon rest)).
Proof.
  intros fuel mods ts Hm Hts root pos modifiers. subst root.
  rewrite (RootDecl_after_modifiers (S fuel) mods ts Hm Hts).
  fold pos modifiers. unfold parse_RootDecl_arms.
  split; [|split; [|split; [|split]]].
  - intros v rest Hv. pose proof (VarDecl_keyword _ _ _ Hv) as Hk. split.
    + intros Hsemi.
      apply palt_skip.
      { apply optional_terminator_fail, ClassDecl_other. other_keyword Hk. }
      apply palt_skip.
      { apply optional_terminator_fail, ImportDecl_other. other_keyword Hk. }
      apply palt_skip.
      { apply optional_terminator_fail, EnumDecl_other. other_keyword Hk. }
      apply palt_first.
      rewrite (required_terminator _
                 (fun v => mkRootDecl pos modifiers None None None (Some v) None)
                 _ _ _ Hv), Hsemi.
      reflexivity.
    + intros Hsemi.
      assert (Hfail : is_fail (parse_RootDecl_arms parse_Expr parse_Reference eof
                                 (S fuel) pos modifiers ts) = true).
      { unfold parse_RootDecl_arms.
        apply palt_fail.
        { apply optional_terminator_fail, ClassDecl_other. other_keyword Hk. }
        apply palt_fail.
        { apply optional_terminator_fail, ImportDecl_other. other_keyword Hk. }
        apply palt_fail.
        { apply optional_terminator_fail, EnumDecl_other. other_keyword Hk. }
        apply palt_fail.
        { rewrite (required_terminator _
                     (fun v => mkRootDecl pos modifiers None None None (Some v) None)
                     _ _ _ Hv), Hsemi.
          reflexivity. }
        apply optional_terminator_fail, FuncDecl_other. other_keyword Hk. }
      split; [exact Hfail|].
      unfold parse_AST, pbind at 1, here. unfold pbind.
      rewrite many_stops; [reflexivity|].
      rewrite (RootDecl_after_modifiers (S fuel) mods ts Hm Hts). exact Hfail.
  - intros c rest Hc. apply palt_first.
    apply (optional_terminator _
             (fun c => mkRootDecl pos modifiers (Some c) None None None None)).
    exact Hc.
  - intros i rest Hi. pose proof (ImportDecl_keyword _ _ _ Hi) as Hk.
    apply palt_skip.
    { apply optional_terminator_fail, ClassDecl_other. other_keyword Hk. }
    apply palt_first.
    apply (optional_terminator _
             (fun i => mkRootDecl pos modifiers None (Some i) None None None)).
    exact Hi.
  - intros e rest He. pose proof (EnumDecl_keyword _ _ _ _ He) as Hk.
    apply palt_skip.
    { apply optional_terminator_fail, ClassDecl_other. other_keyword Hk. }
    apply palt_skip.
    { apply optional_terminator_fail, ImportDecl_other. other_keyword Hk. }
    apply palt_first.
    apply (optional_terminator _
             (fun e => mkRootDecl pos modifiers None None (Some e) None None)).
    exact He.
  - intros f rest Hf. pose proof (FuncDecl_keyword _ _ _ _ Hf) as Hk.
    apply palt_skip.
    { apply optional_terminator_fail, ClassDecl_other. other_keyword Hk. }
    apply palt_skip.
    { apply optional_terminator_fail, ImportDecl_other. other_keyword Hk. }
    apply palt_skip.
    { apply optional_terminator_fail, EnumDecl_other. other_keyword Hk. }
    apply palt_skip.
    { apply pbind_fail, VarDecl_other. other_keyword Hk. }
    apply (optional_terminator _
             (fun f => mkRootDecl pos modifiers None None None None (Some f))).
    exact Hf.
Qed.

End RootDeclFacts.

(** The root declarations [let a], [let a;], [class A { }] and
    [class A { };]. *)
Lemma C6_witness :
  is_fail (parse_RootDecl no_expressions no_expressions (at_ 5) 4 (tokens_of "let a"))
  = true /\
  (exists r, parse_RootDecl no_expressions no_expressions (at_ 6) 4 (tokens_of "let a;")
             = Ok r []) /\
  (exists r, parse_RootDecl no_expressions no_expressions (at_ 11) 4
               (tokens_of "class A { }") = Ok r []) /\
  (exists r, parse_RootDecl no_expressions no_expressions (at_ 12) 4
               (tokens_of "class A { };") = Ok r []).
Proof.
  split; [|split; [|split]].
  - destruct (C6_root_terminators no_expressions no_expressions (at_ 5) 3 []
                (tokens_of "let a") eq_refl eq_refl) as (HVar & _).
    destruct (HVar (mkVarDecl (at_ 0) [mkVarDeclAsgn (at_ 4) "a" None None]) []
                ltac:(vm_compute; reflexivity)) as [_ Hno].
    exact (proj1 (Hno eq_refl)).
  - destruct (C6_root_terminators no_expressions no_expressions (at_ 6) 3 []
                (tokens_of "let a;") eq_refl eq_refl) as (HVar & _).
    destruct (HVar (mkVarDecl (at_ 0) [mkVarDeclAsgn (at_ 4) "a" None None])
                [mkToken Punct ";" (at_ 5)]
                ltac:(vm_compute; reflexivity)) as [Hyes _].
    eexists. exact (Hyes eq_refl).
  - destruct (C6_root_terminators no_expressions no_expressions (at_ 11) 3 []
                (tokens_of "class A { }") eq_refl eq_refl) as (_ & HClass & _).
    eexists.
    exact (HClass (mkClassDecl (at_ 0) (Some (mkTypeDecl (at_ 6) "A" [])) []) []
             ltac:(vm_compute; reflexivity)).
  - destruct (C6_root_terminators no_expressions no_expressions (at_ 12) 3 []
                (tokens_of "class A { };") eq_refl eq_refl) as (_ & HClass & _).
    eexists.
    exact (HClass (mkClassDecl (at_ 0) (Some (mkTypeDecl (at_ 6) "A" [])) [])
             [mkToken Punct ";" (at_ 11)]
             ltac:(vm_compute; reflexivity)).
Defined.

Section StmtFacts.

Variable parse_Expr : P ExprNode.
Variable parse_Reference : P ExprNode.
Variable eof : Position.

(** *** Statements *)

Lemma parse_Stmt_S (fuel : nat) (ts : list Token) :
  parse_Stmt parse_Expr parse_Reference eof (S fuel) ts
  = Stmt_rule parse_Expr parse_Reference eof
      (parse_IfStmt parse_Expr parse_Reference eof fuel)
      (parse_ForStmt parse_Expr parse_Reference eof fuel)
      (parse_SwitchStmt parse_Expr parse_Reference eof fuel)
      (parse_Block parse_Expr parse_Reference eof fuel)
      (parse_FuncDecl parse_Expr parse_Reference eof fuel)
      (parse_ClassDecl parse_Expr parse_Reference eof fuel)
      (parse_EnumDecl parse_Expr parse_Reference eof fuel) ts.
Proof. reflexivity. Qed.

(** C8: a statement that the rule [Stmt] produces has exactly one of its ten
    arms populated, and when that arm is [Expression], each of the nine rules
    before it (Return, If, For, Switch, Block, VarDecl, FuncDecl, ClassDecl,
    EnumDecl) has failed on the same tokens: the expression is what the
    expression rule matched there. *)
Theorem C8_Expression_is_the_last_alternative :
  forall (fuel : nat) (ts : list Token) (s : Stmt) (rest : list Token),
    parse_Stmt parse_Expr parse_Reference eof (S fuel) ts = Ok s rest ->
    Stmt_arms s = 1 /\
    (Stmt_Expression s <> None ->
     is_fail (parse_ReturnStmt parse_Expr eof ts) = true /\
     is_fail (parse_IfStmt parse_Expr parse_Reference eof fuel ts) = true /\
     is_fail (parse_ForStmt parse_Expr parse_Reference eof fuel ts) = true /\
     is_fail (parse_SwitchStmt parse_Expr parse_Reference eof fuel ts) = true /\
     is_fail (parse_Block parse_Expr parse_Reference eof fuel ts) = true /\
     is_fail (parse_VarDecl parse_Expr parse_Reference eof ts) = true /\
     is_fail (parse_FuncDecl parse_Expr parse_Reference eof fuel ts) = true /\
     is_fail (parse_ClassDecl parse_Expr parse_Reference eof fuel ts) = true /\
     is_fail (parse_EnumDecl parse_Expr parse_Reference eof fuel ts) = true /\
     exists x, parse_Expr ts = Ok x rest /\
               s = expression_stmt (next_position eof ts) x).
Proof.
  intros fuel ts s rest H.
  rewrite parse_Stmt_S in H. unfold Stmt_rule, pbind at 1, here in H.
  repeat match type of H with
  | palt _ _ _ = Ok _ _ =>
      apply palt_ok in H;
      destruct H as [H | [?F H]];
      [apply wrap_ok in H; destruct H as (? & _ & ->);
       split; [reflexivity | intros Hx; exfalso; apply Hx; reflexivity] |]
  end.
  apply wrap_ok in H. destruct H as (x & Hx & ->).
  split; [reflexivity|]. intros _.
  repeat match goal with
  | F : is_fail (pbind _ _ _) = true |- _ => rewrite wrap_is_fail in F
  end.
  repeat split; try assumption.
  exists x. split; [exact Hx | reflexivity].
Qed.

End StmtFacts.

(** The statement [a], with identifiers for expressions. *)
Lemma C8_witness :
  Stmt_arms (expression_stmt (at_ 0) (mkExprNode Terminal (at_ 0) "a" [])) = 1 /\
  (Stmt_Expression (expression_stmt (at_ 0) (mkExprNode Terminal (at_ 0) "a" [])) <> None ->
   is_fail (parse_VarDecl ident_expression ident_expression (at_ 1) (tokens_of "a")) = true).
Proof.
  destruct (C8_Expression_is_the_last_alternative ident_expression ident_expression
              (at_ 1) 2 (tokens_of "a")
              (expression_stmt (at_ 0) (mkExprNode Terminal (at_ 0) "a" [])) []
              ltac:(vm_compute; reflexivity)) as [Harms Hlast].
  split; [exact Harms|].
  intros Hx. destruct (Hlast Hx) as (_ & _ & _ & _ & _ & Hv & _). exact Hv.
Defined.

Section EntryFacts.

Variable parse_Expr : P ExprNode.
Variable parse_Reference : P ExprNode.
Variable Unquote : string -> option string.

(** *** Entry points *)

(** C5: [enum E { case A; case B; }] and [enum E { case A; case B }] both
    parse without error, to the same tree, whose enum has the two members
    [case A] and [case B]; the positions agree as well. *)
Theorem C5_trailing_separator_equivalence :
  ParseString parse_Expr parse_Reference Unquote "enum E { case A; case B; }"
  = (Some enum_E_A_B, None) /\
  ParseString parse_Expr parse_Reference Unquote "enum E { case A; case B }"
  = (Some enum_E_A_B, None).
Proof. split; vm_compute; reflexivity. Qed.

(** C10: [ParseString] and [Parse] return a non-nil [*AST] for every
    input; for [enum E { case A; case B } let] they return an error together
    with the tree of the declaration parsed before it. *)
Theorem C10_entry_points_return_an_AST :
  (forall s, exists ast, fst (ParseString parse_Expr parse_Reference Unquote s) = Some ast) /\
  (forall r, exists ast, fst (Parse parse_Expr parse_Reference Unquote r) = Some ast) /\
  (exists err,
     ParseString parse_Expr parse_Reference Unquote "enum E { case A; case B } let"
     = (Some enum_E_A_B, Some err)).
Proof.
  split; [|split].
  - intros s. unfold ParseString.
    destruct (parser_ParseString _ _ _ s empty_AST) as [ast err]. exists ast. reflexivity.
  - intros r. unfold Parse.
    destruct (parser_Parse _ _ _ r empty_AST) as [ast err]. exists ast. reflexivity.
  - eexists. vm_compute. reflexivity.
Qed.

(** Programs of one declaration, with and without a terminator. *)
Lemma root_terminator_examples :
  let PS := ParseString parse_Expr parse_Reference Unquote in
  snd (PS "let a") <> None /\
  snd (PS "let a;") = None /\
  (PS "class A { };" = PS "class A { }" /\ snd (PS "class A { }") = None) /\
  (PS "enum E { };" = PS "enum E { }" /\ snd (PS "enum E { }") = None) /\
  (PS "fn f() { let a };" = PS "fn f() { let a }" /\ snd (PS "fn f() { let a }") = None).
Proof.
  intros PS. subst PS.
  repeat split; try (vm_compute; reflexivity).
  vm_compute. discriminate.
Qed.

(** [enum E { enum F { } }] parses to an enum whose member is a nested enum,
    on which [EnumMember.Decl] panics. *)
Lemma nested_enum_is_parsed :
  let nested := mkEnumDecl (at_ 9) (Some (mkTypeDecl (at_ 14) "F" [])) [] in
  ParseString parse_Expr parse_Reference Unquote "enum E { enum F { } }"
  = (Some (mkAST (at_ 0)
             [mkRootDecl (at_ 0) [] None None
                (Some (mkEnumDecl (at_ 0) (Some (mkTypeDecl (at_ 5) "E" []))
                         [nested_enum_member (at_ 9) [] nested]))
                None None]),
     None) /\
  EnumMember_Decl (nested_enum_member (at_ 9) [] nested) = Panics "??".
Proof. split; vm_compute; reflexivity. Qed.

End EntryFacts.

(** *** Fuel *)

Section Tame.

Lemma tame_ext {A : Type} n (p q : P A) :
  (forall ts, p ts = q ts) -> tame n q -> tame n p.
Proof. intros E H ts Hts. rewrite E. apply H. exact Hts. Qed.

Lemma tame_pret {A : Type} n (a : A) : tame n (pret a).
Proof.
  intros ts _. split; [discriminate|]. intros a' rest H. inversion H. lia.
Qed.

Lemma tame_here eof n : tame n (here eof).
Proof.
  intros ts _. split; [discriminate|]. intros a' rest H. inversion H. lia.
Qed.

Lemma advancing_lit v : advancing (lit v).
Proof.
  intros [|t ts] a rest H; simpl in H; [discriminate|].
  destruct (String.eqb _ _); inversion H. simpl. lia.
Qed.

Lemma advancing_tok k : advancing (tok k).
Proof.
  intros [|t ts] a rest H; simpl in H; [discriminate|].
  destruct (TokenKind_eqb _ _); inversion H. simpl. lia.
Qed.

Lemma tame_lit n v : tame n (lit v).
Proof.
  intros ts _. split.
  - destruct ts as [|t ts]; simpl; [discriminate|].
    destruct (String.eqb _ _); discriminate.
  - intros a rest H. apply advancing_lit in H. lia.
Qed.

Lemma tame_tok n k : tame n (tok k).
Proof.
  intros ts _. split.
  - destruct ts as [|t ts]; simpl; [discriminate|].
    destruct (TokenKind_eqb _ _); discriminate.
  - intros a rest H. apply advancing_tok in H. lia.
Qed.

Lemma tame_pbind {A B : Type} n (p : P A) (k : A -> P B) :
  tame n p -> (forall a, tame n (k a)) -> tame n (pbind p k).
Proof.
  intros Hp Hk ts Hts. unfold pbind. destruct (Hp ts Hts) as [Hne Hle].
  destruct (p ts) as [a mid|d|]; [|split; [discriminate|intros ? ? H; discriminate]
                                   |contradiction].
  specialize (Hle a mid eq_refl).
  destruct (Hk a mid ltac:(lia)) as [Hne' Hle'].
  split; [exact Hne'|]. intros b rest H. specialize (Hle' b rest H). lia.
Qed.

(** After a rule that takes a token, what follows runs on a shorter
    stream. *)
Lemma tame_then {A B : Type} n (p : P A) (k : A -> P B) :
  tame n p -> advancing p -> (n <> 0 -> forall a, tame (pred n) (k a)) ->
  tame n (pbind p k).
Proof.
  intros Hp Ha Hk ts Hts. unfold pbind. destruct (Hp ts Hts) as [Hne Hle].
  destruct (p ts) as [a mid|d|] eqn:E;
    [|split; [discriminate|intros ? ? H; discriminate]|contradiction].
  pose proof (Ha _ _ _ E) as Hlt.
  destruct (Hk ltac:(lia) a mid ltac:(lia)) as [Hne' Hle'].
  split; [exact Hne'|]. intros b rest H. specialize (Hle' b rest H). lia.
Qed.

Lemma tame_palt {A : Type} n (p q : P A) : tame n p -> tame n q -> tame n (palt p q).
Proof.
  intros Hp Hq ts Hts. unfold palt.
  destruct (Hp ts Hts) as [Hne Hle]. destruct (Hq ts Hts) as [Hne' Hle'].
  destruct (p ts) as [a r|d|]; [split; [discriminate | exact Hle] | | contradiction].
  destruct (q ts) as [a r|d'|]; [split; [discriminate | exact Hle'] | | contradiction].
  split; [discriminate | intros ? ? H; discriminate].
Qed.

Lemma tame_opt {A : Type} n (p : P A) : tame n p -> tame n (opt p).
Proof.
  intros Hp ts Hts. unfold opt. destruct (Hp ts Hts) as [Hne Hle].
  destruct (p ts) as [a r|d|]; [| | contradiction].
  - split; [discriminate|]. intros a' rest H. inversion H; subst. eauto.
  - split; [discriminate|]. intros a' rest H. inversion H; subst. lia.
Qed.

Lemma tame_many_loop {A : Type} n (p : P A) (c : nat) :
  tame n p ->
  forall ts, List.length ts <= n ->
    many_loop p c ts <> OutOfFuel /\
    forall a rest, many_loop p c ts = Ok a rest -> List.length rest <= List.length ts.
Proof.
  intros Hp. induction c as [|c IH]; intros ts Hts; simpl.
  - split; [discriminate|]. intros a rest H. inversion H. lia.
  - destruct (Hp ts Hts) as [Hne Hle].
    destruct (p ts) as [a r|d|]; [| | contradiction].
    + specialize (Hle a r eq_refl).
      destruct (Nat.ltb _ _).
      * destruct (IH r ltac:(lia)) as [Hne' Hle'].
        destruct (many_loop p c r) as [l r'|d|]; [| | contradiction].
        -- split; [discriminate|]. intros a' rest H. inversion H; subst.
           specialize (Hle' l rest eq_refl). lia.
        -- split; [discriminate|]. intros a' rest H. discriminate.
      * split; [discriminate|]. intros a' rest H. inversion H. lia.
    + split; [discriminate|]. intros a' rest H. inversion H. lia.
Qed.

Lemma tame_many {A : Type} n (p : P A) : tame n p -> tame n (many p).
Proof. intros Hp ts Hts. exact (tame_many_loop n p _ Hp ts Hts). Qed.

End Tame.

Section TameRules.

Variable parse_Expr : P ExprNode.
Variable parse_Reference : P ExprNode.
Variable eof : Position.

Hypothesis parse_Expr_tame : forall n, tame n parse_Expr.
Hypothesis parse_Reference_tame : forall n, tame n parse_Reference.

Ltac tame_rule :=
  repeat match goal with
  | H : tame ?n ?p |- tame ?n ?p => exact H
  | |- tame _ parse_Expr => apply parse_Expr_tame
  | |- tame _ parse_Reference => apply parse_Reference_tame
  | |- tame _ (pret _) => apply tame_pret
  | |- tame _ (here _) => apply tame_here
  | |- tame _ (lit _) => apply tame_lit
  | |- tame _ (tok _) => apply tame_tok
  | |- tame _ (opt _) => apply tame_opt
  | |- tame _ (many _) => apply tame_many
  | |- tame _ (palt _ _) => apply tame_palt
  | |- tame _ (pbind _ _) => apply tame_pbind; [|intros ?]
  end.

Lemma tame_flag n v : tame n (flag v).
Proof. unfold flag. tame_rule. Qed.

Lemma tame_separated {A : Type} n sep (p : P A) : tame n p -> tame n (separated sep p).
Proof. intros Hp. unfold separated. tame_rule. Qed.

Lemma tame_terminated {A : Type} n (p : P A) : tame n p -> tame n (terminated p).
Proof. intros Hp. unfold terminated. tame_rule. Qed.

Lemma tame_ImportDecl n : tame n (parse_ImportDecl eof).
Proof. unfold parse_ImportDecl. tame_rule. Qed.

Lemma tame_TypeParamDecl n : tame n (parse_TypeParamDecl parse_Reference eof).
Proof. unfold parse_TypeParamDecl. tame_rule. Qed.

Lemma tame_TypeDecl n : tame n (parse_TypeDecl parse_Reference eof).
Proof. unfold parse_TypeDecl. pose proof (tame_TypeParamDecl n). tame_rule. Qed.

Lemma tame_CaseDecl n : tame n (parse_CaseDecl parse_Reference eof).
Proof. unfold parse_CaseDecl. pose proof (tame_TypeDecl n). tame_rule. Qed.

Lemma tame_Parameters n : tame n (parse_Parameters parse_Reference eof).
Proof. unfold parse_Parameters. tame_rule. Qed.

Lemma tame_VarDeclAsgn n : tame n (parse_VarDeclAsgn parse_Expr parse_Reference eof).
Proof. unfold parse_VarDeclAsgn. tame_rule. Qed.

Lemma tame_VarDecl n : tame n (parse_VarDecl parse_Expr parse_Reference eof).
Proof. unfold parse_VarDecl. pose proof (tame_VarDeclAsgn n). tame_rule. Qed.

Lemma tame_EnumCase n : tame n (parse_EnumCase eof).
Proof. unfold parse_EnumCase. tame_rule. Qed.

Lemma tame_CaseSelect n : tame n (parse_CaseSelect parse_Expr eof).
Proof. unfold parse_CaseSelect. pose proof (tame_EnumCase n). tame_rule. Qed.

Lemma tame_ReturnStmt n : tame n (parse_ReturnStmt parse_Expr eof).
Proof. unfold parse_ReturnStmt. tame_rule. Qed.

Lemma tame_parameter_list n : tame n (parse_parameter_list parse_Reference eof).
Proof.
  unfold parse_parameter_list.
  pose proof (tame_separated n "," _ (tame_Parameters n)). tame_rule.
Qed.

Ltac tame_all :=
  repeat match goal with
  | H : tame ?n ?p |- tame ?n ?p => exact H
  | |- tame _ parse_Expr => apply parse_Expr_tame
  | |- tame _ parse_Reference => apply parse_Reference_tame
  | |- tame _ (pret _) => apply tame_pret
  | |- tame _ (here _) => apply tame_here
  | |- tame _ (lit _) => apply tame_lit
  | |- tame _ (tok _) => apply tame_tok
  | |- tame _ (flag _) => apply tame_flag
  | |- tame _ (opt _) => apply tame_opt
  | |- tame _ (many _) => apply tame_many
  | |- tame _ (terminated _) => apply tame_terminated
  | |- tame _ (palt _ _) => apply tame_palt
  | |- tame _ (pbind _ _) => apply tame_pbind; [|intros ?]
  | |- tame _ (parse_ImportDecl _) => apply tame_ImportDecl
  | |- tame _ (parse_TypeDecl _ _) => apply tame_TypeDecl
  | |- tame _ (parse_CaseDecl _ _) => apply tame_CaseDecl
  | |- tame _ (parse_VarDecl _ _ _) => apply tame_VarDecl
  | |- tame _ (parse_CaseSelect _ _) => apply tame_CaseSelect
  | |- tame _ (parse_ReturnStmt _ _) => apply tame_ReturnStmt
  | |- tame _ (parse_parameter_list _ _) => apply tame_parameter_list
  end.

(** A rule that begins with a literal runs the rest of its body, and the
    rules it calls there, on a shorter stream. *)
Ltac after_keyword :=
  apply tame_pbind; [apply tame_here | intros ?];
  apply tame_then; [apply tame_lit | apply advancing_lit | intros ? ?].

Lemma tame_Block_rule n (ps : P Stmt) :
  (n <> 0 -> tame (pred n) ps) -> tame n (Block_rule eof ps).
Proof.
  intros H. unfold Block_rule. after_keyword.
  specialize (H ltac:(assumption)). tame_all.
Qed.

Lemma tame_ForStmt_rule n (pb : P Block) :
  (n <> 0 -> tame (pred n) pb) ->
  tame n (ForStmt_rule parse_Expr parse_Reference eof pb).
Proof.
  intros H. unfold ForStmt_rule. after_keyword.
  specialize (H ltac:(assumption)). tame_all.
Qed.

Lemma tame_IfStmt_rule n (pb : P Block) :
  (n <> 0 -> tame (pred n) pb) -> tame n (IfStmt_rule parse_Expr eof pb).
Proof.
  intros H. unfold IfStmt_rule. after_keyword.
  specialize (H ltac:(assumption)). tame_all.
Qed.

Lemma tame_SwitchStmt_rule n (pc : P CaseStmt) :
  (n <> 0 -> tame (pred n) pc) -> tame n (SwitchStmt_rule parse_Expr eof pc).
Proof.
  intros H. unfold SwitchStmt_rule. after_keyword.
  specialize (H ltac:(assumption)). tame_all.
Qed.

Lemma tame_FuncDecl_rule n (pb : P Block) :
  (n <> 0 -> tame (pred n) pb) -> tame n (FuncDecl_rule parse_Reference eof pb).
Proof.
  intros H. unfold FuncDecl_rule. after_keyword.
  specialize (H ltac:(assumption)). tame_all.
Qed.

Lemma tame_InitialiserDecl_rule n (pb : P Block) :
  (n <> 0 -> tame (pred n) pb) -> tame n (InitialiserDecl_rule parse_Reference eof pb).
Proof.
  intros H. unfold InitialiserDecl_rule. after_keyword.
  specialize (H ltac:(assumption)). tame_all.
Qed.

Lemma tame_ClassDecl_rule n (pm : P ClassMember) :
  (n <> 0 -> tame (pred n) pm) -> tame n (ClassDecl_rule parse_Reference eof pm).
Proof.
  intros H. unfold ClassDecl_rule. after_keyword.
  specialize (H ltac:(assumption)). tame_all.
Qed.

Lemma tame_EnumDecl_rule n (pm : P EnumMember) :
  (n <> 0 -> tame (pred n) pm) -> tame n (EnumDecl_rule parse_Reference eof pm).
Proof.
  intros H. unfold EnumDecl_rule. after_keyword.
  specialize (H ltac:(assumption)). tame_all.
Qed.

Lemma tame_CaseStmt_rule n (ps : P Stmt) :
  (n <> 0 -> tame (pred n) ps) -> tame n (CaseStmt_rule parse_Expr eof ps).
Proof.
  intros H. unfold CaseStmt_rule.
  apply tame_pbind; [apply tame_here | intros ?].
  apply tame_pbind; [tame_all | intros ?].
  apply tame_then; [apply tame_lit | apply advancing_lit | intros ? ?].
  specialize (H ltac:(assumption)). tame_all.
Qed.

Lemma tame_Stmt_rule n pi pf psw pb pfn pc pe :
  tame n pi -> tame n pf -> tame n psw -> tame n pb -> tame n pfn -> tame n pc ->
  tame n pe ->
  tame n (Stmt_rule parse_Expr parse_Reference eof pi pf psw pb pfn pc pe).
Proof. intros. unfold Stmt_rule. tame_all. Qed.

Lemma tame_ClassMember_rule n pfn pc pe pi :
  tame n pfn -> tame n pc -> tame n pe -> tame n pi ->
  tame n (ClassMember_rule parse_Expr parse_Reference eof pfn pc pe pi).
Proof. intros. unfold ClassMember_rule. tame_all. Qed.

Lemma tame_EnumMember_rule n pfn pc pe pi :
  tame n pfn -> tame n pc -> tame n pe -> tame n pi ->
  tame n (EnumMember_rule parse_Expr parse_Reference eof pfn pc pe pi).
Proof. intros. unfold EnumMember_rule. tame_all. Qed.

(** The fuel that the rules need for a stream of [n] tokens: a rule that
    begins with a literal takes [2 * n + 1], a statement or a member one
    more. *)
Lemma enough_fuel (n : nat) :
  (forall fuel, 2 * n + 1 <= fuel ->
     tame n (parse_Block parse_Expr parse_Reference eof fuel) /\
     tame n (parse_ForStmt parse_Expr parse_Reference eof fuel) /\
     tame n (parse_IfStmt parse_Expr parse_Reference eof fuel) /\
     tame n (parse_SwitchStmt parse_Expr parse_Reference eof fuel) /\
     tame n (parse_CaseStmt parse_Expr parse_Reference eof fuel) /\
     tame n (parse_FuncDecl parse_Expr parse_Reference eof fuel) /\
     tame n (parse_InitialiserDecl parse_Expr parse_Reference eof fuel) /\
     tame n (parse_ClassDecl parse_Expr parse_Reference eof fuel) /\
     tame n (parse_EnumDecl parse_Expr parse_Reference eof fuel)) /\
  (forall fuel, 2 * n + 2 <= fuel ->
     tame n (parse_Stmt parse_Expr parse_Reference eof fuel) /\
     tame n (parse_ClassMember parse_Expr parse_Reference eof fuel) /\
     tame n (parse_EnumMember parse_Expr parse_Reference eof fuel)).
Proof.
  induction n as [n IH] using lt_wf_ind.
  assert (L1 : forall fuel, 2 * n + 1 <= fuel ->
     tame n (parse_Block parse_Expr parse_Reference eof fuel) /\
     tame n (parse_ForStmt parse_Expr parse_Reference eof fuel) /\
     tame n (parse_IfStmt parse_Expr parse_Reference eof fuel) /\
     tame n (parse_SwitchStmt parse_Expr parse_Reference eof fuel) /\
     tame n (parse_CaseStmt parse_Expr parse_Reference eof fuel) /\
     tame n (parse_FuncDecl parse_Expr parse_Reference eof fuel) /\
     tame n (parse_InitialiserDecl parse_Expr parse_Reference eof fuel) /\
     tame n (parse_ClassDecl parse_Expr parse_Reference eof fuel) /\
     tame n (parse_EnumDecl parse_Expr parse_Reference eof fuel)).
  { intros [|fuel] Hfuel; [lia|].
    assert (Hsub : n <> 0 ->
              (tame (pred n) (parse_Block parse_Expr parse_Reference eof fuel) /\
               tame (pred n) (parse_CaseStmt parse_Expr parse_Reference eof fuel)) /\
              (tame (pred n) (parse_Stmt parse_Expr parse_Reference eof fuel) /\
               tame (pred n) (parse_ClassMember parse_Expr parse_Reference eof fuel) /\
               tame (pred n) (parse_EnumMember parse_Expr parse_Reference eof fuel))).
    { intros Hn. destruct (IH (pred n) ltac:(lia)) as [I1 I2].
      destruct (I1 fuel ltac:(lia)) as (? & _ & _ & _ & ? & _).
      destruct (I2 fuel ltac:(lia)) as (? & ? & ?). auto. }
    repeat match goal with |- _ /\ _ => split end.
    - apply (tame_ext _ _ (Block_rule eof (parse_Stmt parse_Expr parse_Reference eof fuel)));
        [reflexivity|]. apply tame_Block_rule. intros Hn. apply (Hsub Hn).
    - apply (tame_ext _ _ (ForStmt_rule parse_Expr parse_Reference eof
                             (parse_Block parse_Expr parse_Reference eof fuel)));
        [reflexivity|]. apply tame_ForStmt_rule. intros Hn. apply (Hsub Hn).
    - apply (tame_ext _ _ (IfStmt_rule parse_Expr eof
                             (parse_Block parse_Expr parse_Reference eof fuel)));
        [reflexivity|]. apply tame_IfStmt_rule. intros Hn. apply (Hsub Hn).
    - apply (tame_ext _ _ (SwitchStmt_rule parse_Expr eof
                             (parse_CaseStmt parse_Expr parse_Reference eof fuel)));
        [reflexivity|]. apply tame_SwitchStmt_rule. intros Hn. apply (Hsub Hn).
    - apply (tame_ext _ _ (CaseStmt_rule parse_Expr eof
                             (parse_Stmt parse_Expr parse_Reference eof fuel)));
        [reflexivity|]. apply tame_CaseStmt_rule. intros Hn. apply (Hsub Hn).
    - apply (tame_ext _ _ (FuncDecl_rule parse_Reference eof
                             (parse_Block parse_Expr parse_Reference eof fuel)));
        [reflexivity|]. apply tame_FuncDecl_rule. intros Hn. apply (Hsub Hn).
    - apply (tame_ext _ _ (InitialiserDecl_rule parse_Reference eof
                             (parse_Block parse_Expr parse_Reference eof fuel)));
        [reflexivity|]. apply tame_InitialiserDecl_rule. intros Hn. apply (Hsub Hn).
    - apply (tame_ext _ _ (ClassDecl_rule parse_Reference eof
                             (parse_ClassMember parse_Expr parse_Reference eof fuel)));
        [reflexivity|]. apply tame_ClassDecl_rule. intros Hn. apply (Hsub Hn).
    - apply (tame_ext _ _ (EnumDecl_rule parse_Reference eof
                             (parse_EnumMember parse_Expr parse_Reference eof fuel)));
        [reflexivity|]. apply tame_EnumDecl_rule. intros Hn. apply (Hsub Hn). }
  split; [exact L1|].
  intros [|fuel] Hfuel; [lia|].
  destruct (L1 fuel ltac:(lia)) as (Hb & Hf & Hi & Hsw & Hc & Hfn & Hin & Hcl & Hen).
  repeat match goal with |- _ /\ _ => split end.
  - apply (tame_ext _ _ (Stmt_rule parse_Expr parse_Reference eof
             (parse_IfStmt parse_Expr parse_Reference eof fuel)
             (parse_ForStmt parse_Expr parse_Reference eof fuel)
             (parse_SwitchStmt parse_Expr parse_Reference eof fuel)
             (parse_Block parse_Expr parse_Reference eof fuel)
             (parse_FuncDecl parse_Expr parse_Reference eof fuel)
             (parse_ClassDecl parse_Expr parse_Reference eof fuel)
             (parse_EnumDecl parse_Expr parse_Reference eof fuel))); [reflexivity|].
    apply tame_Stmt_rule; assumption.
  - apply (tame_ext _ _ (ClassMember_rule parse_Expr parse_Reference eof
             (parse_FuncDecl parse_Expr parse_Reference eof fuel)
             (parse_ClassDecl parse_Expr parse_Reference eof fuel)
             (parse_EnumDecl parse_Expr parse_Reference eof fuel)
             (parse_InitialiserDecl parse_Expr parse_Reference eof fuel))); [reflexivity|].
    apply tame_ClassMember_rule; assumption.
  - apply (tame_ext _ _ (EnumMember_rule parse_Expr parse_Reference eof
             (parse_FuncDecl parse_Expr parse_Reference eof fuel)
             (parse_ClassDecl parse_Expr parse_Reference eof fuel)
             (parse_EnumDecl parse_Expr parse_Reference eof fuel)
             (parse_InitialiserDecl parse_Expr parse_Reference eof fuel))); [reflexivity|].
    apply tame_EnumMember_rule; assumption.
Qed.

Lemma tame_RootDecl n fuel :
  2 * n + 1 <= fuel -> tame n (parse_RootDecl parse_Expr parse_Reference eof fuel).
Proof.
  intros Hfuel.
  destruct (proj1 (enough_fuel n) fuel Hfuel) as (_ & _ & _ & _ & _ & Hfn & _ & Hcl & Hen).
  unfold parse_RootDecl.
  apply tame_pbind; [apply tame_here | intros pos].
  apply tame_pbind; [tame_all | intros modifiers].
  unfold parse_RootDecl_arms. tame_all.
Qed.

(** The program rule never runs out of fuel under the bound that the entry
    points give it. *)
Lemma parse_AST_never_out_of_fuel (ts : list Token) (fuel : nat) :
  2 * List.length ts + 1 <= fuel ->
  parse_AST parse_Expr parse_Reference eof fuel ts <> OutOfFuel.
Proof.
  intros Hfuel.
  assert (H : tame (List.length ts) (parse_AST parse_Expr parse_Reference eof fuel)).
  { unfold parse_AST. pose proof (tame_RootDecl (List.length ts) fuel Hfuel). tame_all. }
  apply (H ts). lia.
Qed.

End TameRules.

Section EntryFuel.

Variable parse_Expr : P ExprNode.
Variable parse_Reference : P ExprNode.
Variable Unquote : string -> option string.

Lemma unquote_tokens_error (ts : list Token) (e : Error) :
  unquote_tokens Unquote ts = inl e -> exists pos text, e = UnquoteError pos text.
Proof.
  induction ts as [|t ts IH]; simpl; [discriminate|].
  assert (Hrest : forall f : list Token -> list Token,
             match unquote_tokens Unquote ts with
             | inl e' => inl e'
             | inr l => inr (f l)
             end = inl e ->
             exists pos text, e = UnquoteError pos text).
  { intros f Hf. destruct (unquote_tokens Unquote ts) as [e'|l]; [|discriminate].
    inversion Hf; subst. apply IH. reflexivity. }
  destruct (Type_ t); try apply (Hrest (cons t)).
  destruct (Unquote (Value t)) as [v|].
  - apply (Hrest (cons (mkToken String_ v (Pos t)))).
  - intros Hf. inversion Hf. eauto.
Qed.

(** With rules for the expression tree that are tame, the entry points never
    report that the nesting was too deep: the fuel is a bound of the model
    that the grammar does not reach. *)
Lemma ParseString_is_never_too_deep (s : string) :
  (forall n, tame n parse_Expr) ->
  (forall n, tame n parse_Reference) ->
  snd (ParseString parse_Expr parse_Reference Unquote s) <> Some NestingTooDeep.
Proof.
  intros He Hr. unfold ParseString, parser_ParseString.
  destruct (lex s) as [ts|pos c]; [|discriminate].
  destruct (unquote_tokens Unquote ts) as [e|ts'] eqn:Hu.
  - simpl. intros H. inversion H. subst e.
    destruct (unquote_tokens_error _ _ Hu) as (pos & text & Habs). discriminate.
  - pose proof (parse_AST_never_out_of_fuel parse_Expr parse_Reference
                  (advance start_position s) He Hr ts' (nesting_bound ts')
                  ltac:(unfold nesting_bound; lia)) as Hne.
    destruct (parse_AST _ _ _ _ ts') as [a [|t rest]|d|];
      [discriminate | discriminate | discriminate | contradiction].
Qed.

End EntryFuel.

End GrammarFacts.

(* ------------------------------------------------------------------ *)
(** ** Further properties of the lexer *)

Module TokenFacts.

Import Lexer LexerFacts.

(** *** Where a match ends *)

Lemma append_assoc (a b c : string) : ((a ++ b) ++ c = a ++ (b ++ c))%string.
Proof. induction a as [|x a IH]; simpl; [reflexivity | rewrite IH; reflexivity]. Qed.

Lemma append_length (a b : string) :
  String.length (a ++ b)%string = String.length a + String.length b.
Proof. induction a as [|c a IH]; simpl; [reflexivity | rewrite IH; reflexivity]. Qed.

Lemma strip_prefix_app (p s s' : string) :
  strip_prefix p s = Some s' -> s = (p ++ s')%string.
Proof.
  revert s. induction p as [|a p IH]; intros s H; simpl in *.
  - inversion H. reflexivity.
  - destruct s as [|b s]; [discriminate|].
    destruct (Ascii.eqb a b) eqn:E; [|discriminate].
    apply Ascii.eqb_eq in E. subst b. f_equal. apply IH. exact H.
Qed.

Lemma ends_at_here (s : string) (k : cont) prev x : k prev s = Some x -> ends_at s k x.
Proof. intros H. exists prev, s, "". split; [exact H | reflexivity]. Qed.

Lemma ends_at_step (c : ascii) (s : string) (k : cont) x :
  k (Some c) s = Some x -> ends_at (String c s) k x.
Proof. intros H. exists (Some c), s, (String c ""). split; [exact H | reflexivity]. Qed.

Lemma ends_at_trans (s : string) (k k' : cont) x :
  ends_at s k' x -> (forall p' s', k' p' s' = Some x -> ends_at s' k x) -> ends_at s k x.
Proof.
  intros (p' & s' & pre & H & ->) Hk. destruct (Hk _ _ H) as (p'' & s'' & pre' & H' & ->).
  exists p'', s'', (pre ++ pre')%string. split; [exact H' | symmetry; apply append_assoc].
Qed.

Lemma star_loop_suffix (m : option ascii -> string -> cont -> option string) (k : cont) n :
  (forall prev s k' x, m prev s k' = Some x -> ends_at s k' x) ->
  forall prev s x, star_loop m k n prev s = Some x -> ends_at s k x.
Proof.
  intros Hm. induction n as [|n IH]; intros prev s x H; simpl in H.
  - eapply ends_at_here; eauto.
  - destruct (m prev s _) as [r|] eqn:E.
    + inversion H; subst r. apply Hm in E.
      eapply ends_at_trans; [exact E|]. intros p' s' Hk. cbv beta in Hk.
      destruct (Nat.ltb _ _); [|discriminate]. eapply IH; eauto.
    + eapply ends_at_here; eauto.
Qed.

Lemma lazy_loop_suffix (m : option ascii -> string -> cont -> option string) (k : cont) n :
  (forall prev s k' x, m prev s k' = Some x -> ends_at s k' x) ->
  forall prev s x, lazy_loop m k n prev s = Some x -> ends_at s k x.
Proof.
  intros Hm. induction n as [|n IH]; intros prev s x H; simpl in H.
  - destruct (k prev s) as [r|] eqn:E; [|discriminate].
    inversion H; subst r. eapply ends_at_here; eauto.
  - destruct (k prev s) as [r|] eqn:E.
    + inversion H; subst r. eapply ends_at_here; eauto.
    + apply Hm in H. eapply ends_at_trans; [exact H|]. intros p' s' Hk. cbv beta in Hk.
      destruct (Nat.ltb _ _); [|discriminate]. eapply IH; eauto.
Qed.

Lemma run_suffix (r : regex) :
  forall prev s k x, run r prev s k = Some x -> ends_at s k x.
Proof.
  induction r as [lit|neg ms|lo hi| | | |r1 IHr1 r2 IHr2|r1 IHr1 r2 IHr2|r IHr|r IHr|r IHr|r IHr];
    intros prev s k x H; simpl in H.
  - destruct (strip_prefix lit s) as [s'|] eqn:E; [|discriminate].
    apply strip_prefix_app in E. exists (last_char prev lit), s', lit. split; [exact H | exact E].
  - destruct s as [|c s]; [discriminate|].
    destruct (xorb _ _); [|discriminate]. apply ends_at_step; exact H.
  - destruct s as [|c s]; [discriminate|].
    destruct (in_range _ _ _); [|discriminate]. apply ends_at_step; exact H.
  - destruct s as [|c s]; [discriminate|].
    destruct (Ascii.eqb _ _); [discriminate|]. apply ends_at_step; exact H.
  - destruct s as [|c s]; [discriminate|]. apply ends_at_step; exact H.
  - destruct (xorb _ _); [|discriminate]. eapply ends_at_here; eauto.
  - apply IHr1 in H. eapply ends_at_trans; [exact H|]. intros p' s' Hk. exact (IHr2 _ _ _ _ Hk).
  - destruct (run r1 prev s k) as [y|] eqn:E.
    + inversion H; subst y. eapply IHr1; eauto.
    + eapply IHr2; eauto.
  - eapply star_loop_suffix; eauto.
  - eapply lazy_loop_suffix; eauto.
  - apply IHr in H. eapply ends_at_trans; [exact H|]. intros p' s' Hk.
    exact (star_loop_suffix _ _ _ IHr _ _ _ Hk).
  - destruct (run r prev s k) as [y|] eqn:E.
    + inversion H; subst y. eapply IHr; eauto.
    + eapply ends_at_here; eauto.
Qed.

Lemma match_rule_suffix (r : regex) (s rest : string) :
  match_rule r s = Some rest -> exists pre, s = (pre ++ rest)%string.
Proof.
  unfold match_rule. intros H. apply run_suffix in H.
  destruct H as (p' & s' & pre & Hk & ->). inversion Hk; subst. eauto.
Qed.

Lemma first_match_rule (rs : list (TokenKind * regex)) (s : string) kind rest :
  first_match rs s = Some (kind, rest) ->
  exists r, In (kind, r) rs /\ match_rule r s = Some rest.
Proof.
  induction rs as [|[k r] rs IH]; simpl; [discriminate|].
  destruct (match_rule r s) as [rest'|] eqn:E.
  - intros H; inversion H; subst. exists r. auto.
  - intros H. destruct (IH H) as (r' & Hin & Hm). exists r'. auto.
Qed.

Lemma take_app (pre rest : string) :
  take (String.length (pre ++ rest)%string - String.length rest) (pre ++ rest)%string = pre.
Proof.
  rewrite append_length.
  replace (String.length pre + String.length rest - String.length rest)
    with (String.length pre) by lia.
  induction pre as [|c pre IH]; simpl.
  - destruct rest; reflexivity.
  - rewrite IH. reflexivity.
Qed.

Lemma first_match_splits (s : string) kind rest :
  first_match rules s = Some (kind, rest) ->
  s = (take (String.length s - String.length rest) s ++ rest)%string.
Proof.
  intros H. apply first_match_rule in H. destruct H as (r & _ & Hm).
  apply match_rule_suffix in Hm. destruct Hm as [pre ->].
  rewrite take_app. reflexivity.
Qed.

(** *** The tokens of a text *)

Lemma lex_from_tokens (fuel : nat) :
  forall pos s ts,
    lex_from fuel pos s = Tokens ts ->
    text_of ts = s /\ positioned pos ts /\ Forall token_at ts.
Proof.
  induction fuel as [|fuel IH]; intros pos s ts H.
  - destruct s as [|c s]; cbn [lex_from] in H.
    + inversion H; subst. simpl. auto.
    + destruct (first_match rules (String c s)) as [[k r]|]; discriminate.
  - destruct s as [|c s]; cbn [lex_from] in H.
    + inversion H; subst. simpl. auto.
    + destruct (first_match rules (String c s)) as [[kind rest]|] eqn:E; [|discriminate].
      destruct (Nat.ltb _ _); [|discriminate].
      destruct (lex_from fuel _ rest) as [ts'|] eqn:E'; [|discriminate].
      simpl in H. inversion H; subst ts. clear H.
      destruct (IH _ _ _ E') as (Ht & Hp & Hf).
      cbn [text_of positioned Value Pos]. rewrite Ht.
      split; [symmetry; apply (first_match_splits _ _ _ E)|].
      split; [split; [reflexivity | exact Hp]|].
      constructor; [exact (token_at_intro _ (String c s) _ _ E) | exact Hf].
Qed.









(** *** Words *)

Lemma star_loop_greedy (m : option ascii -> string -> cont -> option string)
    (P : ascii -> bool) :
  (forall c s prev K, P c = true -> m prev (String c s) K = K (Some c) s) ->
  forall (w t : string),
    all_chars P w = true ->
    (forall prev K, m prev t K = None) ->
    forall n prev K x,
      String.length w <= n ->
      K (last_char prev w) t = Some x ->
      star_loop m K n prev (w ++ t)%string = Some x.
Proof.
  intros Hm w t Hw Ht. induction w as [|c w IH]; intros n prev K x Hn HK.
  - simpl. destruct n as [|n]; simpl; [exact HK|]. rewrite Ht. exact HK.
  - simpl in Hw. apply andb_true_iff in Hw. destruct Hw as [Hc Hw].
    destruct n as [|n]; [simpl in Hn; lia|].
    change (String c w ++ t)%string with (String c (w ++ t)%string).
    rewrite star_loop_S, (Hm c _ _ _ Hc).
    replace (Nat.ltb (String.length (w ++ t)%string) (String.length (String c (w ++ t)%string)))
      with true by (symmetry; apply Nat.ltb_lt; simpl; lia).
    rewrite (IH Hw n (Some c) K x); [reflexivity | simpl in Hn; lia | exact HK].
Qed.

Lemma run_word_class prev c s K :
  run word_class prev (String c s) K = if is_word c then K (Some c) s else None.
Proof.
  unfold word_class, is_word, is_digit, is_alpha. cbn [alts run strip_prefix last_char].
  destruct (Ascii.eqb_spec "_"%char c) as [<-|Hc].
  - destruct (K (Some "_"%char) s); reflexivity.
  - rewrite (proj2 (Ascii.eqb_neq c "_"%char)) by congruence.
    destruct (in_range "0" "9" c), (in_range "A" "Z" c), (in_range "a" "z" c);
      cbn [orb]; destruct (K (Some c) s); reflexivity.
Qed.

Lemma run_alpha_underscore prev c s K :
  run alpha_underscore prev (String c s) K
  = if is_alpha c || Ascii.eqb c "_" then K (Some c) s else None.
Proof.
  unfold alpha_underscore, is_alpha. cbn [alts run strip_prefix last_char].
  destruct (Ascii.eqb_spec "_"%char c) as [<-|Hc].
  - destruct (K (Some "_"%char) s); reflexivity.
  - rewrite (proj2 (Ascii.eqb_neq c "_"%char)) by congruence.
    destruct (in_range "A" "Z" c), (in_range "a" "z" c);
      cbn [orb]; destruct (K (Some c) s); reflexivity.
Qed.

Lemma run_WordBoundary prev s K :
  run WordBoundary prev s K
  = if xorb (is_word_opt prev) (is_word_opt (head s)) then K prev s else None.
Proof. reflexivity. Qed.

Lemma run_Lit p prev s K :
  run (Lit p) prev s K
  = match strip_prefix p s with Some s' => K (last_char prev p) s' | None => None end.
Proof. reflexivity. Qed.

Lemma head_is_word (s : string) : is_word_opt (head s) = head_is is_word s.
Proof. destruct s; reflexivity. Qed.

Lemma strip_prefix_self (p t : string) : strip_prefix p (p ++ t)%string = Some t.
Proof.
  induction p as [|a p IH]; simpl; [reflexivity|]. rewrite Ascii.eqb_refl. exact IH.
Qed.

Lemma last_char_word (p : string) (prev : option ascii) :
  all_chars is_word p = true -> p <> "" -> is_word_opt (last_char prev p) = true.
Proof.
  revert prev. induction p as [|a p IH]; intros prev Hp Hne; [contradiction|].
  simpl in Hp. apply andb_true_iff in Hp. destruct Hp as [Ha Hp].
  destruct p as [|b p]; [exact Ha|].
  simpl. apply (IH (Some a)); [exact Hp | discriminate].
Qed.

(** After a word, a literal of word characters is followed by a word
    boundary only where the literal is the whole word. *)
Lemma literal_in_word (p : string) :
  forall w t s',
    all_chars is_word p = true ->
    all_chars is_word w = true ->
    head_is is_word t = false ->
    strip_prefix p (w ++ t)%string = Some s' ->
    if String.eqb w p then s' = t else head_is is_word s' = true.
Proof.
  induction p as [|a p IH]; intros w t s' Hp Hw Ht H.
  - simpl in H. inversion H; subst s'. destruct w as [|c w]; [reflexivity|].
    simpl in *. apply andb_true_iff in Hw. apply Hw.
  - simpl in Hp. apply andb_true_iff in Hp. destruct Hp as [Ha Hp].
    destruct w as [|c w].
    + simpl in H. destruct t as [|b t]; [discriminate|].
      destruct (Ascii.eqb_spec a b) as [<-|]; [|discriminate].
      simpl in Ht. congruence.
    + simpl in Hw. apply andb_true_iff in Hw. destruct Hw as [Hc Hw].
      simpl in H. destruct (Ascii.eqb_spec a c) as [<-|]; [|discriminate].
      simpl. rewrite Ascii.eqb_refl. apply IH; assumption.
Qed.

Lemma run_bounded_Lit (p w t : string) :
  all_chars is_word p = true -> p <> "" ->
  all_chars is_word w = true ->
  head_is is_word t = false ->
  run (Lit p) None (w ++ t)%string (fun p' s' => run (Cat WordBoundary (Lit "")) p' s' final)
  = if String.eqb w p then Some t else None.
Proof.
  intros Hp Hne Hw Ht. rewrite run_Lit.
  destruct (strip_prefix p (w ++ t)%string) as [s'|] eqn:E.
  - pose proof (literal_in_word p w t s' Hp Hw Ht E) as H.
    rewrite run_Cat, run_WordBoundary, head_is_word, (last_char_word p None Hp Hne).
    destruct (String.eqb w p).
    + subst s'. rewrite Ht. reflexivity.
    + rewrite H. reflexivity.
  - destruct (String.eqb_spec w p) as [->|]; [|reflexivity].
    rewrite strip_prefix_self in E. discriminate.
Qed.

Lemma run_bounded_alts (ps : list string) (w t : string) :
  Forall (fun p => all_chars is_word p = true /\ p <> "") ps ->
  all_chars is_word w = true -> w <> "" ->
  head_is is_word t = false ->
  match_rule (bounded_alts ps) (w ++ t)%string
  = if existsb (String.eqb w) ps then Some t else None.
Proof.
  intros Hps Hw Hne Ht. unfold match_rule, bounded_alts, cats. cbn [fold_right].
  rewrite run_Cat, run_WordBoundary. cbn [is_word_opt].
  rewrite head_is_word.
  assert (Hhead : head_is is_word (w ++ t)%string = true).
  { destruct w as [|c w]; [contradiction|]. simpl in *. apply andb_true_iff in Hw. apply Hw. }
  rewrite Hhead. cbn [xorb]. rewrite run_Cat.
  change (fun (_ : option ascii) (s' : string) => Some s') with final.
  induction Hps as [|p ps [Hp Hpne] Hps IH].
  - destruct w as [|c w]; [contradiction|]. reflexivity.
  - cbn [map existsb]. destruct ps as [|q ps].
    + cbn [alts map existsb]. rewrite run_bounded_Lit by assumption.
      rewrite orb_false_r. reflexivity.
    + change (alts (Lit p :: map Lit (q :: ps))) with (Alt (Lit p) (alts (map Lit (q :: ps)))).
      rewrite run_Alt, run_bounded_Lit by assumption.
      destruct (String.eqb w p); [reflexivity|]. exact IH.
Qed.

Ltac word_literals :=
  repeat (constructor; [split; [reflexivity | discriminate]|]); constructor.

Lemma Modifier_rule_on_word (w t : string) :
  all_chars is_word w = true -> w <> "" -> head_is is_word t = false ->
  match_rule Modifier_rule (w ++ t)%string
  = if existsb (String.eqb w) modifiers then Some t else None.
Proof.
  intros. apply (run_bounded_alts modifiers); try assumption. word_literals.
Qed.

Lemma Keyword_rule_on_word (w t : string) :
  all_chars is_word w = true -> w <> "" -> head_is is_word t = false ->
  match_rule Keyword_rule (w ++ t)%string
  = if existsb (String.eqb w) keywords then Some t else None.
Proof.
  intros. apply (run_bounded_alts keywords); try assumption. word_literals.
Qed.

Lemma word_class_at_end (t : string) :
  head_is is_word t = false -> forall prev K, run word_class prev t K = None.
Proof.
  intros Ht prev K. destruct t as [|c t]; [reflexivity|].
  rewrite run_word_class. simpl in Ht. rewrite Ht. reflexivity.
Qed.

Lemma identifier_start_is_word (c : ascii) :
  is_alpha c || Ascii.eqb c "_" = true -> is_word c = true.
Proof.
  unfold is_word. destruct (is_digit c), (is_alpha c), (Ascii.eqb c "_"); auto.
Qed.

Lemma Ident_rule_on_identifier (w t : string) :
  identifier_shaped w = true -> head_is is_word t = false ->
  match_rule Ident_rule (w ++ t)%string = Some t.
Proof.
  intros Hw Ht. destruct w as [|c w]; [discriminate|].
  simpl in Hw. apply andb_true_iff in Hw. destruct Hw as [Hc Hw].
  pose proof (identifier_start_is_word c Hc) as Hcw.
  unfold match_rule, Ident_rule, cats. cbn [fold_right].
  change (String c w ++ t)%string with (String c (w ++ t)%string).
  rewrite run_Cat, run_WordBoundary. cbn [is_word_opt head]. rewrite Hcw. cbn [xorb].
  rewrite !run_Cat, run_alpha_underscore, Hc, run_Star.
  apply (star_loop_greedy (run word_class) is_word).
  - intros c' s prev K Hc'. rewrite run_word_class, Hc'. reflexivity.
  - exact Hw.
  - apply word_class_at_end. exact Ht.
  - rewrite append_length. lia.
  - rewrite run_Cat, run_WordBoundary, head_is_word, Ht.
    assert (Hl : is_word_opt (last_char (Some c) w) = true).
    { change (last_char (Some c) w) with (last_char None (String c w)).
      apply last_char_word; [simpl; rewrite Hcw, Hw; reflexivity | discriminate]. }
    rewrite Hl. reflexivity.
Qed.

Lemma word_start (c : ascii) :
  is_word c = true ->
  Ascii.eqb "/" c = false /\ Ascii.eqb backslash_char c = false /\
  mem c [carriage_return; tab; " "%char] = false.
Proof.
  destruct c as [[] [] [] [] [] [] [] []]; vm_compute; intros H;
    first [discriminate H | repeat split].
Qed.

Lemma no_rule_before_a_word (c : ascii) (s : string) :
  is_word c = true ->
  match_rule comment_rule (String c s) = None /\
  match_rule backslash_rule (String c s) = None /\
  match_rule whitespace_rule (String c s) = None.
Proof.
  intros Hc. destruct (word_start c Hc) as (H1 & H2 & H3).
  unfold match_rule, comment_rule, backslash_rule, whitespace_rule, cats, lit1.
  cbn [fold_right run strip_prefix]. rewrite H1, H2, H3. repeat split.
Qed.

(** X3: a word (a letter or an underscore, then letters, digits and
    underscores) that is followed by the end of the text or by a character
    that is not a word character is one token: a [Modifier] if it is one of
    the three modifiers, a [Keyword] if it is one of the fifteen keywords, and
    an [Ident] otherwise. A longer word that begins with a keyword is an
    identifier, and so are the words [class], [return], [else] and [init],
    which the rule [Keyword] does not list. *)
Theorem X3_words_are_modifiers_keywords_or_identifiers (w t : string) :
  identifier_shaped w = true ->
  head_is is_word t = false ->
  first_match rules (w ++ t)%string = Some (word_kind w, t).
Proof.
  intros Hw Ht.
  assert (Hall : all_chars is_word w = true /\ w <> "" /\
                 exists c w', w = String c w' /\ is_word c = true).
  { destruct w as [|c w']; [discriminate|]. simpl in Hw.
    apply andb_true_iff in Hw. destruct Hw as [Hc Hw'].
    pose proof (identifier_start_is_word c Hc) as Hcw.
    simpl. rewrite Hcw, Hw'. repeat split; [discriminate|]. eauto. }
  destruct Hall as (Hword & Hne & c & w' & Heq & Hc).
  pose proof (Modifier_rule_on_word w t Hword Hne Ht) as HM.
  pose proof (Keyword_rule_on_word w t Hword Hne Ht) as HK.
  pose proof (Ident_rule_on_identifier w t Hw Ht) as HI.
  destruct (no_rule_before_a_word c (w' ++ t)%string Hc) as (H1 & H2 & H3).
  change (String c (w' ++ t)%string) with (String c w' ++ t)%string in H1, H2, H3.
  rewrite <- Heq in H1, H2, H3.
  unfold rules. cbn [first_match]. rewrite H1, H2, H3, HM, HK, HI.
  unfold word_kind.
  destruct (existsb (String.eqb w) modifiers); [reflexivity|].
  destruct (existsb (String.eqb w) keywords); reflexivity.
Qed.

(** The words [class], [import] and [pub], and the word [inner], which
    begins with the keyword [in]. *)
Lemma X3_witness :
  first_match rules "class A" = Some (Ident, " A") /\
  first_match rules "import m" = Some (Keyword, " m") /\
  first_match rules "pub fn" = Some (Modifier, " fn") /\
  first_match rules "inner" = Some (Ident, "").
Proof.
  split; [|split; [|split]].
  - exact (X3_words_are_modifiers_keywords_or_identifiers "class" " A" eq_refl eq_refl).
  - exact (X3_words_are_modifiers_keywords_or_identifiers "import" " m" eq_refl eq_refl).
  - exact (X3_words_are_modifiers_keywords_or_identifiers "pub" " fn" eq_refl eq_refl).
  - exact (X3_words_are_modifiers_keywords_or_identifiers "inner" "" eq_refl eq_refl).
Defined.

(** *** Comments *)

Lemma run_Dot prev c s K :
  run Dot prev (String c s) K = if Ascii.eqb c newline then None else K (Some c) s.
Proof. reflexivity. Qed.

(** X4: a line comment runs from [//] to the end of the line: the token is
    a [comment] that takes every character up to, and not including, the next
    newline or the end of the text. *)
Theorem X4_line_comment_runs_to_the_end_of_the_line (t u : string) :
  all_chars not_newline t = true ->
  head_is not_newline u = false ->
  first_match rules ("//" ++ t ++ u)%string = Some (comment, u).
Proof.
  intros Ht Hu.
  assert (H : match_rule comment_rule ("//" ++ t ++ u)%string = Some u).
  { unfold match_rule, comment_rule. rewrite run_Alt, run_Cat, run_Lit.
    rewrite strip_prefix_self, run_Star.
    rewrite (star_loop_greedy (run Dot) not_newline) with (x := u); try assumption.
    - reflexivity.
    - intros c s prev K Hc. rewrite run_Dot. unfold not_newline in Hc.
      destruct (Ascii.eqb c newline); [discriminate | reflexivity].
    - intros prev K. destruct u as [|c u]; [reflexivity|].
      rewrite run_Dot. simpl in Hu. unfold not_newline in Hu.
      destruct (Ascii.eqb c newline); [reflexivity | discriminate].
    - rewrite append_length. lia.
    - reflexivity. }
  unfold rules. cbn [first_match]. rewrite H. reflexivity.
Qed.

(** A comment that holds [//] and [*/], before a second line. *)
Lemma X4_witness :
  first_match rules ("//" ++ " a // b */" ++ String newline "x")%string
  = Some (comment, String newline "x").
Proof.
  exact (X4_line_comment_runs_to_the_end_of_the_line " a // b */" (String newline "x")
           eq_refl eq_refl).
Defined.

Lemma run_DotAll prev c s K : run DotAll prev (String c s) K = K (Some c) s.
Proof. reflexivity. Qed.

Lemma lazy_loop_S m k n prev s :
  lazy_loop m k (S n) prev s =
  match k prev s with
  | Some r => Some r
  | None =>
      m prev s (fun p' s' =>
        if Nat.ltb (String.length s') (String.length s) then lazy_loop m k n p' s' else None)
  end.
Proof. reflexivity. Qed.

Lemma lazy_loop_0 m k prev s :
  lazy_loop m k 0 prev s = match k prev s with Some r => Some r | None => None end.
Proof. reflexivity. Qed.

Lemma close_then_here (k : cont) prev u :
  close_then k prev ("*/" ++ u)%string = k (Some "/"%char) u.
Proof. reflexivity. Qed.

Lemma close_then_not_here (k : cont) prev s :
  closes_here s = false -> close_then k prev s = None.
Proof.
  unfold close_then. rewrite run_Cat, run_Lit. cbn [strip_prefix].
  destruct s as [|a [|b s]]; cbn [closes_here]; intros H.
  - reflexivity.
  - destruct (Ascii.eqb "*" a); reflexivity.
  - rewrite (Ascii.eqb_sym a), (Ascii.eqb_sym b) in H.
    destruct (Ascii.eqb "*" a); [|reflexivity].
    destruct (Ascii.eqb "/" b); [discriminate | reflexivity].
Qed.

Lemma closes_here_app (c : ascii) (t u : string) :
  closes_here (String c t) = false ->
  closes_here (String c (t ++ "*/" ++ u)%string) = false.
Proof.
  destruct t as [|b t]; [|exact (fun H => H)].
  intros _. cbn [append closes_here]. apply andb_false_r.
Qed.

(** The lazy loop of a block comment stops at the first end of comment. *)
Lemma lazy_loop_first_close (k : cont) (t u x : string) :
  has_close t = false ->
  k (Some "/"%char) u = Some x ->
  forall n prev, String.length t <= n ->
    lazy_loop (run DotAll) (close_then k) n prev (t ++ "*/" ++ u)%string = Some x.
Proof.
  intros Ht Hk. induction t as [|c t IH]; intros n prev Hn.
  - change ("" ++ "*/" ++ u)%string with ("*/" ++ u)%string.
    destruct n; [rewrite lazy_loop_0 | rewrite lazy_loop_S];
      rewrite close_then_here, Hk; reflexivity.
  - simpl in Ht. apply orb_false_elim in Ht. destruct Ht as [Hc Ht].
    destruct n as [|n]; [simpl in Hn; lia|].
    change (String c t ++ "*/" ++ u)%string with (String c (t ++ "*/" ++ u)%string).
    rewrite lazy_loop_S, close_then_not_here by (apply closes_here_app; exact Hc).
    rewrite run_DotAll.
    replace (Nat.ltb (String.length (t ++ "*/" ++ u)%string)
                     (String.length (String c (t ++ "*/" ++ u)%string)))
      with true by (symmetry; apply Nat.ltb_lt; simpl; lia).
    apply IH; [exact Ht | simpl in Hn; lia].
Qed.

Lemma lazy_loop_no_close (k : cont) n :
  forall t prev, has_close t = false ->
    lazy_loop (run DotAll) (close_then k) n prev t = None.
Proof.
  induction n as [|n IH]; intros t prev Ht.
  - rewrite lazy_loop_0, close_then_not_here; [reflexivity|].
    destruct t as [|c t]; [reflexivity|]. simpl in Ht. apply orb_false_elim in Ht. apply Ht.
  - rewrite lazy_loop_S, close_then_not_here.
    + destruct t as [|c t]; [reflexivity|]. rewrite run_DotAll.
      simpl in Ht. apply orb_false_elim in Ht. destruct Ht as [_ Ht].
      rewrite (IH t (Some c) Ht). destruct (Nat.ltb _ _); reflexivity.
    + destruct t as [|c t]; [reflexivity|]. simpl in Ht. apply orb_false_elim in Ht. apply Ht.
Qed.

Lemma comment_rule_block (t : string) :
  match_rule comment_rule ("/*" ++ t)%string
  = lazy_loop (run DotAll) (close_then final) (String.length t) (Some "*"%char) t.
Proof. reflexivity. Qed.

(** X5: a block comment ends at the first [*/] after its [/*]: when the
    text between them holds no [*/], the token is a [comment] that ends there,
    whatever follows. A [/*] that no [*/] closes is not a comment and not an
    error: its first character is lexed as the operator [/]. *)
Theorem X5_block_comment_ends_at_the_first_close (t u : string) :
  has_close t = false ->
  first_match rules ("/*" ++ t ++ "*/" ++ u)%string = Some (comment, u) /\
  first_match rules ("/*" ++ t)%string = Some (Operator, ("*" ++ t)%string).
Proof.
  intros Ht. split.
  - unfold rules. cbn [first_match].
    rewrite comment_rule_block.
    rewrite (lazy_loop_first_close final t u u Ht eq_refl); [reflexivity|].
    rewrite append_length. lia.
  - unfold rules. cbn [first_match].
    rewrite comment_rule_block, lazy_loop_no_close by exact Ht.
    vm_compute. reflexivity.
Qed.

(** A comment before a second [*/], and an unclosed [/*]. *)
Lemma X5_witness :
  first_match rules ("/*" ++ " a * b / " ++ "*/" ++ " c */")%string = Some (comment, " c */") /\
  first_match rules ("/*" ++ " a * b / ")%string = Some (Operator, "* a * b / ").
Proof.
  exact (X5_block_comment_ends_at_the_first_close " a * b / " " c */" eq_refl).
Defined.

(** *** String literals *)

Lemma run_Class neg ms prev c s K :
  run (Class neg ms) prev (String c s) K = if xorb neg (mem c ms) then K (Some c) s else None.
Proof. reflexivity. Qed.

Lemma mem_one (c a : ascii) : mem c [a] = Ascii.eqb c a.
Proof. simpl. apply orb_false_r. Qed.

Lemma no_rule_before_an_apostrophe (s : string) :
  first_match rules (String apostrophe s)
  = match match_rule String_rule (String apostrophe s) with
    | Some rest => Some (String_, rest)
    | None => None
    end.
Proof.
  unfold rules. cbn [first_match].
  replace (match_rule comment_rule (String apostrophe s)) with (@None string)
    by (vm_compute; reflexivity).
  replace (match_rule backslash_rule (String apostrophe s)) with (@None string)
    by (vm_compute; reflexivity).
  replace (match_rule whitespace_rule (String apostrophe s)) with (@None string)
    by (vm_compute; reflexivity).
  replace (match_rule Modifier_rule (String apostrophe s)) with (@None string)
    by (vm_compute; reflexivity).
  replace (match_rule Keyword_rule (String apostrophe s)) with (@None string)
    by (vm_compute; reflexivity).
  replace (match_rule Ident_rule (String apostrophe s)) with (@None string)
    by (vm_compute; reflexivity).
  replace (match_rule Number_rule (String apostrophe s)) with (@None string)
    by (vm_compute; reflexivity).
  destruct (match_rule String_rule (String apostrophe s)); [reflexivity|].
  vm_compute. reflexivity.
Qed.

Lemma all_chars_app (P : ascii -> bool) (a b : string) :
  all_chars P (a ++ b)%string = all_chars P a && all_chars P b.
Proof.
  induction a as [|c a IH]; simpl; [reflexivity|]. rewrite IH. apply andb_assoc.
Qed.

Lemma star_loop_suffix_none (m : option ascii -> string -> cont -> option string)
    (K : cont) (n : nat) (prev : option ascii) (s : string) :
  (forall prev s k' x, m prev s k' = Some x -> ends_at s k' x) ->
  (forall p' s' pre, s = (pre ++ s')%string -> K p' s' = None) ->
  star_loop m K n prev s = None.
Proof.
  intros Hm HK. destruct (star_loop m K n prev s) as [x|] eqn:E; [|reflexivity].
  apply (star_loop_suffix m K n Hm) in E. destruct E as (p' & s' & pre & Hk & Hs).
  rewrite (HK p' s' pre Hs) in Hk. discriminate.
Qed.

Lemma no_apostrophe_ahead (t pre s' : string) (p' : option ascii) (k : cont) :
  all_chars not_apostrophe t = true ->
  t = (pre ++ s')%string ->
  run (lit1 apostrophe) p' s' k = None.
Proof.
  intros Ht ->. rewrite all_chars_app in Ht. apply andb_true_iff in Ht.
  destruct Ht as [_ Ht]. destruct s' as [|c s']; [reflexivity|].
  rewrite run_lit1. simpl in Ht. apply andb_true_iff in Ht. destruct Ht as [Hc _].
  unfold not_apostrophe in Hc. rewrite Ascii.eqb_sym.
  destruct (Ascii.eqb c apostrophe); [discriminate | reflexivity].
Qed.

Lemma String_rule_single (s : string) :
  match_rule String_rule (String apostrophe s)
  = star_loop (run (Class true [apostrophe]))
      (fun p' s' => run (Cat (lit1 apostrophe) (Lit "")) p' s' final)
      (String.length s) (Some apostrophe) s.
Proof. reflexivity. Qed.

(** X6: a single-quoted literal ends at the next apostrophe: between the
    apostrophes any character but an apostrophe is taken, a backslash has no
    special meaning, and an apostrophe that no later apostrophe closes is
    matched by no rule. *)
Theorem X6_single_quoted_literal_ends_at_the_next_apostrophe (t u : string) :
  all_chars not_apostrophe t = true ->
  first_match rules (String apostrophe (t ++ String apostrophe u))%string = Some (String_, u) /\
  first_match rules (String apostrophe t) = None.
Proof.
  intros Ht. split.
  - rewrite no_rule_before_an_apostrophe, String_rule_single.
    rewrite (star_loop_greedy (run (Class true [apostrophe])) not_apostrophe)
      with (x := u); try assumption.
    + reflexivity.
    + intros c s prev K Hc. rewrite run_Class, mem_one. unfold not_apostrophe in Hc.
      destruct (Ascii.eqb c apostrophe); [discriminate | reflexivity].
    + intros prev K. rewrite run_Class, mem_one, Ascii.eqb_refl. reflexivity.
    + rewrite append_length. lia.
    + rewrite run_Cat, run_lit1, Ascii.eqb_refl. reflexivity.
  - rewrite no_rule_before_an_apostrophe, String_rule_single.
    rewrite star_loop_suffix_none; [reflexivity | intros; eapply run_suffix; eauto |].
    intros p' s' pre Hs. rewrite run_Cat.
    apply (no_apostrophe_ahead t pre s'); assumption.
Qed.

(** A literal that ends in a backslash. *)
Lemma X6_witness :
  first_match rules
    (String apostrophe (String "a" (String backslash_char "") ++ String apostrophe ";"))%string
  = Some (String_, ";") /\
  first_match rules (String apostrophe (String "a" (String backslash_char ""))) = None.
Proof.
  exact (X6_single_quoted_literal_ends_at_the_next_apostrophe
           (String "a" (String backslash_char "")) ";" eq_refl).
Defined.

Lemma no_rule_before_a_quote (s : string) :
  first_match rules (String quote s)
  = match match_rule String_rule (String quote s) with
    | Some rest => Some (String_, rest)
    | None => None
    end.
Proof.
  unfold rules. cbn [first_match].
  replace (match_rule comment_rule (String quote s)) with (@None string)
    by (vm_compute; reflexivity).
  replace (match_rule backslash_rule (String quote s)) with (@None string)
    by (vm_compute; reflexivity).
  replace (match_rule whitespace_rule (String quote s)) with (@None string)
    by (vm_compute; reflexivity).
  replace (match_rule Modifier_rule (String quote s)) with (@None string)
    by (vm_compute; reflexivity).
  replace (match_rule Keyword_rule (String quote s)) with (@None string)
    by (vm_compute; reflexivity).
  replace (match_rule Ident_rule (String quote s)) with (@None string)
    by (vm_compute; reflexivity).
  replace (match_rule Number_rule (String quote s)) with (@None string)
    by (vm_compute; reflexivity).
  destruct (match_rule String_rule (String quote s)); [reflexivity|].
  vm_compute. reflexivity.
Qed.

Lemma String_rule_double (s : string) :
  match_rule String_rule (String quote s)
  = match star_loop (run string_body)
            (fun p' s' => run (Cat (lit1 quote) (Lit "")) p' s' final)
            (String.length s) (Some quote) s with
    | Some x => Some x
    | None => None
    end.
Proof.
  unfold match_rule, String_rule, cats. cbn [fold_right].
  rewrite run_Alt, run_Cat, run_lit1, Ascii.eqb_refl, run_Cat, run_Star.
  change (fun (_ : option ascii) (s' : string) => Some s') with final.
  destruct (star_loop _ _ _ _ _); [reflexivity|].
  rewrite run_Cat, run_lit1. reflexivity.
Qed.

Lemma string_body_plain prev c s K :
  plain_char c = true -> run string_body prev (String c s) K = K (Some c) s.
Proof.
  unfold plain_char. intros Hc. apply andb_true_iff in Hc. destruct Hc as [Hq Hb].
  unfold string_body. rewrite run_Alt, run_Cat, run_lit1, run_Class, mem_one.
  rewrite Ascii.eqb_sym.
  destruct (Ascii.eqb c backslash_char); [discriminate|].
  destruct (Ascii.eqb c quote); [discriminate|]. reflexivity.
Qed.

Lemma string_body_at_quote prev u K : run string_body prev (String quote u) K = None.
Proof.
  unfold string_body. rewrite run_Alt, run_Cat, run_lit1, run_Class, mem_one.
  rewrite Ascii.eqb_refl. reflexivity.
Qed.

Lemma string_body_escape prev d s K :
  Ascii.eqb d newline = false ->
  K (Some d) s <> None ->
  run string_body prev (String backslash_char (String d s)) K = K (Some d) s.
Proof.
  intros Hd HK. unfold string_body.
  rewrite run_Alt, run_Cat, run_lit1, Ascii.eqb_refl, run_Dot, Hd.
  destruct (K (Some d) s); [reflexivity | contradiction].
Qed.

Lemma star_loop_at_quote (K : cont) (u x : string) n prev :
  (forall prev, K prev (String quote u) = Some x) ->
  star_loop (run string_body) K n prev ("" ++ String quote u)%string = Some x.
Proof.
  intros HK. change ("" ++ String quote u)%string with (String quote u).
  destruct n as [|n]; [apply HK|].
  rewrite star_loop_S, string_body_at_quote. apply HK.
Qed.

Lemma star_loop_escaped (K : cont) (u x : string) :
  (forall prev, K prev (String quote u) = Some x) ->
  forall m t, String.length t <= m ->
    escaped_text t = true ->
    forall n prev, String.length t <= n ->
      star_loop (run string_body) K n prev (t ++ String quote u)%string = Some x.
Proof.
  intros HK. induction m as [|m IH]; intros t Hm Ht n prev Hn.
  - destruct t as [|c t]; [|simpl in Hm; lia].
    apply star_loop_at_quote. exact HK.
  - destruct t as [|c t].
    + apply star_loop_at_quote. exact HK.
    + destruct n as [|n]; [simpl in Hn; lia|].
      change (String c t ++ String quote u)%string with (String c (t ++ String quote u)%string).
      rewrite star_loop_S. simpl in Ht.
      destruct (Ascii.eqb_spec c backslash_char) as [->|Hc].
      * destruct t as [|d t]; [discriminate|].
        apply andb_true_iff in Ht. destruct Ht as [Hd Ht]. apply negb_true_iff in Hd.
        change (String d t ++ String quote u)%string
          with (String d (t ++ String quote u)%string).
        assert (Hrec : star_loop (run string_body) K n (Some d) (t ++ String quote u)%string
                       = Some x).
        { apply IH; [simpl in Hm; lia | exact Ht | simpl in Hn; lia]. }
        rewrite string_body_escape; [| exact Hd |].
        -- replace (Nat.ltb _ _) with true by (symmetry; apply Nat.ltb_lt; simpl; lia).
           rewrite Hrec. reflexivity.
        -- replace (Nat.ltb _ _) with true by (symmetry; apply Nat.ltb_lt; simpl; lia).
           rewrite Hrec. discriminate.
      * apply andb_true_iff in Ht. destruct Ht as [Hq Ht].
        rewrite string_body_plain.
        -- replace (Nat.ltb _ _) with true by (symmetry; apply Nat.ltb_lt; simpl; lia).
           rewrite IH; [reflexivity | simpl in Hm; lia | exact Ht | simpl in Hn; lia].
        -- unfold plain_char. rewrite Hq. apply Ascii.eqb_neq in Hc. rewrite Hc. reflexivity.
Qed.

(** X7: a double-quoted literal ends at the first double quote that is not
    escaped: when the text between the quotes is made of characters other
    than the double quote and the backslash and of escapes (a backslash and
    the character after it, a double quote included), the token is a [String]
    that ends at the closing quote, whatever follows. *)
Theorem X7_double_quoted_literal_ends_at_the_first_unescaped_quote (t u : string) :
  escaped_text t = true ->
  first_match rules (String quote (t ++ String quote u))%string = Some (String_, u).
Proof.
  intros Ht.
  rewrite no_rule_before_a_quote, String_rule_double.
  rewrite (star_loop_escaped _ u u) with (m := String.length t); auto.
  rewrite append_length. lia.
Qed.

(** A literal that holds an escaped double quote. *)
Lemma X7_witness :
  first_match rules
    (String quote
       (String "a" (String backslash_char (String quote "b")) ++ String quote ";"))%string
  = Some (String_, ";").
Proof.
  exact (X7_double_quoted_literal_ends_at_the_first_unescaped_quote
           (String "a" (String backslash_char (String quote "b"))) ";" eq_refl).
Defined.

(** *** Numbers *)

Lemma run_digit_class prev c s K :
  run digit_class prev (String c s) K = if is_digit c then K (Some c) s else None.
Proof. reflexivity. Qed.

Lemma digit_is_word (c : ascii) : is_digit c = true -> is_word c = true.
Proof. unfold is_word. intros ->. reflexivity. Qed.

Lemma digits_are_word (d : string) : all_chars is_digit d = true -> all_chars is_word d = true.
Proof.
  induction d as [|c d IH]; simpl; [reflexivity|]. intros H.
  apply andb_true_iff in H. destruct H as [Hc Hd].
  rewrite (digit_is_word c Hc), (IH Hd). reflexivity.
Qed.

Lemma digit_starts_no_word (c : ascii) (d : string) :
  is_digit c = true ->
  existsb (String.eqb (String c d)) modifiers = false /\
  existsb (String.eqb (String c d)) keywords = false /\
  is_alpha c || Ascii.eqb c "_" = false.
Proof.
  destruct c as [[] [] [] [] [] [] [] []]; intros H; try discriminate H;
    vm_compute; repeat split.
Qed.

Lemma digit_class_at_end (t : string) :
  head_is is_word t = false -> forall prev K, run digit_class prev t K = None.
Proof.
  intros Ht prev K. destruct t as [|c t]; [reflexivity|].
  rewrite run_digit_class. simpl in Ht.
  destruct (is_digit c) eqn:E; [|reflexivity].
  rewrite (digit_is_word c E) in Ht. discriminate.
Qed.

Lemma after_number_ok (prev : option ascii) (t : string) :
  is_word_opt prev = true -> head_is is_word t = false -> after_number prev t = Some t.
Proof.
  intros Hp Ht. unfold after_number.
  rewrite run_Cat, run_WordBoundary, head_is_word, Hp, Ht. reflexivity.
Qed.

Lemma last_digit_is_word (c : ascii) (d : string) (prev : option ascii) :
  is_digit c = true -> all_chars is_digit d = true ->
  is_word_opt (last_char (Some c) d) = true.
Proof.
  intros Hc Hd. change (last_char (Some c) d) with (last_char prev (String c d)).
  apply last_char_word; [|discriminate].
  simpl. rewrite (digit_is_word c Hc), (digits_are_word d Hd). reflexivity.
Qed.

(** The digits of [Plus digit_class], then the continuation. *)
Lemma digits_then (c : ascii) (d t x : string) (prev : option ascii) (K : cont) :
  is_digit c = true -> all_chars is_digit d = true ->
  head_is is_word t = false ->
  K (last_char (Some c) d) t = Some x ->
  run (Plus digit_class) prev (String c (d ++ t)%string) K = Some x.
Proof.
  intros Hc Hd Ht HK.
  change (run (Plus digit_class) prev (String c (d ++ t)%string) K)
    with (run digit_class prev (String c (d ++ t)%string)
            (fun p' s' => star_loop (run digit_class) K (String.length s') p' s')).
  rewrite run_digit_class, Hc.
  apply (star_loop_greedy (run digit_class) is_digit).
  - intros c' s prev' K' Hc'. rewrite run_digit_class, Hc'. reflexivity.
  - exact Hd.
  - apply digit_class_at_end. exact Ht.
  - rewrite append_length. lia.
  - exact HK.
Qed.

Lemma Number_rule_eq (c : ascii) (s : string) :
  is_digit c = true ->
  match_rule Number_rule (String c s)
  = run (Plus digit_class) None (String c s)
      (fun p' s' => run fraction p' s' after_number).
Proof.
  intros Hc. unfold match_rule, Number_rule, cats. cbn [fold_right].
  rewrite run_Cat, run_WordBoundary. cbn [is_word_opt head].
  rewrite (digit_is_word c Hc). cbn [xorb]. rewrite !run_Cat. reflexivity.
Qed.

Lemma fraction_absent (prev : option ascii) (t : string) :
  starts_fraction t = false -> run fraction prev t after_number = after_number prev t.
Proof.
  intros Ht. unfold fraction.
  change (run (Opt (Cat (Lit ".") (Plus digit_class))) prev t after_number)
    with (match run (Cat (Lit ".") (Plus digit_class)) prev t after_number with
          | Some x => Some x
          | None => after_number prev t
          end).
  rewrite run_Cat, run_Lit.
  destruct t as [|a t]; [reflexivity|]. cbn [strip_prefix].
  destruct (Ascii.eqb_spec "."%char a) as [<-|Ha]; [|reflexivity].
  destruct t as [|b t]; [reflexivity|].
  simpl in Ht.
  change (run (Plus digit_class) (last_char prev ".") (String b t) after_number)
    with (run digit_class (last_char prev ".") (String b t)
            (fun p' s' => star_loop (run digit_class) after_number (String.length s') p' s')).
  rewrite run_digit_class, Ht. reflexivity.
Qed.

Lemma first_match_number (c : ascii) (d s : string) (rest : string) :
  is_digit c = true -> all_chars is_digit d = true ->
  (exists t, s = (d ++ t)%string /\ head_is is_word t = false) ->
  match_rule Number_rule (String c s) = Some rest ->
  first_match rules (String c s) = Some (Number, rest).
Proof.
  intros Hc Hd (t & -> & Ht) HN.
  pose proof (digit_is_word c Hc) as Hcw.
  destruct (no_rule_before_a_word c (d ++ t)%string Hcw) as (H1 & H2 & H3).
  destruct (digit_starts_no_word c d Hc) as (Hm & Hk & Hi).
  assert (Hw : all_chars is_word (String c d) = true).
  { simpl. rewrite Hcw, (digits_are_word d Hd). reflexivity. }
  pose proof (Modifier_rule_on_word (String c d) t Hw ltac:(discriminate) Ht) as HM.
  pose proof (Keyword_rule_on_word (String c d) t Hw ltac:(discriminate) Ht) as HK.
  rewrite Hm in HM. rewrite Hk in HK.
  change (String c d ++ t)%string with (String c (d ++ t)%string) in HM, HK.
  assert (HI : match_rule Ident_rule (String c (d ++ t)%string) = None).
  { unfold match_rule, Ident_rule, cats. cbn [fold_right].
    rewrite run_Cat, run_WordBoundary. cbn [is_word_opt head]. rewrite Hcw. cbn [xorb].
    rewrite !run_Cat, run_alpha_underscore, Hi. reflexivity. }
  unfold rules. cbn [first_match]. rewrite H1, H2, H3, HM, HK, HI, HN. reflexivity.
Qed.

(** X8: a run of digits that is followed by the end of the text or by a
    character that is not a word character is one [Number], unless a fraction
    follows; digits, a dot and digits are one [Number] as well. A dot that no
    digit follows is not part of the number. *)
Theorem X8_number_literals (d f t : string) :
  all_chars is_digit d = true -> d <> "" ->
  all_chars is_digit f = true -> f <> "" ->
  head_is is_word t = false ->
  (starts_fraction t = false ->
   first_match rules (d ++ t)%string = Some (Number, t)) /\
  first_match rules (d ++ "." ++ f ++ t)%string = Some (Number, t).
Proof.
  intros Hd Hdne Hf Hfne Ht.
  destruct d as [|c d]; [contradiction|]. simpl in Hd.
  apply andb_true_iff in Hd. destruct Hd as [Hc Hd].
  destruct f as [|e f]; [contradiction|]. simpl in Hf.
  apply andb_true_iff in Hf. destruct Hf as [He Hf].
  split.
  - intros Hfrac.
    change (String c d ++ t)%string with (String c (d ++ t)%string).
    apply (first_match_number c d); auto; [eauto|].
    rewrite (Number_rule_eq c _ Hc).
    apply digits_then; auto.
    rewrite (fraction_absent _ _ Hfrac).
    apply after_number_ok; [apply (last_digit_is_word c d None); assumption | exact Ht].
  - change (String c d ++ "." ++ String e f ++ t)%string
      with (String c (d ++ String "." (String e (f ++ t)))%string).
    apply (first_match_number c d); auto.
    { exists (String "." (String e (f ++ t)))%string. split; reflexivity. }
    rewrite (Number_rule_eq c _ Hc).
    apply digits_then; auto.
    unfold fraction.
    change (run (Opt (Cat (Lit ".") (Plus digit_class))) ?p ?s after_number)
      with (match run (Cat (Lit ".") (Plus digit_class)) p s after_number with
            | Some x => Some x
            | None => after_number p s
            end).
    rewrite run_Cat, run_Lit. cbn [strip_prefix]. rewrite Ascii.eqb_refl.
    rewrite (digits_then e f t t); auto.
    apply after_number_ok; [apply (last_digit_is_word e f None); assumption | exact Ht].
Qed.

(** The numbers of [12.x] and [12.5 ]. *)
Lemma X8_witness :
  (starts_fraction ".x" = false -> first_match rules "12.x" = Some (Number, ".x")) /\
  first_match rules "12.5.x" = Some (Number, ".x").
Proof.
  exact (X8_number_literals "12" "5" ".x" eq_refl ltac:(discriminate) eq_refl
           ltac:(discriminate) eq_refl).
Defined.

End TokenFacts.

(* ------------------------------------------------------------------ *)
(** ** Properties of the operator table *)

Module OperatorFacts.

Import Lexer LexerFacts TokenFacts OpString.

Lemma in_range_cases (i : Z) :
  (0 <= i < 24)%Z ->
  In i [0;1;2;3;4;5;6;7;8;9;10;11;12;13;14;15;16;17;18;19;20;21;22;23]%Z.
Proof.
  intros H. simpl.
  assert (H' : (i = 0 \/ i = 1 \/ i = 2 \/ i = 3 \/ i = 4 \/ i = 5 \/ i = 6 \/ i = 7 \/ i = 8
          \/ i = 9 \/ i = 10 \/ i = 11 \/ i = 12 \/ i = 13 \/ i = 14 \/ i = 15 \/ i = 16
          \/ i = 17 \/ i = 18 \/ i = 19 \/ i = 20 \/ i = 21 \/ i = 22 \/ i = 23)%Z) by lia.
  intuition auto.
Qed.

Lemma Op_String_in_range (i : Z) :
  (0 <= i < 24)%Z -> Op_String i = Returns (nth (Z.to_nat i) spellings "").
Proof.
  intros H. apply in_range_cases in H.
  repeat (destruct H as [<- | H]; [vm_compute; reflexivity|]). destruct H.
Qed.

Lemma Op_String_out_of_range (i : Z) :
  ~ (0 <= i < 24)%Z -> Op_String i = Returns ("Op(" ++ FormatInt i ++ ")")%string.
Proof.
  intros H. unfold Op_String.
  replace (Z.of_nat (List.length _Op_index - 1)) with 24%Z by reflexivity.
  destruct (Z.ltb_spec i 0); [reflexivity|].
  destruct (Z.leb_spec 24 i); [reflexivity|]. lia.
Qed.

Lemma to_int_not_nil (z : Z) :
  Z.to_int z <> Decimal.Pos Decimal.Nil /\ Z.to_int z <> Decimal.Neg Decimal.Nil.
Proof.
  destruct z; simpl; split; try discriminate;
    intros H; inversion H as [H']; apply Unsigned.to_uint_nonnil in H'; exact H'.
Qed.

Lemma FormatInt_inj (a b : Z) : FormatInt a = FormatInt b -> a = b.
Proof.
  unfold FormatInt. intros H.
  apply (f_equal NilZero.int_of_string) in H.
  destruct (to_int_not_nil a) as [Ha1 Ha2]. destruct (to_int_not_nil b) as [Hb1 Hb2].
  rewrite !NilZero.isi in H by assumption.
  inversion H as [H']. apply to_int_inj. exact H'.
Qed.

Lemma app_inv_tail_string (a b t : string) : (a ++ t = b ++ t)%string -> a = b.
Proof.
  revert b. induction a as [|c a IH]; intros b H.
  - destruct b as [|d b]; [reflexivity|]. exfalso.
    apply (f_equal String.length) in H. simpl in H. rewrite append_length in H. lia.
  - destruct b as [|d b].
    + exfalso. apply (f_equal String.length) in H. simpl in H.
      rewrite append_length in H. lia.
    + simpl in H. inversion H. f_equal. apply IH. assumption.
Qed.

(** X9: [Op.String] returns for every value, without an index or a slice
    out of range: for the twenty-four constants it is the spelling of the
    operator (the empty text for [OpNone]), cut from the table of names, and
    for any other value, negative ones included, it is [Op(n)] with [n] in
    decimal. *)
Theorem X9_Op_String_returns (i : Op) :
  exists s, Op_String i = Returns s /\
    ((0 <= i < 24)%Z -> s = nth (Z.to_nat i) spellings "" /\ String.length s <= 2) /\
    (~ (0 <= i < 24)%Z -> s = ("Op(" ++ FormatInt i ++ ")")%string).
Proof.
  assert (Hdec : (0 <= i < 24)%Z \/ ~ (0 <= i < 24)%Z) by lia.
  destruct Hdec as [Hi|Hi].
  - exists (nth (Z.to_nat i) spellings ""). split; [apply Op_String_in_range; exact Hi|].
    split; [|contradiction]. intros _. split; [reflexivity|].
    apply in_range_cases in Hi. simpl in Hi.
    repeat (destruct Hi as [<- | Hi]; [vm_compute; lia|]). destruct Hi.
  - exists ("Op(" ++ FormatInt i ++ ")")%string.
    split; [apply Op_String_out_of_range; exact Hi|].
    split; [contradiction | reflexivity].
Qed.

Lemma Op_String_inj (i j : Op) : Op_String i = Op_String j -> i = j.
Proof.
  intros H.
  assert (Hdec : forall k : Z, (0 <= k < 24)%Z \/ ~ (0 <= k < 24)%Z) by (intros; lia).
  destruct (Hdec i) as [Hi|Hi], (Hdec j) as [Hj|Hj].
  - apply in_range_cases in Hi. apply in_range_cases in Hj.
    simpl in Hi, Hj.
    repeat (destruct Hi as [<- | Hi]; [
      repeat (destruct Hj as [<- | Hj]; [first [reflexivity | vm_compute in H; discriminate H]|]);
      destruct Hj |]).
    destruct Hi.
  - exfalso. rewrite (Op_String_out_of_range j Hj) in H.
    apply in_range_cases in Hi. simpl in Hi.
    repeat (destruct Hi as [<- | Hi]; [vm_compute in H; discriminate H|]). destruct Hi.
  - exfalso. rewrite (Op_String_out_of_range i Hi) in H.
    apply in_range_cases in Hj. simpl in Hj.
    repeat (destruct Hj as [<- | Hj]; [vm_compute in H; discriminate H|]). destruct Hj.
  - rewrite (Op_String_out_of_range i Hi), (Op_String_out_of_range j Hj) in H.
    inversion H as [H']. apply app_inv_tail_string in H'. apply FormatInt_inj. exact H'.
Qed.

(** X10: [Op.String] tells the values of [Op] apart: two different values,
    constants or not, never have the same text. *)
Theorem X10_Op_String_is_injective (i j : Op) : i <> j -> Op_String i <> Op_String j.
Proof. intros Hne H. apply Hne. apply Op_String_inj. exact H. Qed.

(** [-] and [-=], and a constant and a value that is none. *)
Lemma X10_witness :
  Op_String OpSub <> Op_String OpSubAsgn /\ Op_String OpSend <> Op_String 24%Z.
Proof.
  split.
  - apply (X10_Op_String_is_injective OpSub OpSubAsgn). discriminate.
  - apply (X10_Op_String_is_injective OpSend 24%Z). discriminate.
Defined.

Lemma spelling_is_an_Op (v : string) :
  In v (tl spellings) -> exists i, (0 < i < 24)%Z /\ Op_String i = Returns v.
Proof.
  intros H.
  assert (Hin : In v spellings) by (right; exact H).
  destruct (In_nth _ _ "" Hin) as (k & Hk & Hv).
  assert (k <> 0). { intros ->. simpl in Hv. subst v. simpl in H.
    repeat (destruct H as [H|H]; [discriminate|]). exact H. }
  exists (Z.of_nat k). change (List.length spellings) with 24 in Hk.
  split; [lia|]. rewrite Op_String_in_range by lia. rewrite Nat2Z.id, Hv. reflexivity.
Qed.

Lemma Operator_rule_spells_an_Op (s rest : string) :
  match_rule Operator_rule s = Some rest ->
  exists i v, (0 < i < 24)%Z /\ Op_String i = Returns v /\ s = (v ++ rest)%string.
Proof.
  unfold match_rule, Operator_rule. cbn [alts run]. intros H.
  repeat match type of H with
  | context [strip_prefix ?p s] =>
      destruct (strip_prefix p s) as [s'|] eqn:E;
      [ inversion H; subst s'; apply strip_prefix_app in E;
        destruct (spelling_is_an_Op p) as (i & Hi & Hv); [simpl; tauto|];
        exists i, p; auto
      | clear E ]
  end.
  destruct s as [|c s]; [discriminate|].
  destruct (xorb false _) eqn:E; [|discriminate].
  injection H as <-. cbn [xorb mem] in E.
  assert (Hc : In (String c "") (tl spellings)).
  { repeat match type of E with
    | (Ascii.eqb c ?x || _) = true =>
        destruct (Ascii.eqb_spec c x) as [->|_]; [simpl; tauto | cbn [orb] in E]
    end. discriminate. }
  destruct (spelling_is_an_Op _ Hc) as (i & Hi & Hv).
  exists i, (String c ""). auto.
Qed.

(** X11: the spelling of every operator of [Op] is one token of the lexer:
    lexing the text that [Op.String] returns for a constant other than
    [OpNone] gives exactly one [Operator] token with that text, and a
    two-character operator is taken whole whatever follows it. *)
Theorem X11_Op_spellings_lex_as_one_Operator (i : Op) (v : string) :
  (0 < i < 24)%Z ->
  Op_String i = Returns v ->
  lex_all v = Tokens [mkToken Operator v start_position] /\
  (String.length v = 2 -> forall t, first_match rules (v ++ t)%string = Some (Operator, t)).
Proof.
  intros Hi Hv.
  assert (Hi' : (0 <= i < 24)%Z) by lia.
  apply in_range_cases in Hi'. simpl in Hi'.
  destruct Hi' as [<- | Hi']; [lia|].
  repeat (destruct Hi' as [<- | Hi'];
          [vm_compute in Hv; inversion Hv; subst v; split;
           [vm_compute; reflexivity
           | intros Hl; first [discriminate Hl | intros t; vm_compute; reflexivity]]|]).
  destruct Hi'.
Qed.

(** The operator [>=]. *)
Lemma X11_witness :
  lex_all ">=" = Tokens [mkToken Operator ">=" start_position] /\
  (String.length ">=" = 2 -> forall t, first_match rules (">=" ++ t)%string = Some (Operator, t)).
Proof.
  apply (X11_Op_spellings_lex_as_one_Operator OpGe ">=").
  - unfold OpGe. lia.
  - reflexivity.
Defined.

Lemma Operator_rule_only (r : regex) : In (Operator, r) rules -> r = Operator_rule.
Proof.
  unfold rules. simpl. intros H.
  repeat (destruct H as [H|H]; [inversion H; try reflexivity|]). destruct H.
Qed.

(** X12: every [Operator] token of a lexed text is the spelling of an
    operator of [Op]: its text is what [Op.String] returns for one of the
    constants other than [OpNone]. *)
Theorem X12_Operator_tokens_spell_an_Op (s : string) (ts : list Token) (t : Token) :
  lex_all s = Tokens ts ->
  In t ts ->
  Type_ t = Operator ->
  exists i : Op, (0 < i < 24)%Z /\ Op_String i = Returns (Value t).
Proof.
  intros H Hin Hop.
  destruct (lex_from_tokens _ _ _ _ H) as (_ & _ & Hf).
  rewrite Forall_forall in Hf. specialize (Hf t Hin).
  destruct Hf as [kind s' rest pos Hm]. simpl in Hop. subst kind.
  destruct (first_match_rule _ _ _ _ Hm) as (r & Hr & Hrule).
  apply Operator_rule_only in Hr. subst r.
  destruct (Operator_rule_spells_an_Op s' rest Hrule) as (i & v & Hi & Hv & Hs).
  exists i. split; [exact Hi|]. simpl. rewrite Hs, take_app. exact Hv.
Qed.

(** The operator of [a >= b]. *)
Lemma X12_witness :
  exists i : Op, (0 < i < 24)%Z /\ Op_String i = Returns ">=".
Proof.
  apply (X12_Operator_tokens_spell_an_Op "a >= b" a_ge_b_tokens
           (mkToken Operator ">=" (at_ 2))).
  - vm_compute. reflexivity.
  - simpl. tauto.
  - reflexivity.
Defined.

End OperatorFacts.

(* ------------------------------------------------------------------ *)
(** ** Properties of the declaration lists *)

Module DeclsFacts.

Import Lexer Grammar GrammarFacts.
Local Open Scope parse_scope.

Lemma append_Decls_returns {A : Type} (resolve : A -> result Decl) (l : list A) :
  Forall (fun x => exists d, resolve x = Returns d) l ->
  forall decls, exists ds,
    append_Decls resolve decls l = Returns (decls ++ ds) /\
    Forall2 (fun x d => resolve x = Returns d) l ds.
Proof.
  induction 1 as [|x l [d Hd] Hl IH]; intros decls.
  - exists []. rewrite app_nil_r. split; [reflexivity | constructor].
  - destruct (IH (decls ++ [d])) as (ds & Hds & Hall).
    exists (d :: ds). simpl. rewrite Hd, Hds, <- app_assoc. split; [reflexivity|].
    constructor; assumption.
Qed.

Lemma append_Decls_panics {A : Type} (resolve : A -> result Decl) (l : list A) (msg : string) :
  Forall (fun x => (exists d, resolve x = Returns d) \/ resolve x = Panics msg) l ->
  Exists (fun x => resolve x = Panics msg) l ->
  forall decls, append_Decls resolve decls l = Panics msg.
Proof.
  induction 1 as [|x l Hx Hl IH]; intros Hex decls.
  - inversion Hex.
  - simpl. destruct Hx as [[d Hd]|Hp].
    + rewrite Hd. apply IH. inversion Hex as [? ? Hp|]; subst; [congruence | assumption].
    + rewrite Hp. reflexivity.
Qed.

(** *** What the rules produce *)

Lemma many_loop_produced {A : Type} (p : P A) (n : nat) :
  forall ts l rest, many_loop p n ts = Ok l rest -> Forall (produced_by p) l.
Proof.
  induction n as [|n IH]; intros ts l rest H; simpl in H.
  - inversion H. constructor.
  - destruct (p ts) as [a r|d|] eqn:E; try discriminate.
    + destruct (Nat.ltb _ _).
      * destruct (many_loop p n r) as [l' r'|d|] eqn:E'; try discriminate.
        inversion H; subst. constructor; [exists ts, r; exact E | eapply IH; eauto].
      * inversion H. constructor.
    + inversion H. constructor.
Qed.

Lemma many_produced {A : Type} (p : P A) ts l rest :
  many p ts = Ok l rest -> Forall (produced_by p) l.
Proof. apply many_loop_produced. Qed.

Lemma after_literal_produced {A : Type} (v : string) (p : P A) (x : A) :
  produced_by (lit v ;; p) x -> produced_by p x.
Proof.
  intros (ts & rest & H). apply pbind_ok in H. destruct H as (a & mid & _ & H).
  exists mid, rest. exact H.
Qed.

Lemma opt_ok {A : Type} (p : P A) ts o rest :
  opt p ts = Ok o rest ->
  match o with Some a => p ts = Ok a rest | None => rest = ts end.
Proof.
  unfold opt. destruct (p ts) as [a r|d|]; intros H; inversion H; subst; reflexivity.
Qed.

Lemma terminated_produced {A : Type} (p : P A) ts l rest :
  terminated p ts = Ok l rest -> Forall (produced_by p) l.
Proof.
  unfold terminated. intros H. apply pbind_ok in H. destruct H as (o & mid & Ho & Hk).
  inversion Hk; subst. apply opt_ok in Ho.
  destruct o as [l|]; [|constructor]. simpl.
  apply pbind_ok in Ho. destruct Ho as (x & m1 & Hx & Ho).
  apply pbind_ok in Ho. destruct Ho as (xs & m2 & Hxs & Ho).
  apply pbind_ok in Ho. destruct Ho as (semi & m3 & _ & Ho).
  inversion Ho; subst. constructor; [exists ts, m1; exact Hx|].
  apply many_produced in Hxs.
  eapply Forall_impl; [|exact Hxs]. intros a. apply after_literal_produced.
Qed.

Section Resolved.

Variable parse_Expr : P ExprNode.
Variable parse_Reference : P ExprNode.
Variable eof : Position.


Lemma parsed_ClassMember_resolves (fuel : nat) (m : ClassMember) :
  produced_by (parse_ClassMember parse_Expr parse_Reference eof fuel) m ->
  exists d, ClassMember_Decl m = Returns d.
Proof.
  intros (ts & rest & H). destruct fuel as [|fuel]; [discriminate|].
  cbn [parse_ClassMember] in H. unfold ClassMember_rule in H.
  apply pbind_ok in H. destruct H as (pos & m1 & _ & H).
  apply pbind_ok in H. destruct H as (mods & m2 & _ & H).
  repeat match type of H with
  | palt _ _ _ = Ok _ _ => apply palt_ok in H; destruct H as [H | [_ H]]
  end;
  apply wrap_ok in H; destruct H as (x & _ & ->); eexists; reflexivity.
Qed.

Lemma parsed_EnumMember_resolves (fuel : nat) (m : EnumMember) :
  produced_by (parse_EnumMember parse_Expr parse_Reference eof fuel) m ->
  if is_nested_enum m then EnumMember_Decl m = Panics "??"
  else exists d, EnumMember_Decl m = Returns d.
Proof.
  intros (ts & rest & H). destruct fuel as [|fuel]; [discriminate|].
  cbn [parse_EnumMember] in H. unfold EnumMember_rule in H.
  apply pbind_ok in H. destruct H as (pos & m1 & _ & H).
  apply pbind_ok in H. destruct H as (mods & m2 & _ & H).
  repeat match type of H with
  | palt _ _ _ = Ok _ _ => apply palt_ok in H; destruct H as [H | [_ H]]
  end;
  apply wrap_ok in H; destruct H as (x & _ & ->); simpl;
  first [reflexivity | eexists; reflexivity].
Qed.


Lemma parsed_ClassDecl_members (fuel : nat) ts (c : ClassDecl) rest :
  parse_ClassDecl parse_Expr parse_Reference eof (S fuel) ts = Ok c rest ->
  Forall (produced_by (parse_ClassMember parse_Expr parse_Reference eof fuel))
         (ClassDecl_Members c).
Proof.
  cbn [parse_ClassDecl]. unfold ClassDecl_rule. intros H.
  apply pbind_ok in H. destruct H as (pos & m1 & _ & H).
  apply pbind_ok in H. destruct H as (kw & m2 & _ & H).
  apply pbind_ok in H. destruct H as (ty & m3 & _ & H).
  apply pbind_ok in H. destruct H as (br & m4 & _ & H).
  apply pbind_ok in H. destruct H as (ms & m5 & Hms & H).
  apply pbind_ok in H. destruct H as (br' & m6 & _ & H).
  inversion H; subst. simpl. apply terminated_produced in Hms. exact Hms.
Qed.

Lemma parsed_EnumDecl_members (fuel : nat) ts (e : EnumDecl) rest :
  parse_EnumDecl parse_Expr parse_Reference eof (S fuel) ts = Ok e rest ->
  Forall (produced_by (parse_EnumMember parse_Expr parse_Reference eof fuel))
         (EnumDecl_Members e).
Proof.
  cbn [parse_EnumDecl]. unfold EnumDecl_rule. intros H.
  apply pbind_ok in H. destruct H as (pos & m1 & _ & H).
  apply pbind_ok in H. destruct H as (kw & m2 & _ & H).
  apply pbind_ok in H. destruct H as (ty & m3 & _ & H).
  apply pbind_ok in H. destruct H as (br & m4 & _ & H).
  apply pbind_ok in H. destruct H as (ms & m5 & Hms & H).
  apply pbind_ok in H. destruct H as (br' & m6 & _ & H).
  inversion H; subst. simpl. apply terminated_produced in Hms. exact Hms.
Qed.

(** X13: [ClassDecl.Decls] does not panic on a class that the grammar
    produced: every member has one of the five arms that [ClassMember.Decl]
    resolves, and the result lists the resolved arm of each member, in
    order. *)
Theorem X13_Decls_of_a_parsed_class (fuel : nat) (ts : list Token) (c : ClassDecl)
    (rest : list Token) :
  parse_ClassDecl parse_Expr parse_Reference eof fuel ts = Ok c rest ->
  exists ds,
    ClassDecl_Decls c = Returns ds /\
    Forall2 (fun m d => ClassMember_Decl m = Returns d) (ClassDecl_Members c) ds.
Proof.
  intros H. destruct fuel as [|fuel]; [discriminate|].
  apply parsed_ClassDecl_members in H.
  destruct (append_Decls_returns ClassMember_Decl (ClassDecl_Members c)) with (decls := @nil Decl)
    as (ds & Hds & Hall).
  - eapply Forall_impl; [|exact H]. intros m. apply parsed_ClassMember_resolves.
  - exists ds. split; [exact Hds | exact Hall].
Qed.

(** X14: [EnumDecl.Decls] on an enum that the grammar produced: when no
    member is a nested enum, it returns the resolved arm of each member, in
    order; when a member is a nested enum, it panics, since [EnumMember.Decl]
    has no case for that arm. *)
Theorem X14_Decls_of_a_parsed_enum (fuel : nat) (ts : list Token) (e : EnumDecl)
    (rest : list Token) :
  parse_EnumDecl parse_Expr parse_Reference eof fuel ts = Ok e rest ->
  if existsb is_nested_enum (EnumDecl_Members e)
  then EnumDecl_Decls e = Panics "??"
  else exists ds,
         EnumDecl_Decls e = Returns ds /\
         Forall2 (fun m d => EnumMember_Decl m = Returns d) (EnumDecl_Members e) ds.
Proof.
  intros H. destruct fuel as [|fuel]; [discriminate|].
  apply parsed_EnumDecl_members in H.
  assert (Hm : Forall (fun m => if is_nested_enum m then EnumMember_Decl m = Panics "??"
                                else exists d, EnumMember_Decl m = Returns d)
                      (EnumDecl_Members e)).
  { eapply Forall_impl; [|exact H]. intros m. apply parsed_EnumMember_resolves. }
  clear H. unfold EnumDecl_Decls.
  destruct (existsb is_nested_enum (EnumDecl_Members e)) eqn:E.
  - apply append_Decls_panics.
    + eapply Forall_impl; [|exact Hm]. intros m Hd. cbv beta in Hd.
      destruct (is_nested_enum m); [right; exact Hd | left; exact Hd].
    + apply existsb_exists in E. destruct E as (m & Hin & Hn).
      apply Exists_exists. exists m. split; [exact Hin|].
      rewrite Forall_forall in Hm. specialize (Hm m Hin). rewrite Hn in Hm. exact Hm.
  - destruct (append_Decls_returns EnumMember_Decl (EnumDecl_Members e)) with (decls := @nil Decl)
      as (ds & Hds & Hall).
    + rewrite Forall_forall in *. intros m Hin. specialize (Hm m Hin).
      assert (Hn : is_nested_enum m = false).
      { destruct (is_nested_enum m) eqn:En; [|reflexivity].
        assert (existsb is_nested_enum (EnumDecl_Members e) = true)
          by (apply existsb_exists; eauto). congruence. }
      rewrite Hn in Hm. exact Hm.
    + exists ds. split; [exact Hds | exact Hall].
Qed.

End Resolved.

(** The class [class C { let x }]. *)
Lemma X13_witness :
  exists ds,
    ClassDecl_Decls class_C = Returns ds /\
    Forall2 (fun m d => ClassMember_Decl m = Returns d) (ClassDecl_Members class_C) ds.
Proof.
  apply (X13_Decls_of_a_parsed_class no_expressions no_expressions (at_ 17) 6
           (tokens_of "class C { let x }") class_C []).
  vm_compute. reflexivity.
Defined.

(** The enums [enum E { case A }] and [enum E { enum F { } }]. *)
Lemma X14_witness :
  (exists ds,
     EnumDecl_Decls enum_E_A = Returns ds /\
     Forall2 (fun m d => EnumMember_Decl m = Returns d) (EnumDecl_Members enum_E_A) ds) /\
  EnumDecl_Decls enum_E_F = Panics "??".
Proof.
  split.
  - apply (X14_Decls_of_a_parsed_enum no_expressions no_expressions (at_ 17) 6
             (tokens_of "enum E { case A }") enum_E_A []).
    vm_compute. reflexivity.
  - apply (X14_Decls_of_a_parsed_enum no_expressions no_expressions (at_ 21) 6
             (tokens_of "enum E { enum F { } }") enum_E_F []).
    vm_compute. reflexivity.
Defined.

Section ResolvedEntry.

Variable parse_Expr : P ExprNode.
Variable parse_Reference : P ExprNode.
Variable Unquote : string -> option string.



End ResolvedEntry.




(* ------------------------------------------------------------------ *)
(** ** The keyword decides the arm *)

Section Keywords.

Variable parse_Expr : P ExprNode.
Variable parse_Reference : P ExprNode.
Variable eof : Position.





End Keywords.



End DeclsFacts.

(* ------------------------------------------------------------------ *)
(** ** Further properties of the walks *)

Module WalkFacts.

(** X16: the type switch of [Visit] has a case for every node that an
    [accept] method hands to the visitor function: the struct itself under a
    value receiver, a pointer to it under a pointer receiver. On such a node
    the visitor function calls the method of the node's type and never
    reaches the panic of the [default] branch. *)
Theorem X16_type_switch_has_a_case_for_every_node
    (St : Type) (v : Visitor St) (n : Struct) (next : Next St) :
  exists call,
    type_switch v (node_of n) = Some call /\
    typed_visit v (node_of n) next = bind call (maybeNext next).
Proof.
  assert (H : exists call, type_switch v (node_of n) = Some call).
  { destruct n as [| | | | | | | | | | | | | | | | | | | | | | | |x];
      try (eexists; reflexivity).
    destruct x as [[] pos text children]; eexists; reflexivity. }
  destruct H as [call H]. exists call. split; [exact H|].
  unfold typed_visit. rewrite node_of_not_nil, H. reflexivity.
Qed.

(** X17: [Visit] on a nil node. The nil interface and a nil pointer to a
    node type with a pointer receiver are skipped: [Visit] returns nil
    without calling a method of the visitor. A nil pointer to a node type
    with a value receiver panics. Under [VisitFunc] a nil pointer is handed to
    the visitor function, and proceeding from it dereferences the pointer,
    except for [ImportDecl], whose continuation reads no field. *)
Theorem X17_walks_of_nil_nodes
    (St : Type) (v : Visitor St) (s : St) :
  Visit nil_interface v s = Done None s /\
  (forall t, value_receiver t = false -> Visit (nil_pointer t) v s = Done None s) /\
  (forall t, declared_in_source t = true -> value_receiver t = true ->
             Visit (nil_pointer t) v s = Panic nil_receiver_panic s) /\
  (forall t, declared_in_source t = true -> value_receiver t = false ->
             VisitFunc (nil_pointer t) always_next s
             = if match t with T_ImportDecl => true | _ => false end
               then Done None s else Panic nil_dereference_panic s).
Proof.
  repeat split.
  - intros t Ht. destruct t; try discriminate Ht; reflexivity.
  - intros t Hs Ht. destruct t; try discriminate Ht; try discriminate Hs; reflexivity.
  - intros t Hs Ht. destruct t; try discriminate Ht; try discriminate Hs; reflexivity.
Qed.

(** *** The order of a walk *)

Section Records.

Context {St : Type}.

Local Abbreviation V := (typed_visit (logged (DefaultVisitor St))).

Lemma records_eq (w : M (St * journal) (option error)) (ns ns' : list Node) :
  records w ns -> ns = ns' -> records w ns'.
Proof. intros H <-. exact H. Qed.

Lemma records_ret : records (St := St) (ret None) [].
Proof. intros s j. unfold entries. simpl. rewrite app_nil_r. reflexivity. Qed.

Lemma records_and_then (a b : M (St * journal) (option error)) (n1 n2 : list Node) :
  records a n1 -> records b n2 -> records (a ;; b) (n1 ++ n2).
Proof.
  intros Ha Hb s j. unfold and_then, bind. rewrite Ha, Hb.
  unfold entries. rewrite map_app, app_assoc. reflexivity.
Qed.

Lemma recorder_node (n : Struct) (k : Next (St * journal)) (s : St) (j : journal) :
  V (node_of n) k (s, j) = k None (s, j ++ [(node_of n, None)]).
Proof.
  destruct n as [| | | | | | | | | | | | | | | | | | | | | | | |x]; try reflexivity.
  destruct x as [[] pos text children]; reflexivity.
Qed.

Lemma records_visit (n : Struct) (body : M (St * journal) (option error)) (ns : list Node) :
  records body ns -> records (V (node_of n) (proceed body)) (node_of n :: ns).
Proof.
  intros Hb s j. rewrite recorder_node. cbn [proceed]. rewrite Hb.
  unfold entries. cbn [map]. rewrite <- app_assoc. reflexivity.
Qed.

Lemma records_leaf (n : Struct) :
  records (V (node_of n) (fun err => ret err)) [node_of n].
Proof. intros s j. rewrite recorder_node. reflexivity. Qed.

Lemma records_each (A : Type) (W : A -> bool) (f : A -> M (St * journal) (option error))
    (N : A -> list Node) (l : list A) :
  list_all A (fun x => W x = true -> records (f x) (N x)) l ->
  forallb W l = true ->
  records (each f l) (flat_map N l).
Proof.
  induction 1 as [|x Hx l Hl IH]; simpl; intros HW.
  - apply records_ret.
  - apply andb_true_iff in HW. destruct HW as [Hwx Hwl].
    apply records_and_then; auto.
Qed.

Lemma records_each_all (A : Type) (f : A -> M (St * journal) (option error))
    (N : A -> list Node) (l : list A) :
  (forall x, records (f x) (N x)) -> records (each f l) (flat_map N l).
Proof.
  intros H. induction l as [|x l IH]; simpl.
  - apply records_ret.
  - apply records_and_then; auto.
Qed.

Lemma records_ExprNode (x : ExprNode) : records (ExprNode_accept V x) (expr_nodes x).
Proof. intros s j. apply ExprNode_journal. Qed.

Lemma records_expr (p : option ExprNode) :
  records (VisitFunc_expr V p) (option_nodes expr_nodes p).
Proof. destruct p; simpl; [apply records_ExprNode | apply records_ret]. Qed.

Lemma records_present (A : Type) (W : A -> bool) (f : A -> M (St * journal) (option error))
    (N : A -> list Node) (p : option A) :
  option_all A (fun x => W x = true -> records (f x) (N x)) p ->
  present W p = true ->
  records (VisitFunc_value_receiver f p) (option_nodes N p).
Proof. destruct 1; simpl; [auto | discriminate]. Qed.

Lemma records_present_all (A : Type) (f : A -> M (St * journal) (option error))
    (N : A -> list Node) (p : option A) :
  (forall x, records (f x) (N x)) ->
  present (fun _ => true) p = true ->
  records (VisitFunc_value_receiver f p) (option_nodes N p).
Proof. destruct p; simpl; [auto | discriminate]. Qed.

Lemma records_ImportDecl n : records (ImportDecl_accept V n) (ImportDecl_nodes n).
Proof. apply (records_leaf (S_ImportDecl n)). Qed.

Lemma records_EnumCase n : records (EnumCase_accept V n) (EnumCase_nodes n).
Proof. apply (records_leaf (S_EnumCase n)). Qed.

Lemma records_TypeParamDecl n : records (TypeParamDecl_accept V n) (TypeParamDecl_nodes n).
Proof.
  apply (records_visit (S_TypeParamDecl n)). apply records_each_all. apply records_ExprNode.
Qed.

Lemma records_TypeDecl n : records (TypeDecl_accept V n) (TypeDecl_nodes n).
Proof.
  apply (records_visit (S_TypeDecl n)). apply records_each_all. apply records_TypeParamDecl.
Qed.

Lemma records_CaseDecl n :
  CaseDecl_crossable n = true -> records (CaseDecl_accept V n) (CaseDecl_nodes n).
Proof.
  intros H. apply (records_visit (S_CaseDecl n)).
  apply records_present_all; [apply records_TypeDecl | exact H].
Qed.

Lemma records_Parameters n : records (Parameters_accept V n) (Parameters_nodes n).
Proof. apply (records_visit (S_Parameters n)). apply records_expr. Qed.

Lemma records_VarDeclAsgn n : records (VarDeclAsgn_accept V n) (VarDeclAsgn_nodes n).
Proof.
  apply (records_visit (S_VarDeclAsgn n)). apply records_and_then; apply records_expr.
Qed.

Lemma records_VarDecl n : records (VarDecl_accept V n) (VarDecl_nodes n).
Proof.
  apply (records_visit (S_VarDecl n)). apply records_each_all. apply records_VarDeclAsgn.
Qed.

Lemma records_CaseSelect n :
  CaseSelect_crossable n = true -> records (CaseSelect_accept V n) (CaseSelect_nodes n).
Proof.
  intros H. apply (records_visit (S_CaseSelect n)). apply records_and_then.
  - apply records_present_all; [apply records_EnumCase | exact H].
  - apply records_expr.
Qed.

Lemma records_ReturnStmt n : records (ReturnStmt_accept V n) (ReturnStmt_nodes n).
Proof. apply (records_visit (S_ReturnStmt n)). apply records_expr. Qed.

(** A present block. *)
Lemma records_block (f : Block -> M (St * journal) (option error)) (p : option Block) :
  option_all Block (fun b => Block_crossable b = true -> records (f b) (Block_nodes b)) p ->
  match p with Some b => Block_crossable b | None => false end = true ->
  records (VisitFunc_value_receiver f p)
          (match p with Some b => Block_nodes b | None => [] end).
Proof. destruct 1; simpl; [auto | discriminate]. Qed.

Ltac record_arm H :=
  let x := fresh "x" in
  let Hx := fresh "Hx" in
  destruct H as [x Hx|]; [intros Hc; apply Hx; exact Hc|].

Lemma records_nodes :
  (forall n, Stmt_crossable n = true -> records (Stmt_accept V n) (Stmt_nodes n)) /\
  (forall n, Block_crossable n = true -> records (Block_accept V n) (Block_nodes n)) /\
  (forall n, ForStmt_crossable n = true -> records (ForStmt_accept V n) (ForStmt_nodes n)) /\
  (forall n, IfStmt_crossable n = true -> records (IfStmt_accept V n) (IfStmt_nodes n)) /\
  (forall n, SwitchStmt_crossable n = true ->
             records (SwitchStmt_accept V n) (SwitchStmt_nodes n)) /\
  (forall n, CaseStmt_crossable n = true ->
             records (CaseStmt_accept V n) (CaseStmt_nodes n)) /\
  (forall n, FuncDecl_crossable n = true ->
             records (FuncDecl_accept V n) (FuncDecl_nodes n)) /\
  (forall n, InitialiserDecl_crossable n = true ->
             records (InitialiserDecl_accept V n) (InitialiserDecl_nodes n)) /\
  (forall n, ClassDecl_crossable n = true ->
             records (ClassDecl_accept V n) (ClassDecl_nodes n)) /\
  (forall n, ClassMember_crossable n = true ->
             records (ClassMember_accept V n) (ClassMember_nodes n)) /\
  (forall n, EnumDecl_crossable n = true ->
             records (EnumDecl_accept V n) (EnumDecl_nodes n)) /\
  (forall n, EnumMember_crossable n = true ->
             records (EnumMember_accept V n) (EnumMember_nodes n)).
Proof.
  apply nodes_mutind.
  - (* Stmt *)
    intros Pos Return If HIf For HFor Switch HSwitch Block_ HBlock VarDecl_ FuncDecl_ HFunc
      ClassDecl_ HClass EnumDecl_ HEnum Expression.
    set (s := mkStmt Pos Return If For Switch Block_ VarDecl_ FuncDecl_ ClassDecl_ EnumDecl_
                Expression).
    intros Hc. apply (records_visit (S_Stmt s)). subst s. revert Hc. cbn [Stmt_crossable].
    destruct Return as [r|]; [intros _; apply records_ReturnStmt|].
    record_arm HIf. record_arm HFor. record_arm HSwitch. record_arm HBlock.
    destruct VarDecl_ as [v|]; [intros _; apply records_VarDecl|].
    record_arm HFunc. record_arm HClass. record_arm HEnum.
    destruct Expression as [x|]; [intros _; apply records_ExprNode | discriminate].
  - (* Block *)
    intros Pos Statements H Hc. apply (records_visit (S_Block (mkBlock Pos Statements))).
    apply (records_each _ Stmt_crossable); assumption.
  - (* ForStmt *)
    intros Pos Target Source Body H Hc.
    apply (records_visit (S_ForStmt (mkForStmt Pos Target Source Body))).
    eapply records_eq.
    + apply records_and_then; [apply records_expr|].
      apply records_and_then; [apply records_expr|].
      apply records_and_then; [|apply records_ret].
      apply records_block; [exact H | exact Hc].
    + rewrite app_nil_r. reflexivity.
  - (* IfStmt *)
    intros Pos Condition Main HMain Else HElse Hc.
    cbn [IfStmt_crossable] in Hc. apply andb_true_iff in Hc. destruct Hc as [Hm He].
    apply (records_visit (S_IfStmt (mkIfStmt Pos Condition Main Else))).
    eapply records_eq.
    + apply records_and_then; [apply records_expr|].
      apply records_and_then; [apply records_block; [exact HMain | exact Hm]|].
      apply records_and_then; [|apply records_ret].
      apply records_block; [exact HElse | exact He].
    + rewrite app_nil_r. reflexivity.
  - (* SwitchStmt *)
    intros Pos Target Cases H Hc.
    apply (records_visit (S_SwitchStmt (mkSwitchStmt Pos Target Cases))).
    apply records_and_then; [apply records_expr|].
    apply (records_each _ CaseStmt_crossable); assumption.
  - (* CaseStmt *)
    intros Pos Default Case Body H Hc.
    cbn [CaseStmt_crossable] in Hc. apply andb_true_iff in Hc. destruct Hc as [Hs Hb].
    apply (records_visit (S_CaseStmt (mkCaseStmt Pos Default Case Body))).
    apply records_and_then.
    + destruct Case as [c|]; [|discriminate]. apply records_CaseSelect. exact Hs.
    + apply (records_each _ Stmt_crossable); assumption.
  - (* FuncDecl *)
    intros Pos Name Parameters_ Throws Return Body H Hc.
    apply (records_visit (S_FuncDecl (mkFuncDecl Pos Name Parameters_ Throws Return Body))).
    apply records_and_then; [apply records_each_all; apply records_Parameters|].
    apply records_and_then; [apply records_expr|].
    apply records_block; [exact H | exact Hc].
  - (* InitialiserDecl *)
    intros Pos Parameters_ Throws Body H Hc.
    apply (records_visit (S_InitialiserDecl (mkInitialiserDecl Pos Parameters_ Throws Body))).
    apply records_and_then; [apply records_each_all; apply records_Parameters|].
    apply records_block; [exact H | exact Hc].
  - (* ClassDecl *)
    intros Pos Type_ Members H Hc.
    cbn [ClassDecl_crossable] in Hc. apply andb_true_iff in Hc. destruct Hc as [Ht Hm].
    apply (records_visit (S_ClassDecl (mkClassDecl Pos Type_ Members))).
    apply records_and_then.
    + apply records_present_all; [apply records_TypeDecl | exact Ht].
    + apply (records_each _ ClassMember_crossable); assumption.
  - (* ClassMember *)
    intros Pos Modifiers_ VarDecl_ FuncDecl_ HFunc ClassDecl_ HClass EnumDecl_ HEnum
      InitialiserDecl_ HInit.
    set (m := mkClassMember Pos Modifiers_ VarDecl_ FuncDecl_ ClassDecl_ EnumDecl_
                InitialiserDecl_).
    intros Hc. apply (records_visit (S_ClassMember m)). subst m. revert Hc.
    cbn [ClassMember_crossable].
    destruct VarDecl_ as [v|]; [intros _; apply records_VarDecl|].
    record_arm HFunc. record_arm HClass. record_arm HEnum. record_arm HInit. discriminate.
  - (* EnumDecl *)
    intros Pos Type_ Members H Hc.
    cbn [EnumDecl_crossable] in Hc. apply andb_true_iff in Hc. destruct Hc as [Ht Hm].
    apply (records_visit (S_EnumDecl (mkEnumDecl Pos Type_ Members))).
    apply records_and_then.
    + apply records_present_all; [apply records_TypeDecl | exact Ht].
    + apply (records_each _ EnumMember_crossable); assumption.
  - (* EnumMember *)
    intros Pos Modifiers_ CaseDecl_ VarDecl_ FuncDecl_ HFunc ClassDecl_ HClass EnumDecl_ HEnum
      InitialiserDecl_ HInit.
    set (m := mkEnumMember Pos Modifiers_ CaseDecl_ VarDecl_ FuncDecl_ ClassDecl_ EnumDecl_
                InitialiserDecl_).
    intros Hc. apply (records_visit (S_EnumMember m)). subst m. revert Hc.
    cbn [EnumMember_crossable].
    destruct CaseDecl_ as [c|]; [apply records_CaseDecl|].
    destruct VarDecl_ as [v|]; [intros _; apply records_VarDecl|].
    record_arm HFunc. record_arm HClass. clear HEnum. record_arm HInit.
    discriminate.
Qed.

End Records.

Lemma list_all_of_forall (A : Type) (P : A -> Prop) (l : list A) :
  (forall x, P x) -> list_all A P l.
Proof. intros H. induction l; constructor; auto. Qed.

Section RecordsTop.

Context {St : Type}.

Local Abbreviation V := (typed_visit (logged (DefaultVisitor St))).

Lemma records_Decl (d : Decl) :
  Decl_crossable d = true -> records (Decl_accept V d) (Decl_nodes d).
Proof.
  destruct (records_nodes (St := St)) as (_ & _ & _ & _ & _ & _ & Hf & Hi & Hc & _ & He & _).
  destruct d; simpl; intros H; auto using records_ImportDecl, records_VarDecl, records_CaseDecl.
Qed.

Lemma records_RootDecl (r : RootDecl) :
  RootDecl_crossable r = true -> records (RootDecl_accept V r) (RootDecl_nodes r).
Proof.
  unfold RootDecl_crossable, RootDecl_nodes, RootDecl_accept. intros H.
  apply (records_visit (S_RootDecl r)).
  destruct (RootDecl_Decl r) as [d|msg]; [|discriminate].
  apply records_Decl. exact H.
Qed.

Lemma records_AST (a : AST) :
  AST_crossable a = true -> records (AST_accept V a) (AST_nodes a).
Proof.
  unfold AST_crossable, AST_nodes, AST_accept. intros H.
  apply (records_visit (S_AST a)).
  apply (records_each _ RootDecl_crossable); [|exact H].
  apply list_all_of_forall. apply records_RootDecl.
Qed.

Lemma records_Struct (n : Struct) :
  Struct_crossable n = true -> records (Struct_accept V n) (Struct_nodes n).
Proof.
  destruct (records_nodes (St := St))
    as (H1 & H2 & H3 & H4 & H5 & H6 & H7 & H8 & H9 & H10 & H11 & H12).
  destruct n; simpl; intros H;
    auto using records_AST, records_RootDecl, records_ImportDecl, records_VarDecl,
      records_CaseDecl, records_CaseSelect, records_EnumCase, records_Parameters,
      records_ReturnStmt, records_TypeDecl, records_TypeParamDecl, records_VarDeclAsgn,
      records_ExprNode.
Qed.

End RecordsTop.

(** X18: on a tree that a walk can cross (every pointer to a node with a
    value receiver is present, and every union has an arm that its [accept]
    resolves), [Visit] calls the method of every node exactly once, a node
    before its children and the children in the order of the fields that
    [accept] visits: the journal of the recording visitor is the pre-order
    list of the nodes, and the walk returns nil. *)
Theorem X18_Visit_calls_the_methods_in_preorder
    (St : Type) (n : Struct) (s : St) :
  Struct_crossable n = true ->
  Visit (node_of n) (logged (DefaultVisitor St)) (s, [])
  = Done None (s, entries (Struct_nodes n)).
Proof.
  intros H. unfold Visit. rewrite accept_node_of.
  apply (records_Struct n H s []).
Qed.

(** The program of four declarations. *)
Lemma X18_witness :
  Visit (node_of (S_AST four_declarations)) (logged (DefaultVisitor nat)) (0, [])
  = Done None (0, entries (Struct_nodes (S_AST four_declarations))).
Proof.
  apply (X18_Visit_calls_the_methods_in_preorder nat (S_AST four_declarations) 0).
  reflexivity.
Defined.

(** *** The trees that a walk crosses *)

Section Decides.

Context {St : Type}.

Local Abbreviation D := (typed_visit (DefaultVisitor St)).

Lemma decides_ret : decides (St := St) true (ret None).
Proof. intros s. reflexivity. Qed.

Lemma decides_panic msg : decides (St := St) false (panic msg).
Proof. intros s. exists msg. reflexivity. Qed.

Lemma decides_and_then (b1 b2 : bool) (a b : M St (option error)) :
  decides b1 a -> decides b2 b -> decides (b1 && b2) (a ;; b).
Proof.
  unfold decides, completes, panics, and_then, bind.
  destruct b1, b2; simpl; intros Ha Hb s.
  - rewrite Ha. apply Hb.
  - rewrite Ha. apply Hb.
  - destruct (Ha s) as [msg ->]. eauto.
  - destruct (Ha s) as [msg ->]. eauto.
Qed.

Lemma default_node (n : Struct) (k : Next St) : D (node_of n) k = k None.
Proof.
  destruct n as [| | | | | | | | | | | | | | | | | | | | | | | |x]; try reflexivity.
  destruct x as [[] pos text children]; reflexivity.
Qed.

Lemma decides_visit (n : Struct) (b : bool) (body : M St (option error)) :
  decides b body -> decides b (D (node_of n) (proceed body)).
Proof. rewrite default_node. exact (fun H => H). Qed.

Lemma decides_leaf (n : Struct) : decides true (D (node_of n) (fun err => ret err)).
Proof. rewrite default_node. apply decides_ret. Qed.

Lemma decides_each (A : Type) (W : A -> bool) (f : A -> M St (option error)) (l : list A) :
  list_all A (fun x => decides (W x) (f x)) l -> decides (forallb W l) (each f l).
Proof.
  induction 1 as [|x Hx l Hl IH]; simpl; [apply decides_ret|].
  apply decides_and_then; assumption.
Qed.

Lemma decides_each_all (A : Type) (f : A -> M St (option error)) (l : list A) :
  (forall x, decides true (f x)) -> decides true (each f l).
Proof.
  intros H. induction l as [|x l IH]; simpl; [apply decides_ret|].
  apply (decides_and_then true true); auto.
Qed.

Lemma decides_ExprNode (x : ExprNode) : decides true (ExprNode_accept D x).
Proof.
  intros s. apply ExprNode_accept_completes. intros y k. apply default_visit_ExprNode.
Qed.

Lemma decides_expr (p : option ExprNode) : decides true (VisitFunc_expr D p).
Proof. destruct p; simpl; [apply decides_ExprNode | apply decides_ret]. Qed.

Lemma decides_present (A : Type) (W : A -> bool) (f : A -> M St (option error))
    (p : option A) :
  option_all A (fun x => decides (W x) (f x)) p ->
  decides (present W p) (VisitFunc_value_receiver f p).
Proof. destruct 1; simpl; [assumption | apply decides_panic]. Qed.

Lemma decides_present_all (A : Type) (f : A -> M St (option error)) (p : option A) :
  (forall x, decides true (f x)) ->
  decides (present (fun _ => true) p) (VisitFunc_value_receiver f p).
Proof. intros H. destruct p; simpl; [apply H | apply decides_panic]. Qed.

Lemma decides_block (f : Block -> M St (option error)) (p : option Block) :
  option_all Block (fun b => decides (Block_crossable b) (f b)) p ->
  decides (match p with Some b => Block_crossable b | None => false end)
          (VisitFunc_value_receiver f p).
Proof. destruct 1; simpl; [assumption | apply decides_panic]. Qed.

Lemma decides_ImportDecl n : decides true (ImportDecl_accept D n).
Proof. apply (decides_leaf (S_ImportDecl n)). Qed.

Lemma decides_EnumCase n : decides true (EnumCase_accept D n).
Proof. apply (decides_leaf (S_EnumCase n)). Qed.

Lemma decides_TypeParamDecl n : decides true (TypeParamDecl_accept D n).
Proof.
  apply (decides_visit (S_TypeParamDecl n)). apply decides_each_all. apply decides_ExprNode.
Qed.

Lemma decides_TypeDecl n : decides true (TypeDecl_accept D n).
Proof.
  apply (decides_visit (S_TypeDecl n)). apply decides_each_all. apply decides_TypeParamDecl.
Qed.

Lemma decides_CaseDecl n : decides (CaseDecl_crossable n) (CaseDecl_accept D n).
Proof.
  apply (decides_visit (S_CaseDecl n)). apply decides_present_all. apply decides_TypeDecl.
Qed.

Lemma decides_Parameters n : decides true (Parameters_accept D n).
Proof. apply (decides_visit (S_Parameters n)). apply decides_expr. Qed.

Lemma decides_VarDeclAsgn n : decides true (VarDeclAsgn_accept D n).
Proof.
  apply (decides_visit (S_VarDeclAsgn n)).
  apply (decides_and_then true true); apply decides_expr.
Qed.

Lemma decides_VarDecl n : decides true (VarDecl_accept D n).
Proof.
  apply (decides_visit (S_VarDecl n)). apply decides_each_all. apply decides_VarDeclAsgn.
Qed.

Lemma decides_CaseSelect n : decides (CaseSelect_crossable n) (CaseSelect_accept D n).
Proof.
  apply (decides_visit (S_CaseSelect n)).
  rewrite <- (andb_true_r (CaseSelect_crossable n)).
  apply decides_and_then.
  - apply decides_present_all. apply decides_EnumCase.
  - apply decides_expr.
Qed.

Lemma decides_ReturnStmt n : decides true (ReturnStmt_accept D n).
Proof. apply (decides_visit (S_ReturnStmt n)). apply decides_expr. Qed.

Ltac decide_arm H :=
  let x := fresh "x" in
  let Hx := fresh "Hx" in
  destruct H as [x Hx|]; [exact Hx|].

Lemma decides_nodes :
  (forall n, decides (Stmt_crossable n) (Stmt_accept D n)) /\
  (forall n, decides (Block_crossable n) (Block_accept D n)) /\
  (forall n, decides (ForStmt_crossable n) (ForStmt_accept D n)) /\
  (forall n, decides (IfStmt_crossable n) (IfStmt_accept D n)) /\
  (forall n, decides (SwitchStmt_crossable n) (SwitchStmt_accept D n)) /\
  (forall n, decides (CaseStmt_crossable n) (CaseStmt_accept D n)) /\
  (forall n, decides (FuncDecl_crossable n) (FuncDecl_accept D n)) /\
  (forall n, decides (InitialiserDecl_crossable n) (InitialiserDecl_accept D n)) /\
  (forall n, decides (ClassDecl_crossable n) (ClassDecl_accept D n)) /\
  (forall n, decides (ClassMember_crossable n) (ClassMember_accept D n)) /\
  (forall n, decides (EnumDecl_crossable n) (EnumDecl_accept D n)) /\
  (forall n, decides (EnumMember_crossable n) (EnumMember_accept D n)).
Proof.
  apply nodes_mutind.
  - (* Stmt *)
    intros Pos Return If HIf For HFor Switch HSwitch Block_ HBlock VarDecl_ FuncDecl_ HFunc
      ClassDecl_ HClass EnumDecl_ HEnum Expression.
    set (s := mkStmt Pos Return If For Switch Block_ VarDecl_ FuncDecl_ ClassDecl_ EnumDecl_
                Expression).
    apply (decides_visit (S_Stmt s)). subst s. cbn [Stmt_crossable].
    destruct Return as [r|]; [apply decides_ReturnStmt|].
    decide_arm HIf. decide_arm HFor. decide_arm HSwitch. decide_arm HBlock.
    destruct VarDecl_ as [v|]; [apply decides_VarDecl|].
    decide_arm HFunc. decide_arm HClass. decide_arm HEnum.
    destruct Expression as [x|]; [apply decides_ExprNode | apply decides_panic].
  - (* Block *)
    intros Pos Statements H. apply (decides_visit (S_Block (mkBlock Pos Statements))).
    apply (decides_each _ Stmt_crossable). exact H.
  - (* ForStmt *)
    intros Pos Target Source Body H.
    apply (decides_visit (S_ForStmt (mkForStmt Pos Target Source Body))).
    cbn [ForStmt_crossable].
    apply (decides_and_then true); [apply decides_expr|].
    apply (decides_and_then true); [apply decides_expr|].
    rewrite <- (andb_true_r (match Body with Some b => Block_crossable b | None => false end)).
    apply decides_and_then; [|apply decides_ret].
    apply decides_block. exact H.
  - (* IfStmt *)
    intros Pos Condition Main HMain Else HElse.
    apply (decides_visit (S_IfStmt (mkIfStmt Pos Condition Main Else))).
    cbn [IfStmt_crossable].
    apply (decides_and_then true); [apply decides_expr|].
    apply decides_and_then; [apply decides_block; exact HMain|].
    rewrite <- (andb_true_r (match Else with Some b => Block_crossable b | None => false end)).
    apply decides_and_then; [|apply decides_ret].
    apply decides_block. exact HElse.
  - (* SwitchStmt *)
    intros Pos Target Cases H.
    apply (decides_visit (S_SwitchStmt (mkSwitchStmt Pos Target Cases))).
    apply (decides_and_then true); [apply decides_expr|].
    apply (decides_each _ CaseStmt_crossable). exact H.
  - (* CaseStmt *)
    intros Pos Default Case Body H.
    apply (decides_visit (S_CaseStmt (mkCaseStmt Pos Default Case Body))).
    cbn [CaseStmt_crossable]. apply decides_and_then.
    + apply decides_present. destruct Case; constructor. apply decides_CaseSelect.
    + apply (decides_each _ Stmt_crossable). exact H.
  - (* FuncDecl *)
    intros Pos Name Parameters_ Throws Return Body H.
    apply (decides_visit (S_FuncDecl (mkFuncDecl Pos Name Parameters_ Throws Return Body))).
    cbn [FuncDecl_crossable].
    apply (decides_and_then true); [apply decides_each_all; apply decides_Parameters|].
    apply (decides_and_then true); [apply decides_expr|].
    apply decides_block. exact H.
  - (* InitialiserDecl *)
    intros Pos Parameters_ Throws Body H.
    apply (decides_visit (S_InitialiserDecl (mkInitialiserDecl Pos Parameters_ Throws Body))).
    cbn [InitialiserDecl_crossable].
    apply (decides_and_then true); [apply decides_each_all; apply decides_Parameters|].
    apply decides_block. exact H.
  - (* ClassDecl *)
    intros Pos Type_ Members H.
    apply (decides_visit (S_ClassDecl (mkClassDecl Pos Type_ Members))).
    cbn [ClassDecl_crossable]. apply decides_and_then.
    + apply decides_present_all. apply decides_TypeDecl.
    + apply (decides_each _ ClassMember_crossable). exact H.
  - (* ClassMember *)
    intros Pos Modifiers_ VarDecl_ FuncDecl_ HFunc ClassDecl_ HClass EnumDecl_ HEnum
      InitialiserDecl_ HInit.
    set (m := mkClassMember Pos Modifiers_ VarDecl_ FuncDecl_ ClassDecl_ EnumDecl_
                InitialiserDecl_).
    apply (decides_visit (S_ClassMember m)). subst m. cbn [ClassMember_crossable].
    destruct VarDecl_ as [v|]; [apply decides_VarDecl|].
    decide_arm HFunc. decide_arm HClass. decide_arm HEnum. decide_arm HInit.
    apply decides_panic.
  - (* EnumDecl *)
    intros Pos Type_ Members H.
    apply (decides_visit (S_EnumDecl (mkEnumDecl Pos Type_ Members))).
    cbn [EnumDecl_crossable]. apply decides_and_then.
    + apply decides_present_all. apply decides_TypeDecl.
    + apply (decides_each _ EnumMember_crossable). exact H.
  - (* EnumMember *)
    intros Pos Modifiers_ CaseDecl_ VarDecl_ FuncDecl_ HFunc ClassDecl_ HClass EnumDecl_ HEnum
      InitialiserDecl_ HInit.
    set (m := mkEnumMember Pos Modifiers_ CaseDecl_ VarDecl_ FuncDecl_ ClassDecl_ EnumDecl_
                InitialiserDecl_).
    apply (decides_visit (S_EnumMember m)). subst m. cbn [EnumMember_crossable].
    destruct CaseDecl_ as [c|]; [apply decides_CaseDecl|].
    destruct VarDecl_ as [v|]; [apply decides_VarDecl|].
    decide_arm HFunc. decide_arm HClass. clear HEnum. decide_arm HInit.
    apply decides_panic.
Qed.

Lemma decides_Decl (d : Decl) : decides (Decl_crossable d) (Decl_accept D d).
Proof.
  destruct decides_nodes as (_ & _ & _ & _ & _ & _ & Hf & Hi & Hc & _ & He & _).
  destruct d; cbn [Decl_crossable Decl_accept];
    auto using decides_ImportDecl, decides_VarDecl, decides_CaseDecl.
Qed.

Lemma decides_RootDecl (r : RootDecl) : decides (RootDecl_crossable r) (RootDecl_accept D r).
Proof.
  unfold RootDecl_crossable, RootDecl_accept.
  apply (decides_visit (S_RootDecl r)).
  destruct (RootDecl_Decl r) as [d|msg]; [apply decides_Decl | apply decides_panic].
Qed.

Lemma decides_AST (a : AST) : decides (AST_crossable a) (AST_accept D a).
Proof.
  unfold AST_crossable, AST_accept.
  apply (decides_visit (S_AST a)).
  apply (decides_each _ RootDecl_crossable).
  apply list_all_of_forall. apply decides_RootDecl.
Qed.

Lemma decides_Struct (n : Struct) : decides (Struct_crossable n) (Struct_accept D n).
Proof.
  destruct decides_nodes as (H1 & H2 & H3 & H4 & H5 & H6 & H7 & H8 & H9 & H10 & H11 & H12).
  destruct n; cbn [Struct_crossable Struct_accept];
    auto using decides_AST, decides_RootDecl, decides_ImportDecl, decides_VarDecl,
      decides_CaseDecl, decides_CaseSelect, decides_EnumCase, decides_Parameters,
      decides_ReturnStmt, decides_TypeDecl, decides_TypeParamDecl, decides_VarDeclAsgn,
      decides_ExprNode.
Qed.

End Decides.

(** X19: [Visit] under the default visitor completes, with nil and in an
    unchanged state, exactly on the trees that a walk can cross; on every
    other tree it panics: at a nil pointer to a node with a value receiver
    (an absent else block, a case without a type, a default case, a case
    selected by an expression, a declaration without a body) or at a union
    with no arm that its [accept] resolves (a nested enum among them). *)
Theorem X19_default_walk_completes_exactly_on_crossable_trees
    (St : Type) (n : Struct) (s : St) :
  (Struct_crossable n = true -> Visit (node_of n) (DefaultVisitor St) s = Done None s) /\
  (Struct_crossable n = false ->
   exists msg, Visit (node_of n) (DefaultVisitor St) s = Panic msg s).
Proof.
  unfold Visit. rewrite accept_node_of.
  pose proof (decides_Struct (St := St) n) as H.
  split; intros Hc; rewrite Hc in H; apply H.
Qed.

End WalkFacts.
